(** * treebench: the unbalanced binary search tree of [bstree.cc]

    A shallow embedding of [hedger::BSTree] over an explicit free store.
    Nodes live at addresses in a finite map; a pointer is an optional
    address ([None] is [nullptr]).  Every method is a computation in a
    small state-and-fault monad: dereferencing [nullptr] or an address that
    is not live is a fault, and the loops and recursions of the source,
    which walk pointer chains, take a step budget. *)

From stdpp Require Import gmap list sorting.
From Stdlib Require Import ZArith Lia.

Open Scope Z_scope.

(** ** Memory *)

Abbreviation ptr := (option positive).

(** [hedger::Node], as its fields are used by [bstree.cc]. The key type
    [S_T] is an integer type that is only ever compared. *)
Record Node := mkNode {
  key : Z;
  data : ptr;
  left : ptr;
  right : ptr;
  parent : ptr
}.

Definition with_key (k : Z) (n : Node) : Node :=
  mkNode k (data n) (left n) (right n) (parent n).
Definition with_data (p : ptr) (n : Node) : Node :=
  mkNode (key n) p (left n) (right n) (parent n).
Definition with_left (p : ptr) (n : Node) : Node :=
  mkNode (key n) (data n) p (right n) (parent n).
Definition with_right (p : ptr) (n : Node) : Node :=
  mkNode (key n) (data n) (left n) p (parent n).
Definition with_parent (p : ptr) (n : Node) : Node :=
  mkNode (key n) (data n) (left n) (right n) p.

(** What [printf] wrote: one line per leaf depth ([MaxDepthRecurse]) or per
    node ([Print]). *)
Inductive line :=
  | DepthLine (d : Z)
  | NodeLine (a : positive) (k : Z) (p l r : ptr).

(** The free store together with the fields of the one [BSTree] object.
    [brk] is the next address [new] hands out: addresses are never reused,
    so a pointer to a deleted node stays dangling.  [released] logs every
    [delete node] in order.  [cells] holds the live [int] objects: payloads
    and the variables depths are reported through.  Counters and depths are
    in [Z]: they count nodes and calls, far from the bounds of [int]. *)
Record state := mkState {
  heap : gmap positive Node;
  cells : gmap positive Z;
  brk : positive;
  released : list positive;
  console : list line;
  root_ : ptr;
  size_ : Z;
  maxSize_ : Z;
  nodeTot_ : Z
}.

Definition set_heap (h : gmap positive Node) (s : state) : state :=
  mkState h (cells s) (brk s) (released s) (console s)
          (root_ s) (size_ s) (maxSize_ s) (nodeTot_ s).
Definition set_cells (c : gmap positive Z) (s : state) : state :=
  mkState (heap s) c (brk s) (released s) (console s)
          (root_ s) (size_ s) (maxSize_ s) (nodeTot_ s).
Definition set_brk (b : positive) (s : state) : state :=
  mkState (heap s) (cells s) b (released s) (console s)
          (root_ s) (size_ s) (maxSize_ s) (nodeTot_ s).
Definition set_released (l : list positive) (s : state) : state :=
  mkState (heap s) (cells s) (brk s) l (console s)
          (root_ s) (size_ s) (maxSize_ s) (nodeTot_ s).
Definition set_console (l : list line) (s : state) : state :=
  mkState (heap s) (cells s) (brk s) (released s) l
          (root_ s) (size_ s) (maxSize_ s) (nodeTot_ s).
Definition set_root (p : ptr) (s : state) : state :=
  mkState (heap s) (cells s) (brk s) (released s) (console s)
          p (size_ s) (maxSize_ s) (nodeTot_ s).
Definition set_size (z : Z) (s : state) : state :=
  mkState (heap s) (cells s) (brk s) (released s) (console s)
          (root_ s) z (maxSize_ s) (nodeTot_ s).
Definition set_nodeTot (z : Z) (s : state) : state :=
  mkState (heap s) (cells s) (brk s) (released s) (console s)
          (root_ s) (size_ s) (maxSize_ s) z.

(** ** The monad *)

Inductive fault :=
  | NullDeref
  | Dangling (a : positive).

Inductive outcome (A : Type) :=
  | Ok (a : A) (s : state)
  | Fault (f : fault)
  | Timeout.
Arguments Ok {A} a s.
Arguments Fault {A} f.
Arguments Timeout {A}.

Definition M (A : Type) : Type := state → outcome A.

Definition ret {A} (a : A) : M A := λ s, Ok a s.
Definition bind {A B} (m : M A) (k : A → M B) : M B :=
  λ s, match m s with
       | Ok a s' => k a s'
       | Fault f => Fault f
       | Timeout => Timeout
       end.
Definition fail {A} (f : fault) : M A := λ _, Fault f.
Definition timeout {A} : M A := λ _, Timeout.
Definition get {A} (f : state → A) : M A := λ s, Ok (f s) s.
Definition modify (f : state → state) : M unit := λ s, Ok tt (f s).

Declare Scope m_scope.
Delimit Scope m_scope with M.
Notation "x <- m ;; k" := (bind m (λ x, k))
  (at level 100, m at next level, right associativity) : m_scope.
Notation "m ;;; k" := (bind m (λ _, k))
  (at level 100, right associativity) : m_scope.
Open Scope m_scope.

(** ** Primitive memory operations *)

(** [p->], for reading or writing: the node [p] points to. *)
Definition deref (p : ptr) : M (positive * Node) :=
  match p with
  | None => fail NullDeref
  | Some a => λ s, match heap s !! a with
                   | Some n => Ok (a, n) s
                   | None => Fault (Dangling a)
                   end
  end.

(** [p->f] *)
Definition rd {A} (f : Node → A) (p : ptr) : M A :=
  an <- deref p ;; ret (f an.2).

(** [p->f = v], with [upd] the field update *)
Definition wr (upd : Node → Node) (p : ptr) : M unit :=
  an <- deref p ;;
  modify (λ s, set_heap (<[an.1 := upd an.2]> (heap s)) s).

(** Modelled from the spec: the constructor [Node(key)] is declared in
    bstree.h, which is not among the sources; the spec has a Node built from
    a key with no payload, no children and no parent. *)
Definition Node_ctor (k : Z) : Node := mkNode k None None None None.

(** [new hedger::Node(key)] *)
Definition new_Node (k : Z) : M ptr :=
  λ s, Ok (Some (brk s))
          (set_brk (Pos.succ (brk s))
             (set_heap (<[brk s := Node_ctor k]> (heap s)) s)).

(** [delete node]: nothing for [nullptr]; otherwise the node must be live.
    Only the node's own storage goes: [bstree.cc] releases a payload itself
    where it means to. *)
Definition delete_node (p : ptr) : M unit :=
  match p with
  | None => ret tt
  | Some a => λ s, match heap s !! a with
                   | Some _ => Ok tt (set_released (released s ++ [a])
                                        (set_heap (delete a (heap s)) s))
                   | None => Fault (Dangling a)
                   end
  end.

(** [delete (int * ) p] *)
Definition delete_int (p : ptr) : M unit :=
  match p with
  | None => ret tt
  | Some a => λ s, match cells s !! a with
                   | Some _ => Ok tt (set_cells (delete a (cells s)) s)
                   | None => Fault (Dangling a)
                   end
  end.

(** [*p = v] for an [int *p] *)
Definition write_int (p : ptr) (v : Z) : M unit :=
  match p with
  | None => fail NullDeref
  | Some a => λ s, match cells s !! a with
                   | Some _ => Ok tt (set_cells (<[a := v]> (cells s)) s)
                   | None => Fault (Dangling a)
                   end
  end.

Definition printf (l : line) : M unit :=
  modify (λ s, set_console (console s ++ [l]) s).

(** ** The methods of [BSTree] *)

(** [BSTree::BSTree()], on a given free store. *)
Definition BSTree_ctor (s : state) : state :=
  mkState (heap s) (cells s) (brk s) (released s) (console s) None 0 0 0.

(** [BSTree::ChangeSize] *)
Definition ChangeSize (delta : Z) : M unit :=
  sz <- get size_ ;;
  if 0 <? sz + delta then modify (set_size (sz + delta)) else ret tt.

(** The [while] loop of [BSTree::Add]; yields [candidateParent] and
    [currentDepth]. *)
Fixpoint Add_loop (fuel : nat) (node currentNode candidateParent : ptr)
    (currentDepth : Z) : M (ptr * Z) :=
  match currentNode with
  | None => ret (candidateParent, currentDepth)
  | Some _ =>
    match fuel with
    | O => timeout
    | S fuel' =>
      nk <- rd key node ;;
      ck <- rd key currentNode ;;
      if nk <? ck then
        l <- rd left currentNode ;;
        Add_loop fuel' node l currentNode (currentDepth + 1)
      else
        r <- rd right currentNode ;;
        Add_loop fuel' node r currentNode (currentDepth + 1)
    end
  end.

(** [BSTree::Add] *)
Definition Add (fuel : nat) (k : Z) (depth : ptr) : M ptr :=
  node <- new_Node k ;;
  r <- get root_ ;;
  match r with
  | None =>
    modify (set_root node) ;;;
    tot <- get nodeTot_ ;;
    modify (set_nodeTot (tot + 1)) ;;;
    write_int depth 1 ;;;
    ret node
  | Some _ =>
    found <- Add_loop fuel node r None 0 ;;
    let candidateParent := found.1 in
    let currentDepth := found.2 + 1 in
    (if depth is Some _ then write_int depth currentDepth else ret tt) ;;;
    wr (with_parent candidateParent) node ;;;
    nk <- rd key node ;;
    np <- rd parent node ;;
    pk <- rd key np ;;
    (if nk <? pk then
       np <- rd parent node ;; wr (with_left node) np
     else
       np <- rd parent node ;; wr (with_right node) np) ;;;
    wr (with_left None) node ;;;
    wr (with_right None) node ;;;
    ChangeSize 1 ;;;
    tot <- get nodeTot_ ;;
    modify (set_nodeTot (tot + 1)) ;;;
    ret node
  end.

(** [BSTree::FindRecurse] *)
Fixpoint FindRecurse (fuel : nat) (k : Z) (node : ptr) : M ptr :=
  match node with
  | None => ret None
  | Some _ =>
    match fuel with
    | O => timeout
    | S fuel' =>
      nk <- rd key node ;;
      if nk =? k then ret node
      else if k <? nk then
        l <- rd left node ;; FindRecurse fuel' k l
      else if nk <? k then
        r <- rd right node ;; FindRecurse fuel' k r
      else ret None
    end
  end.

(** [BSTree::Find] *)
Definition Find (fuel : nat) (k : Z) : M ptr :=
  r <- get root_ ;; FindRecurse fuel k r.

(** [BSTree::FindMin] *)
Fixpoint FindMin (fuel : nat) (current : ptr) : M ptr :=
  l <- rd left current ;;
  match l with
  | None => ret current
  | Some _ =>
    match fuel with
    | O => timeout
    | S fuel' => FindMin fuel' l
    end
  end.

(** The relinking of [DeleteNode]'s zero-or-one-child case:
    [node->parent]'s link to [node] is pointed at [successor], and [node] is
    deleted. *)
Definition splice (node successor : ptr) : M ptr :=
  np <- rd parent node ;;
  pl <- rd left np ;;
  (if bool_decide (pl = node) then
     np <- rd parent node ;; wr (with_left successor) np
   else
     np <- rd parent node ;;
     pr <- rd right np ;;
     if bool_decide (pr = node) then
       np <- rd parent node ;; wr (with_right successor) np
     else ret tt) ;;;
  delete_node node ;;;
  ret successor.

(** [BSTree::DeleteNode] *)
Fixpoint DeleteNode (fuel : nat) (node : ptr) (k : Z) : M ptr :=
  match node with
  | None => ret node
  | Some _ =>
    match fuel with
    | O => timeout
    | S fuel' =>
      nk <- rd key node ;;
      if k <? nk then
        l <- rd left node ;;
        l' <- DeleteNode fuel' l k ;;
        wr (with_left l') node ;;;
        ret node
      else if nk <? k then
        r <- rd right node ;;
        r' <- DeleteNode fuel' r k ;;
        wr (with_right r') node ;;;
        ret node
      else
        l <- rd left node ;;
        match l with
        | None =>
          successor <- rd right node ;;
          splice node successor
        | Some _ =>
          r <- rd right node ;;
          match r with
          | None =>
            successor <- rd left node ;;
            splice node successor
          | Some _ =>
            r <- rd right node ;;
            successor <- FindMin fuel' r ;;
            sk <- rd key successor ;;
            wr (with_key sk) node ;;;
            d <- rd data node ;;
            delete_int d ;;;
            sd <- rd data successor ;;
            wr (with_data sd) node ;;;
            wr (with_data None) successor ;;;
            r <- rd right node ;;
            sk <- rd key successor ;;
            r' <- DeleteNode fuel' r sk ;;
            wr (with_right r') node ;;;
            ret node
          end
        end
    end
  end.

(** [BSTree::DeleteKey] *)
Definition DeleteKey (fuel : nat) (k : Z) : M bool :=
  node <- Find fuel k ;;
  match node with
  | Some _ => DeleteNode fuel node k ;;; ret true
  | None => ret false
  end.

(** [BSTree::DeleteRecursive] *)
Fixpoint DeleteRecursive (fuel : nat) (node : ptr) : M unit :=
  match node with
  | None => ret tt
  | Some _ =>
    match fuel with
    | O => timeout
    | S fuel' =>
      d <- rd data node ;;
      match d with
      | None => ret tt
      | Some _ =>
        l <- rd left node ;;
        DeleteRecursive fuel' l ;;;
        r <- rd right node ;;
        DeleteRecursive fuel' r ;;;
        d <- rd data node ;;
        delete_int d ;;;
        wr (with_data None) node ;;;
        delete_node node
      end
    end
  end.

(** [BSTree::~BSTree] *)
Definition BSTree_dtor (fuel : nat) : M unit :=
  r <- get root_ ;; DeleteRecursive fuel r.

(** [BSTree::MaxDepthRecurse]; the [int] behind [max_depth] is a local of
    [MaxDepth], threaded here as a value. *)
Fixpoint MaxDepthRecurse (fuel : nat) (node : ptr) (depth max_depth : Z)
    : M Z :=
  match fuel with
  | O => timeout
  | S fuel' =>
    l <- rd left node ;;
    terminal <-
      (if l is None then r <- rd right node ;; ret (bool_decide (r = None))
       else ret false) ;;
    if (terminal : bool) then
      let max_depth := if max_depth <? depth then depth else max_depth in
      printf (DepthLine depth) ;;;
      ret max_depth
    else
      l <- rd left node ;;
      max_depth <-
        (if l is Some _ then
           l <- rd left node ;;
           MaxDepthRecurse fuel' l (depth + 1) max_depth
         else ret max_depth) ;;
      r <- rd right node ;;
      if r is Some _ then
        r <- rd right node ;;
        MaxDepthRecurse fuel' r (depth + 1) max_depth
      else ret max_depth
  end.

(** [BSTree::MaxDepth] *)
Definition MaxDepth (fuel : nat) : M Z :=
  r <- get root_ ;;
  match r with
  | Some _ => MaxDepthRecurse fuel r 0 0
  | None => ret 0
  end.

(** [BSTree::Print] below its sanity check, which only the outermost call
    can meet with [nullptr]. *)
Fixpoint Print_from (fuel : nat) (node : ptr) : M unit :=
  match fuel with
  | O => timeout
  | S fuel' =>
    an <- deref node ;;
    printf (NodeLine an.1 (key an.2) (parent an.2) (left an.2) (right an.2)) ;;;
    l <- rd left node ;;
    (if l is Some _ then Print_from fuel' l else ret tt) ;;;
    r <- rd right node ;;
    (if r is Some _ then Print_from fuel' r else ret tt)
  end.

(** [BSTree::Print] *)
Definition Print (fuel : nat) (node : ptr) : M unit :=
  match node with
  | Some _ => Print_from fuel node
  | None =>
    r <- get root_ ;;
    match r with
    | None => ret tt
    | Some _ => Print_from fuel r
    end
  end.

(** Modelled from the spec: [Size()] is declared in bstree.h, which is not
    among the sources; the spec has it report the current live node count,
    the field that [ChangeSize] maintains. *)
Definition Size (s : state) : Z := size_ s.

(** ** Trees in the free store *)

(** The tree a pointer leads to: each node with its address and key. *)
Inductive tree :=
  | Leaf
  | Br (l : tree) (a : positive) (k : Z) (r : tree).

(** [shape h p t]: following [left] and [right] from [p] in [h] draws [t]. *)
Fixpoint shape (h : gmap positive Node) (p : ptr) (t : tree) : Prop :=
  match t with
  | Leaf => p = None
  | Br l a k r =>
    p = Some a ∧
    ∃ n, h !! a = Some n ∧ key n = k ∧ shape h (left n) l ∧ shape h (right n) r
  end.

(** The same walk as a function, for running on a concrete store. *)
Fixpoint tree_of (fuel : nat) (h : gmap positive Node) (p : ptr)
    : option tree :=
  match p with
  | None => Some Leaf
  | Some a =>
    match fuel with
    | O => None
    | S fuel' =>
      n ← h !! a;
      l ← tree_of fuel' h (left n);
      r ← tree_of fuel' h (right n);
      Some (Br l a (key n) r)
    end
  end.

Fixpoint addrs (t : tree) : list positive :=
  match t with
  | Leaf => []
  | Br l a _ r => addrs l ++ a :: addrs r
  end.

(** Keys in in-order: left subtree, node, right subtree. *)
Fixpoint keys (t : tree) : list Z :=
  match t with
  | Leaf => []
  | Br l _ k r => keys l ++ k :: keys r
  end.

(** Addresses in post-order: children before their parent. *)
Fixpoint postorder (t : tree) : list positive :=
  match t with
  | Leaf => []
  | Br l a _ r => postorder l ++ postorder r ++ [a]
  end.

Fixpoint height (t : tree) : nat :=
  match t with
  | Leaf => O
  | Br l _ _ r => S (Nat.max (height l) (height r))
  end.

(** The ordering [Add] keeps whatever it is given: smaller keys to the
    left, the others to the right. *)
Fixpoint ordered (t : tree) : Prop :=
  match t with
  | Leaf => True
  | Br l _ k r =>
    Forall (λ y, y < k) (keys l) ∧ Forall (λ y, k ≤ y) (keys r) ∧
    ordered l ∧ ordered r
  end.

(** The BST ordering of the spec: strictly smaller to the left, strictly
    greater to the right. *)
Fixpoint bst (t : tree) : Prop :=
  match t with
  | Leaf => True
  | Br l _ k r =>
    Forall (λ y, y < k) (keys l) ∧ Forall (λ y, k < y) (keys r) ∧
    bst l ∧ bst r
  end.

(** Where [Add] attaches a node with key [k] at address [b]. *)
Fixpoint ins (k : Z) (b : positive) (t : tree) : tree :=
  match t with
  | Leaf => Br Leaf b k Leaf
  | Br l a x r =>
    if k <? x then Br (ins k b l) a x r else Br l a x (ins k b r)
  end.

(** The parent the descent of [Add] stops at, and how many nodes it
    passed. *)
Fixpoint attach (k : Z) (t : tree) (cand : ptr) : ptr :=
  match t with
  | Leaf => cand
  | Br l a x r => if k <? x then attach k l (Some a) else attach k r (Some a)
  end.

Fixpoint plen (k : Z) (t : tree) : nat :=
  match t with
  | Leaf => O
  | Br l _ x r => S (if k <? x then plen k l else plen k r)
  end.

(** The node the descent of [FindRecurse] ends at. *)
Fixpoint lookup_tree (k : Z) (t : tree) : ptr :=
  match t with
  | Leaf => None
  | Br l a x r =>
    if x =? k then Some a
    else if k <? x then lookup_tree k l
    else lookup_tree k r
  end.

(** A state whose root leads to [t], each node at an address of its own,
    and whose allocator is ahead of every live node. *)
Record wf (s : state) (t : tree) : Prop := mkWf {
  wf_shape : shape (heap s) (root_ s) t;
  wf_nodup : NoDup (addrs t);
  wf_brk : ∀ a, is_Some (heap s !! a) → (a < brk s)%positive
}.

(** Modelled from the spec: the in-order traversal the spec tests the
    ordering with; [bstree.cc] has only the pre-order [Print]. *)
Fixpoint InOrder (fuel : nat) (node : ptr) : M (list Z) :=
  match node with
  | None => ret []
  | Some _ =>
    match fuel with
    | O => timeout
    | S fuel' =>
      l <- rd left node ;;
      ls <- InOrder fuel' l ;;
      k <- rd key node ;;
      r <- rd right node ;;
      rs <- InOrder fuel' r ;;
      ret (ls ++ k :: rs)
    end
  end.

(** A run of [Add] over a list of keys, all reporting their depth through
    the same [depth]. *)
Fixpoint Add_all (fuel : nat) (ks : list Z) (depth : ptr) : M unit :=
  match ks with
  | [] => ret tt
  | k :: ks' => Add fuel k depth ;;; Add_all fuel ks' depth
  end.

(** ** Deletion on trees *)

(** The node [FindMin] ends at, starting from the node at [a] with key [k]
    and left subtree [l]: its address and key. *)
Fixpoint leftmost (l : tree) (a : positive) (k : Z) : positive * Z :=
  match l with
  | Leaf => (a, k)
  | Br ll la lk _ => leftmost ll la lk
  end.

(** What [DeleteNode] makes of a tree: the descent by key, the splice of a
    node with at most one child, and for two children the key of the
    leftmost node of the right subtree moved up and that key deleted
    below. *)
Fixpoint del (k : Z) (t : tree) : tree :=
  match t with
  | Leaf => Leaf
  | Br l a x r =>
    if k <? x then Br (del k l) a x r
    else if x <? k then Br l a x (del k r)
    else
      match l, r with
      | Leaf, _ => r
      | Br _ _ _ _, Leaf => l
      | Br _ _ _ _, Br rl ra rx _ =>
        let mk := (leftmost rl ra rx).2 in
        Br l a mk (del mk r)
      end
  end.

(** The link of a parent [n] to its child [a], pointed at [p]. *)
Definition relink (a : positive) (p : ptr) (n : Node) : Node :=
  if bool_decide (left n = Some a) then with_left p n
  else if bool_decide (right n = Some a) then with_right p n
  else n.

(** The parent pointer of the root of [t] is [up], or dangles: it names an
    address that was handed out and is no longer live. *)
Definition up_ok (h : gmap positive Node) (b : positive) (up : ptr)
    (t : tree) : Prop :=
  match t with
  | Leaf => True
  | Br _ a _ _ =>
    ∃ n, h !! a = Some n ∧
         (parent n = up ∨
          ∃ q, parent n = Some q ∧ h !! q = None ∧ (q < b)%positive)
  end.

(** Every node below the root of [t] has its parent pointer at its parent,
    or dangling. *)
Fixpoint parents (h : gmap positive Node) (b : positive) (t : tree)
    : Prop :=
  match t with
  | Leaf => True
  | Br l a _ r =>
    up_ok h b (Some a) l ∧ up_ok h b (Some a) r ∧
    parents h b l ∧ parents h b r
  end.

(** [o] is not a timeout, and if it is a result, [P] holds of it. *)
Definition unless_fault {A} (o : outcome A) (P : A → state → Prop) : Prop :=
  match o with
  | Ok a s => P a s
  | Fault _ => True
  | Timeout => False
  end.

(** What [DeleteNode] at the node [a], holding [n] and heading the subtree
    [t], relies on. *)
Definition DeleteNode_pre (b : positive) (s : state) (a : positive) (n : Node)
    (t : tree) : Prop :=
  shape (heap s) (Some a) t ∧ NoDup (addrs t) ∧ parents (heap s) b t ∧
  (∀ y, y ∈ addrs t → (y < b)%positive) ∧
  heap s !! a = Some n ∧
  (∀ q, parent n = Some q → q ∉ addrs t).

(** What [DeleteNode] at [a] leaves when it returns [p]: the tree [t'] at
    [p]; the nodes that left the tree released; the rest of the store as it
    was, except that when [a] itself is gone the parent of [a] had its link
    to [a] pointed at [p]. *)
Definition DeleteNode_post (b : positive) (s : state) (a : positive) (n : Node)
    (t t' : tree) (p : ptr) (s' : state) : Prop :=
  shape (heap s') p t' ∧
  parents (heap s') b t' ∧
  (∀ y, y ∈ addrs t → y ∉ addrs t' → heap s' !! y = None) ∧
  (∀ y, y ∉ addrs t → p = Some a ∨ parent n ≠ Some y →
        heap s' !! y = heap s !! y) ∧
  (p = Some a ∨
   (heap s' !! a = None ∧ up_ok (heap s') b (Some a) t' ∧
    ∃ q nq, parent n = Some q ∧ heap s !! q = Some nq ∧
            heap s' !! q = Some (relink a p nq))).

(** [DeleteNode] with budget [fuel] meets this contract. *)
Definition DeleteNode_ok (fuel : nat) (b : positive) : Prop :=
  ∀ k a t s n,
    DeleteNode_pre b s a n t → (height t ≤ fuel)%nat →
    unless_fault (DeleteNode fuel (Some a) k s)
                 (DeleteNode_post b s a n t (del k t)).

(** The state of a tree between two calls: [wf], and parent pointers that
    are right or dangle. *)
Record inv (s : state) (t : tree) : Prop := mkInv {
  inv_wf : wf s t;
  inv_parents : parents (heap s) (brk s) t;
  inv_root : up_ok (heap s) (brk s) None t
}.

(** ** Runs of calls *)

(** One call of the test driver. *)
Inductive op :=
  | Insert (k : Z)
  | Delete (k : Z).

(** A run of calls, every [Add] reporting its depth through [depth]. *)
Fixpoint run (fuel : nat) (ops : list op) (depth : ptr) : M unit :=
  match ops with
  | [] => ret tt
  | Insert k :: ops' => Add fuel k depth ;;; run fuel ops' depth
  | Delete k :: ops' => DeleteKey fuel k ;;; run fuel ops' depth
  end.

(** The tree after the run, when [b] is the next address [new] hands out. *)
Fixpoint tree_after (ops : list op) (b : positive) (t : tree) : tree :=
  match ops with
  | [] => t
  | Insert k :: ops' => tree_after ops' (Pos.succ b) (ins k b t)
  | Delete k :: ops' => tree_after ops' b (del k t)
  end.

(** [l] without the first [k] in it. *)
Fixpoint remove_one (k : Z) (l : list Z) : list Z :=
  match l with
  | [] => []
  | x :: l' => if decide (x = k) then l' else x :: remove_one k l'
  end.

(** The keys inserted and not yet deleted. *)
Fixpoint live_keys (ops : list op) (ks : list Z) : list Z :=
  match ops with
  | [] => ks
  | Insert k :: ops' => live_keys ops' (k :: ks)
  | Delete k :: ops' => live_keys ops' (remove_one k ks)
  end.

(** ** Concrete stores *)

(** A fresh free store holding one [int], at address 1, for [Add] to report
    depths through, and a [BSTree] just constructed on it. *)
Definition empty_tree : state :=
  BSTree_ctor (mkState ∅ {[ 1%positive := 0 ]} 1%positive [] [] None 0 0 0).

(** The state a computation ends in; the starting state if it does not
    end. *)
Definition exec {A} (m : M A) (s : state) : state :=
  match m s with
  | Ok _ s' => s'
  | _ => s
  end.

(** The tree after [Add] of each key in turn. *)
Definition tree_with (ks : list Z) : state :=
  exec (Add_all (length ks) ks (Some 1%positive)) empty_tree.


(** The payload addresses of the nodes of [t], in in-order. *)
Fixpoint datas (h : gmap positive Node) (t : tree) : list positive :=
  match t with
  | Leaf => []
  | Br l a _ r =>
    datas h l ++ from_option (λ d, [d]) [] (h !! a ≫= data) ++ datas h r
  end.

(** Every node of [t] has a payload, and it is live. *)
Fixpoint owned (h : gmap positive Node) (cs : gmap positive Z) (t : tree)
    : Prop :=
  match t with
  | Leaf => True
  | Br l a _ r =>
    (∃ n d, h !! a = Some n ∧ data n = Some d ∧ is_Some (cs !! d)) ∧
    owned h cs l ∧ owned h cs r
  end.

(** [m] leaves the fields of the [BSTree] object other than the free store
    as they were, creates no node, and writes no parent pointer. *)
Definition keeps {A} (m : M A) : Prop :=
  ∀ s a s', m s = Ok a s' →
    root_ s' = root_ s ∧ size_ s' = size_ s ∧ nodeTot_ s' = nodeTot_ s ∧
    brk s' = brk s ∧
    ∀ y n', heap s' !! y = Some n' →
            ∃ n, heap s !! y = Some n ∧ parent n' = parent n.

(** ** Traversals and the scenario tree *)

(** The depth of every leaf of [t], left to right, the root of [t] being at
    depth [d]. *)
Fixpoint leaf_depths (t : tree) (d : Z) : list Z :=
  match t with
  | Leaf => []
  | Br Leaf _ _ Leaf => [d]
  | Br l _ _ r => leaf_depths l (d + 1) ++ leaf_depths r (d + 1)
  end.

(** The lines [Print] writes for [t]: each node before its subtrees, left
    before right. *)
Fixpoint node_lines (h : gmap positive Node) (t : tree) : list line :=
  match t with
  | Leaf => []
  | Br l a _ r =>
    from_option
      (λ n, [NodeLine a (key n) (parent n) (left n) (right n)]) [] (h !! a)
    ++ node_lines h l ++ node_lines h r
  end.

(** Addresses in pre-order. *)
Fixpoint preorder (t : tree) : list positive :=
  match t with
  | Leaf => []
  | Br l a _ r => a :: preorder l ++ preorder r
  end.

Definition line_addr (l : line) : option positive :=
  match l with
  | NodeLine a _ _ _ _ => Some a
  | DepthLine _ => None
  end.

(** The tree of the scenario of the spec: 5, 3, 8, 1, 4, 7, 9 added in this
    order to an empty tree, each node at the address [new] gave it. *)
Definition scenario : list Z := [5; 3; 8; 1; 4; 7; 9].
Definition scenario_tree : tree :=
  Br (Br (Br Leaf 4 1 Leaf) 2 3 (Br Leaf 5 4 Leaf)) 1 5
     (Br (Br Leaf 6 7 Leaf) 3 8 (Br Leaf 7 9 Leaf)).

(** ** Chains *)

(** A tree in which no node has a left child. *)
Fixpoint right_chain (t : tree) : Prop :=
  match t with
  | Leaf => True
  | Br l _ _ r => l = Leaf ∧ right_chain r
  end.

(** ** Exact parent pointers *)

(** Parent pointers as [Add] leaves them: every node of [t] names its parent
    in the tree, the root of [t] names [up], and no node has a payload. *)
Fixpoint exact (h : gmap positive Node) (up : ptr) (t : tree) : Prop :=
  match t with
  | Leaf => True
  | Br l a _ r =>
    (∃ n, h !! a = Some n ∧ parent n = up ∧ data n = None) ∧
    exact h (Some a) l ∧ exact h (Some a) r
  end.

(** [DeleteNode] for [k] at the root of [t] takes the root itself out of
    the tree: it holds [k] and has at most one child. *)
Definition splices_root (k : Z) (t : tree) : Prop :=
  match t with
  | Leaf => False
  | Br l _ x r => x = k ∧ (l = Leaf ∨ r = Leaf)
  end.

(** ** A store with payloads *)

(** A store in which a client has given every node of the tree 5, 3, 8 a
    payload of its own. *)
Definition payload_store : state :=
  mkState
    {[ 1%positive := mkNode 5 (Some 11%positive) (Some 2%positive)
                       (Some 3%positive) None;
       2%positive := mkNode 3 (Some 12%positive) None None (Some 1%positive);
       3%positive := mkNode 8 (Some 13%positive) None None (Some 1%positive) ]}
    {[ 11%positive := 50; 12%positive := 30; 13%positive := 80 ]}
    4%positive [] [] (Some 1%positive) 2 0 3.

(** ** The data set of the test driver *)

(** How a loop of [treebench.cc] ends: with a value, with a write outside
    the array, or not within the budget of steps. *)
Inductive result (A : Type) :=
  | Done (a : A)
  | OutOfBounds
  | OutOfFuel.
Arguments Done {A} a.
Arguments OutOfBounds {A}.
Arguments OutOfFuel {A}.

(** The [do ... while] of [CreateUniqueDataSet]: call [rand] until
    [rand() % size] is not a key of [occupancy].  [rand] gives the value of
    each call of [rand()], [calls] counts the calls made so far; the result
    is the value found and the new count.  [S_T] is declared in common.h,
    which is not among the sources: values are integers as the keys of
    [Node] are, and [size] is taken to fit [S_T]. *)
Fixpoint CreateUniqueDataSet_draw (fuel : nat) (rand : nat → Z) (calls : nat)
    (size : nat) (occupancy : gmap Z Z) : option (Z * nat) :=
  match fuel with
  | O => None
  | S fuel' =>
    let value := Z.rem (rand calls) (Z.of_nat size) in
    if decide (is_Some (occupancy !! value)) then
      CreateUniqueDataSet_draw fuel' rand (S calls) size occupancy
    else Some (value, S calls)
  end.

(** The [while (index < size)] of [CreateUniqueDataSet]. *)
Fixpoint CreateUniqueDataSet_loop (fuel : nat) (rand : nat → Z) (calls : nat)
    (size index : nat) (occupancy : gmap Z Z) (array : list Z)
    : result (list Z) :=
  if (index <? size)%nat then
    match fuel with
    | O => OutOfFuel
    | S fuel' =>
      match CreateUniqueDataSet_draw fuel rand calls size occupancy with
      | None => OutOfFuel
      | Some (value, calls') =>
        if (index <? length array)%nat then
          CreateUniqueDataSet_loop fuel' rand calls' size (S index)
            (<[value := 1]> occupancy) (<[index := value]> array)
        else OutOfBounds
      end
    end
  else Done array.

(** [CreateUniqueDataSet] of treebench.cc; the array it returns is the one
    it was given. *)
Definition CreateUniqueDataSet (fuel : nat) (rand : nat → Z)
    (array : list Z) (size : nat) : result (list Z) :=
  CreateUniqueDataSet_loop fuel rand 0 size 0 ∅ array.

(** ** Reasoning about the monad *)

Lemma bind_Ok {A B} (m : M A) (k : A → M B) s a s' :
  m s = Ok a s' → bind m k s = k a s'.
Proof. unfold bind. by intros ->. Qed.

Lemma bind_inv {A B} (m : M A) (k : A → M B) s b s'' :
  bind m k s = Ok b s'' → ∃ a s', m s = Ok a s' ∧ k a s' = Ok b s''.
Proof. unfold bind. destruct (m s) as [a s'| |]; [eauto | done | done]. Qed.

Lemma rd_Ok {A} (f : Node → A) a n s :
  heap s !! a = Some n → rd f (Some a) s = Ok (f n) s.
Proof. intros H. unfold rd, bind, deref. by rewrite H. Qed.

Lemma wr_Ok upd a n s :
  heap s !! a = Some n →
  wr upd (Some a) s = Ok tt (set_heap (<[a := upd n]> (heap s)) s).
Proof. intros H. unfold wr, bind, deref. by rewrite H. Qed.


(** ** The shape predicate *)

Lemma shape_null h t : shape h None t → t = Leaf.
Proof. destruct t as [|l a k r]; [done | by intros [? _]]. Qed.

Lemma shape_live h p t a : shape h p t → a ∈ addrs t → is_Some (h !! a).
Proof.
  revert p. induction t as [|l IHl b k r IHr]; simpl; intros p Hs Ha.
  - by apply elem_of_nil in Ha.
  - destruct Hs as (_ & n & Hn & _ & Hl & Hr).
    apply elem_of_app in Ha as [Ha | Ha]; [by eapply IHl |].
    apply elem_of_cons in Ha as [-> | Ha]; [by eexists | by eapply IHr].
Qed.

(** Only the nodes of [t] matter to [shape h p t]. *)
Lemma shape_ext h h' p t :
  (∀ a, a ∈ addrs t → h' !! a = h !! a) → shape h p t → shape h' p t.
Proof.
  revert p. induction t as [|l IHl b k r IHr]; simpl; intros p He Hs; [done |].
  destruct Hs as (-> & n & Hn & Hk & Hl & Hr). split; [done |].
  exists n. split; [| split; [done | split]].
  - rewrite He; [done |]. apply elem_of_app. right. apply elem_of_cons. by left.
  - apply IHl; [| done]. intros a Ha. apply He, elem_of_app. by left.
  - apply IHr; [| done]. intros a Ha. apply He, elem_of_app. right.
    apply elem_of_cons. by right.
Qed.

Lemma shape_functional h p t t' : shape h p t → shape h p t' → t = t'.
Proof.
  revert p t'. induction t as [|l IHl a k r IHr]; intros p t' H H'.
  - simpl in H. subst p. symmetry. by eapply shape_null.
  - destruct H as (-> & n & Hn & Hk & Hl & Hr).
    destruct t' as [|l' a' k' r']; [done |].
    destruct H' as (Ha & n' & Hn' & Hk' & Hl' & Hr').
    injection Ha as <-. rewrite Hn in Hn'. injection Hn' as <-.
    f_equal; [by eapply IHl | congruence | by eapply IHr].
Qed.

Lemma tree_of_shape h p t fuel :
  shape h p t → (height t ≤ fuel)%nat → tree_of fuel h p = Some t.
Proof.
  revert p t. induction fuel as [|fuel IH]; intros p t Hs Hf.
  - destruct t; simpl in *; [by subst | lia].
  - destruct t as [|l a k r]; simpl in *; [by subst |].
    destruct Hs as (-> & n & Hn & Hk & Hl & Hr). simpl. rewrite Hn. simpl.
    apply Nat.succ_le_mono in Hf.
    rewrite (IH _ l Hl) by lia. simpl.
    rewrite (IH _ r Hr) by lia. simpl. by rewrite Hk.
Qed.

Lemma shape_tree_of h p t fuel : tree_of fuel h p = Some t → shape h p t.
Proof.
  revert p t. induction fuel as [|fuel IH]; intros p t; destruct p as [a|];
    simpl; intros Ht; try discriminate; try (by injection Ht as <-).
  revert Ht. destruct (h !! a) as [n|] eqn:Hn; simpl; [| done].
  destruct (tree_of fuel h (left n)) as [l|] eqn:Hl; simpl; [| done].
  destruct (tree_of fuel h (right n)) as [r|] eqn:Hr; simpl; [| done].
  intros [= <-]. simpl. split; [done |]. exists n.
  split; [done | split; [done | split; by apply IH]].
Qed.

Lemma height_le_length t : (height t ≤ length (addrs t))%nat.
Proof.
  induction t as [|l IHl a k r IHr]; simpl; [lia |].
  rewrite length_app. simpl. lia.
Qed.

Lemma length_keys t : length (keys t) = length (addrs t).
Proof.
  induction t as [|l IHl a k r IHr]; simpl; [done |].
  rewrite !length_app. simpl. lia.
Qed.

(** ** Find *)

Lemma FindRecurse_shape fuel k p t s :
  shape (heap s) p t → (height t ≤ fuel)%nat →
  FindRecurse fuel k p s = Ok (lookup_tree k t) s.
Proof.
  revert p t. induction fuel as [|fuel IH]; intros p t Hs Hf.
  - destruct t; simpl in *; [by subst | lia].
  - destruct t as [|l a x r]; simpl in *; [by subst |].
    destruct Hs as (-> & n & Hn & Hk & Hl & Hr). simpl.
    rewrite (bind_Ok _ _ _ _ _ (rd_Ok key _ _ _ Hn)), Hk.
    destruct (Z.eqb x k) eqn:E1; [done |].
    destruct (k <? x) eqn:E2.
    + rewrite (bind_Ok _ _ _ _ _ (rd_Ok left _ _ _ Hn)).
      apply IH; [done | lia].
    + assert ((x <? k) = true) as -> by lia.
      rewrite (bind_Ok _ _ _ _ _ (rd_Ok right _ _ _ Hn)).
      apply IH; [done | lia].
Qed.

Lemma lookup_tree_absent k t : k ∉ keys t → lookup_tree k t = None.
Proof.
  induction t as [|l IHl a x r IHr]; simpl; intros Hk; [done |].
  rewrite elem_of_app, elem_of_cons in Hk.
  destruct (Z.eqb x k) eqn:E1; [exfalso; apply Hk; right; left; lia |].
  destruct (k <? x); [apply IHl | apply IHr]; tauto.
Qed.

(** The node a descent ends at holds the key looked for. *)
Lemma lookup_tree_key h p k t a :
  shape h p t → lookup_tree k t = Some a →
  a ∈ addrs t ∧ ∃ n, h !! a = Some n ∧ key n = k.
Proof.
  revert p. induction t as [|l IHl b x r IHr]; simpl; intros p Hs Hl; [done |].
  destruct Hs as (-> & n & Hn & Hk & Hsl & Hsr).
  rewrite elem_of_app, elem_of_cons.
  destruct (Z.eqb x k) eqn:E1.
  - injection Hl as <-. split; [tauto |]. exists n. split; [done | lia].
  - destruct (k <? x).
    + destruct (IHl _ Hsl Hl). tauto.
    + destruct (IHr _ Hsr Hl). tauto.
Qed.

Lemma lookup_tree_present k t :
  ordered t → k ∈ keys t → is_Some (lookup_tree k t).
Proof.
  induction t as [|l IHl a x r IHr]; simpl; intros Ho Hk.
  - by apply elem_of_nil in Hk.
  - destruct Ho as (Hlt & Hge & Hol & Hor).
    rewrite Forall_forall in Hlt, Hge.
    destruct (Z.eqb x k) eqn:E1; [by eexists |].
    apply elem_of_app in Hk as [Hk | Hk].
    + specialize (Hlt _ Hk). simpl in Hlt.
      assert ((k <? x) = true) as -> by lia. by apply IHl.
    + apply elem_of_cons in Hk as [-> | Hk]; [lia |].
      specialize (Hge _ Hk). simpl in Hge.
      assert ((k <? x) = false) as -> by lia. by apply IHr.
Qed.

Lemma bst_ordered t : bst t → ordered t.
Proof.
  induction t as [|l IHl a x r IHr]; simpl; [done |].
  intros (Hlt & Hgt & Hl & Hr). repeat split; [done | | by apply IHl | by apply IHr].
  eapply Forall_impl; [exact Hgt |]. simpl. intros. lia.
Qed.

(** ** Add *)

Lemma Add_loop_shape fuel b nb k p t cand d s :
  heap s !! b = Some nb → key nb = k →
  shape (heap s) p t → (height t ≤ fuel)%nat →
  Add_loop fuel (Some b) p cand d s
  = Ok (attach k t cand, d + Z.of_nat (plen k t)) s.
Proof.
  intros Hb Hkb. revert p t cand d.
  induction fuel as [|fuel IH]; intros p t cand d Hs Hf.
  - destruct t; simpl in *; [subst; unfold ret; do 2 f_equal; lia | lia].
  - destruct t as [|l a x r]; simpl in Hs.
    + subst p. simpl. unfold ret. do 2 f_equal. lia.
    + destruct Hs as (-> & n & Hn & Hk & Hl & Hr).
      simpl in Hf. apply Nat.succ_le_mono in Hf.
      cbn [Add_loop attach plen].
      rewrite (bind_Ok _ _ _ _ _ (rd_Ok key _ _ _ Hb)).
      rewrite (bind_Ok _ _ _ _ _ (rd_Ok key _ _ _ Hn)).
      rewrite Hkb, Hk.
      destruct (k <? x).
      * rewrite (bind_Ok _ _ _ _ _ (rd_Ok left _ _ _ Hn)).
        rewrite (IH _ l) by (done || lia). do 2 f_equal. lia.
      * rewrite (bind_Ok _ _ _ _ _ (rd_Ok right _ _ _ Hn)).
        rewrite (IH _ r) by (done || lia). do 2 f_equal. lia.
Qed.

Lemma attach_elem k t a0 c :
  attach k t (Some a0) = Some c → c = a0 ∨ c ∈ addrs t.
Proof.
  revert a0. induction t as [|l IHl a x r IHr]; simpl; intros a0 H.
  - left. congruence.
  - right. rewrite elem_of_app, elem_of_cons.
    destruct (k <? x); [apply IHl in H | apply IHr in H]; tauto.
Qed.

Lemma attach_Some k t a0 : is_Some (attach k t (Some a0)).
Proof.
  revert a0. induction t as [|l IHl a x r IHr]; simpl; intros a0; [by eexists |].
  destruct (k <? x); [apply IHl | apply IHr].
Qed.

Lemma attach_Br k l a x r cand :
  ∃ c, attach k (Br l a x r) cand = Some c ∧ c ∈ addrs (Br l a x r).
Proof.
  simpl. destruct (k <? x).
  - destruct (attach_Some k l a) as [c Hc]. exists c. split; [done |].
    apply attach_elem in Hc. rewrite elem_of_app, elem_of_cons. tauto.
  - destruct (attach_Some k r a) as [c Hc]. exists c. split; [done |].
    apply attach_elem in Hc. rewrite elem_of_app, elem_of_cons. tauto.
Qed.

Lemma shape_ins h h2 p t cand k b c nc nb :
  shape h p t → NoDup (addrs t) → b ∉ addrs t → t ≠ Leaf →
  attach k t cand = Some c → h !! c = Some nc →
  h2 !! b = Some nb → key nb = k → left nb = None → right nb = None →
  h2 !! c = Some (if k <? key nc then with_left (Some b) nc
                  else with_right (Some b) nc) →
  (∀ y, y ≠ b → y ≠ c → h2 !! y = h !! y) →
  shape h2 p (ins k b t).
Proof.
  intros Hs Hnd Hb Hne Hat Hc Hnb Hkb Hlb Hrb Hc2 Hfr.
  assert (Hleaf : shape h2 (Some b) (Br Leaf b k Leaf)).
  { simpl. split; [done |]. by exists nb. }
  revert p cand Hs Hnd Hb Hne Hat.
  induction t as [|l IHl a x r IHr]; intros p cand Hs Hnd Hb Hne Hat; [done |].
  destruct Hs as (-> & n & Hn & Hk & Hl & Hr).
  simpl in Hnd, Hb, Hat.
  apply NoDup_app in Hnd as (Hndl & Hlr & Hndr).
  apply NoDup_cons in Hndr as (Har & Hndr).
  rewrite elem_of_app, elem_of_cons in Hb.
  assert (Hal : a ∉ addrs l).
  { intros Hin. apply (Hlr _ Hin). by left. }
  simpl. destruct (k <? x) eqn:Ekx.
  - (* to the left *)
    destruct l as [|ll la lx lr] eqn:El.
    + simpl in Hat. injection Hat as <-.
      rewrite Hn in Hc. injection Hc as <-.
      rewrite Hk, Ekx in Hc2.
      split; [done |]. eexists. split; [exact Hc2 |]. simpl.
      split; [done |]. split; [split; [done |]; by exists nb |].
      eapply shape_ext; [| exact Hr]. intros y Hy. apply Hfr.
      * intros ->. tauto.
      * by intros ->.
    + rewrite <- El in *. assert (Hne' : l ≠ Leaf) by (by subst l).
      assert (Hcl : c ∈ addrs l).
      { subst l. destruct (attach_Br k ll la lx lr (Some a)) as (c' & Hc' & Hin).
        congruence. }
      split; [done |]. exists n. rewrite Hfr by (intros ->; tauto).
      split; [done |]. split; [done |]. split.
      * eapply IHl; try done. tauto.
      * eapply shape_ext; [| exact Hr]. intros y Hy. apply Hfr.
        -- intros ->. tauto.
        -- intros ->. apply (Hlr _ Hcl). by right.
  - (* to the right *)
    destruct r as [|rl ra rx rr] eqn:Er.
    + simpl in Hat. injection Hat as <-.
      rewrite Hn in Hc. injection Hc as <-.
      rewrite Hk, Ekx in Hc2.
      split; [done |]. eexists. split; [exact Hc2 |]. simpl.
      split; [done |]. split; [| split; [done |]; by exists nb].
      eapply shape_ext; [| exact Hl]. intros y Hy. apply Hfr.
      * intros ->. tauto.
      * by intros ->.
    + rewrite <- Er in *. assert (Hne' : r ≠ Leaf) by (by subst r).
      assert (Hcr : c ∈ addrs r).
      { subst r. destruct (attach_Br k rl ra rx rr (Some a)) as (c' & Hc' & Hin).
        congruence. }
      split; [done |]. exists n. rewrite Hfr by (intros ->; tauto).
      split; [done |]. split; [done |]. split.
      * eapply shape_ext; [| exact Hl]. intros y Hy. apply Hfr.
        -- intros ->. tauto.
        -- intros ->. apply (Hlr _ Hy). by right.
      * eapply IHr; try done. tauto.
Qed.

Lemma addrs_ins k b t : addrs (ins k b t) ≡ₚ b :: addrs t.
Proof.
  induction t as [|l IHl a x r IHr]; simpl; [done |].
  destruct (k <? x); simpl.
  - by rewrite IHl.
  - rewrite IHr. etrans; [| symmetry; apply Permutation_middle].
    apply Permutation_app_head, perm_swap.
Qed.

Lemma keys_ins k b t : keys (ins k b t) ≡ₚ k :: keys t.
Proof.
  induction t as [|l IHl a x r IHr]; simpl; [done |].
  destruct (k <? x); simpl.
  - by rewrite IHl.
  - rewrite IHr. etrans; [| symmetry; apply Permutation_middle].
    apply Permutation_app_head, perm_swap.
Qed.

Lemma height_ins k b t : (height (ins k b t) ≤ S (height t))%nat.
Proof.
  induction t as [|l IHl a x r IHr]; simpl; [lia |].
  destruct (k <? x); simpl; lia.
Qed.

Lemma ordered_ins k b t : ordered t → ordered (ins k b t).
Proof.
  induction t as [|l IHl a x r IHr]; simpl; [by repeat constructor |].
  intros (Hlt & Hge & Hl & Hr). destruct (k <? x) eqn:E; simpl.
  - repeat split; [| done | by apply IHl | done].
    rewrite keys_ins. constructor; [lia | done].
  - repeat split; [done | | done | by apply IHr].
    rewrite keys_ins. constructor; [lia | done].
Qed.

Lemma bst_ins k b t : bst t → k ∉ keys t → bst (ins k b t).
Proof.
  induction t as [|l IHl a x r IHr]; simpl; [by repeat constructor |].
  intros (Hlt & Hgt & Hl & Hr) Hk. rewrite elem_of_app, elem_of_cons in Hk.
  destruct (k <? x) eqn:E; simpl.
  - repeat split; [| done | apply IHl; tauto | done].
    rewrite keys_ins. constructor; [lia | done].
  - repeat split; [done | | done | apply IHr; tauto].
    rewrite keys_ins. constructor; [| done].
    assert (k ≠ x) by tauto. lia.
Qed.

Lemma Add_nonempty fuel k depth s t :
  wf s t → t ≠ Leaf → (height t ≤ fuel)%nat →
  match depth with Some c => is_Some (cells s !! c) | None => True end →
  ∃ s', Add fuel k depth s = Ok (Some (brk s)) s' ∧
        wf s' (ins k (brk s) t) ∧
        size_ s' = (if 0 <? size_ s + 1 then size_ s + 1 else size_ s) ∧
        nodeTot_ s' = nodeTot_ s + 1 ∧
        cells s' = match depth with
                   | Some c => <[c := Z.of_nat (plen k t) + 1]> (cells s)
                   | None => cells s
                   end ∧
        brk s' = Pos.succ (brk s) ∧
        released s' = released s ∧ console s' = console s ∧
        ∃ c nc,
          attach k t None = Some c ∧ heap s !! c = Some nc ∧
          heap s' !! brk s = Some (mkNode k None None None (Some c)) ∧
          heap s' !! c
          = Some (if k <? key nc then with_left (Some (brk s)) nc
                  else with_right (Some (brk s)) nc) ∧
          ∀ y, y ≠ brk s → y ≠ c → heap s' !! y = heap s !! y.
Proof.
  intros [Hs Hnd Hbrk] Hne Hf Hd.
  destruct t as [|l a x r]; [done |]. clear Hne.
  pose proof Hs as (Hroot & n & Hn & _).
  set (b := brk s).
  assert (Hfresh : heap s !! b = None).
  { destruct (heap s !! b) eqn:E; [| done].
    assert (b < b)%positive by (apply Hbrk; by eexists). lia. }
  assert (Hb : b ∉ addrs (Br l a x r)).
  { intros Hin. eapply shape_live in Hin; [| exact Hs].
    rewrite Hfresh in Hin. by destruct Hin. }
  destruct (attach_Br k l a x r None) as (c & Hat & Hc).
  pose proof (shape_live _ _ _ _ Hs Hc) as [nc Hnc].
  assert (Hcb : c ≠ b) by (by intros ->).
  unfold Add.
  unfold new_Node at 1. unfold bind at 1. fold b.
  unfold bind at 1, get at 1. cbn [root_ set_brk set_heap heap].
  rewrite Hroot.
  set (s1 := set_brk _ _).
  assert (Hs1 : shape (heap s1) (Some a) (Br l a x r)).
  { eapply shape_ext; [| rewrite <- Hroot; exact Hs]. intros y Hy. subst s1. simpl.
    apply lookup_insert_ne. by intros ->. }
  assert (Hb1 : heap s1 !! b = Some (Node_ctor k)) by apply lookup_insert_eq.
  rewrite (bind_Ok _ _ _ _ _ (Add_loop_shape fuel b _ k _ _ None 0 s1 Hb1 eq_refl Hs1 Hf)).
  cbn [fst snd]. rewrite Hat.
  set (d := 0 + Z.of_nat (plen k (Br l a x r)) + 1).
  set (cs := match depth with
             | Some c0 => <[c0 := Z.of_nat (plen k (Br l a x r)) + 1]> (cells s)
             | None => cells s
             end).
  assert (Hw : (if depth is Some _ then write_int depth d else ret tt) s1
               = Ok tt (set_cells cs s1)).
  { subst cs d. destruct depth as [cd|]; simpl.
    - destruct Hd as [v Hv]. by rewrite Hv.
    - unfold ret. f_equal. }
  rewrite (bind_Ok _ _ _ _ _ Hw). clear Hw.
  set (s2 := set_cells cs s1).
  assert (Hb2 : heap s2 !! b = Some (Node_ctor k)) by exact Hb1.
  rewrite (bind_Ok _ _ _ _ _ (wr_Ok _ _ _ _ Hb2)).
  set (nb1 := with_parent (Some c) (Node_ctor k)).
  set (s3 := set_heap _ s2).
  assert (Hb3 : heap s3 !! b = Some nb1) by apply lookup_insert_eq.
  assert (Hc3 : heap s3 !! c = Some nc).
  { subst s3 s2 s1. simpl. by rewrite !lookup_insert_ne. }
  rewrite (bind_Ok _ _ _ _ _ (rd_Ok key _ _ _ Hb3)).
  rewrite (bind_Ok _ _ _ _ _ (rd_Ok parent _ _ _ Hb3)).
  cbn [parent nb1 with_parent key Node_ctor].
  rewrite (bind_Ok _ _ _ _ _ (rd_Ok key _ _ _ Hc3)).
  set (nc' := if k <? key nc then with_left (Some b) nc
              else with_right (Some b) nc).
  assert (Hlink : (if k <? key nc
                   then np0 <- rd parent (Some b);; wr (with_left (Some b)) np0
                   else np0 <- rd parent (Some b);; wr (with_right (Some b)) np0)
                  s3 = Ok tt (set_heap (<[c := nc']> (heap s3)) s3)).
  { subst nc'. destruct (k <? key nc);
      rewrite (bind_Ok _ _ _ _ _ (rd_Ok parent _ _ _ Hb3));
      cbn [parent nb1 with_parent]; by rewrite (wr_Ok _ _ _ _ Hc3). }
  rewrite (bind_Ok _ _ _ _ _ Hlink). clear Hlink.
  set (s4 := set_heap _ s3).
  assert (Hb4 : heap s4 !! b = Some nb1).
  { subst s4. simpl. by rewrite lookup_insert_ne. }
  rewrite (bind_Ok _ _ _ _ _ (wr_Ok _ _ _ _ Hb4)).
  set (s5 := set_heap _ s4).
  assert (Hb5 : heap s5 !! b = Some (with_left None nb1)) by apply lookup_insert_eq.
  rewrite (bind_Ok _ _ _ _ _ (wr_Ok _ _ _ _ Hb5)).
  set (s6 := set_heap _ s5).
  unfold ChangeSize, bind, get, modify, ret.
  change (size_ s6) with (size_ s). change (nodeTot_ s6) with (nodeTot_ s).
  set (nb := with_right None (with_left None nb1)) in *.
  assert (Hb6 : heap s6 !! b = Some nb) by apply lookup_insert_eq.
  assert (Hc6 : heap s6 !! c = Some nc').
  { subst s6 s5 s4. simpl. rewrite !lookup_insert_ne by done.
    apply lookup_insert_eq. }
  assert (Hfr6 : ∀ y, y ≠ b → y ≠ c → heap s6 !! y = heap s !! y).
  { intros y Hyb Hyc. subst s6 s5 s4 s3 s2 s1. simpl.
    by rewrite !lookup_insert_ne. }
  assert (Hshape : shape (heap s6) (Some a) (ins k b (Br l a x r))).
  { eapply (shape_ins (heap s) (heap s6) _ _ None k b c nc nb); try done.
    by rewrite <- Hroot. }
  assert (Hnd6 : NoDup (addrs (ins k b (Br l a x r)))).
  { rewrite addrs_ins. by apply NoDup_cons. }
  assert (Hbrk6 : ∀ y, is_Some (heap s6 !! y) → (y < Pos.succ b)%positive).
  { intros y Hy. destruct (decide (y = b)) as [-> | Hyb]; [lia |].
    destruct (decide (y = c)) as [-> | Hyc].
    - assert (c < b)%positive by (apply Hbrk; by eexists). lia.
    - rewrite Hfr6 in Hy by done. apply Hbrk in Hy. fold b in Hy. lia. }
  assert (Hwf : ∀ s', heap s' = heap s6 → root_ s' = root_ s →
                brk s' = Pos.succ b → wf s' (ins k b (Br l a x r))).
  { intros s' E1 E2 E3. constructor; rewrite ?E1, ?E2, ?E3, ?Hroot; done. }
  destruct (0 <? size_ s + 1); eexists; (split; [reflexivity |]);
    (split; [by apply Hwf |]); split_and!; try done;
    by exists c, nc.
Qed.

Lemma Add_empty_null fuel k s :
  root_ s = None → Add fuel k None s = Fault NullDeref.
Proof. intros Hroot. unfold Add, bind, new_Node, get. simpl. by rewrite Hroot. Qed.

Lemma Add_empty fuel k c s :
  root_ s = None → is_Some (cells s !! c) →
  Add fuel k (Some c) s
  = Ok (Some (brk s))
       (mkState (<[brk s := Node_ctor k]> (heap s)) (<[c := 1]> (cells s))
                (Pos.succ (brk s)) (released s) (console s)
                (Some (brk s)) (size_ s) (maxSize_ s) (nodeTot_ s + 1)).
Proof.
  intros Hroot [v Hv]. unfold Add, bind, new_Node, get. simpl.
  rewrite Hroot. simpl. by rewrite Hv.
Qed.

Lemma Add_empty_wf fuel k c s :
  wf s Leaf → is_Some (cells s !! c) →
  ∃ s', Add fuel k (Some c) s = Ok (Some (brk s)) s' ∧
        wf s' (ins k (brk s) Leaf) ∧
        size_ s' = size_ s ∧ nodeTot_ s' = nodeTot_ s + 1 ∧
        cells s' = <[c := 1]> (cells s).
Proof.
  intros [Hs _ Hbrk] Hc. simpl in Hs.
  eexists. split; [by apply Add_empty |]. split; [| done].
  constructor; simpl.
  - split; [done |]. eexists. split; [apply lookup_insert_eq | done].
  - apply NoDup_singleton.
  - intros a Ha. destruct (decide (a = brk s)) as [-> | Hne]; [lia |].
    rewrite lookup_insert_ne in Ha by done. apply Hbrk in Ha. lia.
Qed.

Lemma InOrder_shape fuel p t s :
  shape (heap s) p t → (height t ≤ fuel)%nat →
  InOrder fuel p s = Ok (keys t) s.
Proof.
  revert p t. induction fuel as [|fuel IH]; intros p t Hs Hf.
  - destruct t; simpl in *; [by subst | lia].
  - destruct t as [|l a x r]; simpl in *; [by subst |].
    destruct Hs as (-> & n & Hn & Hk & Hl & Hr). simpl.
    apply Nat.succ_le_mono in Hf.
    rewrite (bind_Ok _ _ _ _ _ (rd_Ok left _ _ _ Hn)).
    rewrite (bind_Ok _ _ _ _ _ (IH _ l Hl ltac:(lia))).
    rewrite (bind_Ok _ _ _ _ _ (rd_Ok key _ _ _ Hn)).
    rewrite (bind_Ok _ _ _ _ _ (rd_Ok right _ _ _ Hn)).
    rewrite (bind_Ok _ _ _ _ _ (IH _ r Hr ltac:(lia))).
    by rewrite Hk.
Qed.

Lemma bst_sorted t : bst t ↔ StronglySorted Z.lt (keys t).
Proof.
  induction t as [|l IHl a x r IHr]; simpl.
  - split; [constructor | done].
  - rewrite StronglySorted_app, StronglySorted_cons, <- IHl, <- IHr.
    rewrite !Forall_forall. split.
    + intros (Hlt & Hgt & Hl & Hr). split; [| done].
      intros x1 x2 H1 H2. apply elem_of_cons in H2 as [-> | H2]; [by apply Hlt |].
      specialize (Hlt _ H1). specialize (Hgt _ H2). simpl in *. lia.
    + intros (Hlr & Hl & Hgt & Hr). repeat split; try done.
      intros y Hy. apply Hlr; [done | by left].
Qed.

Lemma Add_all_wf fuel ks c s t :
  wf s t → bst t → NoDup ks → (∀ k, k ∈ ks → k ∉ keys t) →
  (length (addrs t) + length ks ≤ fuel)%nat → is_Some (cells s !! c) →
  ∃ s' t', Add_all fuel ks (Some c) s = Ok tt s' ∧ wf s' t' ∧ bst t' ∧
           keys t' ≡ₚ ks ++ keys t ∧ is_Some (cells s' !! c).
Proof.
  revert s t. induction ks as [|k ks IH]; intros s t Hwf Hbst Hnd Hdis Hf Hc.
  - exists s, t. by split_and!.
  - simpl in Hf. apply NoDup_cons in Hnd as [Hk Hnd].
    assert (Hh : (height t ≤ fuel)%nat).
    { pose proof (height_le_length t). lia. }
    assert (∃ s1, Add fuel k (Some c) s = Ok (Some (brk s)) s1 ∧
                  wf s1 (ins k (brk s) t) ∧ is_Some (cells s1 !! c))
      as (s1 & HA & Hwf1 & Hc1).
    { destruct t as [|l a x r] eqn:Et.
      - destruct (Add_empty_wf fuel k c s Hwf Hc) as (s1 & ? & ? & _ & _ & Hcs).
        exists s1. split_and!; try done. rewrite Hcs, lookup_insert_eq. by eexists.
      - rewrite <- Et in *.
        destruct (Add_nonempty fuel k (Some c) s t Hwf ltac:(by subst t) Hh Hc)
          as (s1 & ? & ? & _ & _ & Hcs & _).
        exists s1. split_and!; try done. rewrite Hcs, lookup_insert_eq. by eexists. }
    destruct (IH s1 (ins k (brk s) t)) as (s' & t' & HAll & Hwf' & Hbst' & Hkeys & Hc');
      try done.
    + apply bst_ins; [done |]. apply Hdis. by left.
    + intros k' Hk'. rewrite keys_ins. rewrite not_elem_of_cons. split.
      * by intros ->.
      * apply Hdis. by right.
    + pose proof (Permutation_length (addrs_ins k (brk s) t)) as Hl.
      simpl in Hl. lia.
    + exists s', t'. simpl. rewrite (bind_Ok _ _ _ _ _ HA).
      split_and!; try done. rewrite Hkeys, keys_ins.
      by rewrite <- Permutation_middle.
Qed.

(** ** Fields that deletion never writes *)

Lemma keeps_ret {A} (a : A) : keeps (ret a).
Proof. intros s a' s' [= _ <-]. split_and!; eauto. Qed.

Lemma keeps_bind {A B} (m : M A) (k : A → M B) :
  keeps m → (∀ a, keeps (k a)) → keeps (bind m k).
Proof.
  intros Hm Hk s b s'' H. apply bind_inv in H as (a & s' & H1 & H2).
  apply Hm in H1 as (E1 & E2 & E3 & E4 & E5).
  apply Hk in H2 as (F1 & F2 & F3 & F4 & F5).
  split_and!; try congruence.
  intros y n'' Hy. destruct (F5 _ _ Hy) as (n' & Hy' & Hp').
  destruct (E5 _ _ Hy') as (n & Hy0 & Hp). exists n. split; congruence.
Qed.

Lemma keeps_timeout {A} : keeps (@timeout A).
Proof. by intros s a s'. Qed.


Lemma keeps_deref p : keeps (deref p).
Proof.
  intros s a s'. destruct p as [b|]; simpl; [| done].
  destruct (heap s !! b); [| done]. intros [= _ <-]. split_and!; eauto.
Qed.

Lemma keeps_rd {A} (f : Node → A) p : keeps (rd f p).
Proof. apply keeps_bind; [apply keeps_deref | intros; apply keeps_ret]. Qed.

(** Writing a field other than [parent]. *)
Lemma keeps_wr upd p :
  (∀ n, parent (upd n) = parent n) → keeps (wr upd p).
Proof.
  intros Hupd s a s'. unfold wr, bind, deref. destruct p as [b|]; [| done].
  destruct (heap s !! b) as [n|] eqn:Hn; [| done].
  intros [= _ <-]. split_and!; try done. simpl. intros y n' Hy.
  destruct (decide (y = b)) as [-> | Hne].
  - rewrite lookup_insert_eq in Hy. injection Hy as <-. eauto.
  - rewrite lookup_insert_ne in Hy by done. eauto.
Qed.

Lemma keeps_delete_node p : keeps (delete_node p).
Proof.
  intros s a s'. destruct p as [b|]; simpl.
  - destruct (heap s !! b); [| done]. intros [= _ <-].
    split_and!; try done. simpl. intros y n' Hy.
    apply lookup_delete_Some in Hy as [_ Hy]. eauto.
  - intros [= _ <-]. split_and!; eauto.
Qed.

Lemma keeps_delete_int p : keeps (delete_int p).
Proof.
  intros s a s'. destruct p as [b|]; simpl.
  - destruct (cells s !! b); [| done]. intros [= _ <-].
    split_and!; eauto.
  - intros [= _ <-]. split_and!; eauto.
Qed.


Lemma keeps_FindMin fuel p : keeps (FindMin fuel p).
Proof.
  revert p. induction fuel as [|fuel IH]; intros p; simpl;
    (apply keeps_bind; [apply keeps_rd |]); intros [l|];
    try apply keeps_ret; [apply keeps_timeout | apply IH].
Qed.

Ltac keeps_step :=
  first
    [ apply keeps_rd | by apply keeps_wr | apply keeps_delete_node
    | apply keeps_delete_int | apply keeps_ret | apply keeps_timeout
    | apply keeps_bind
    | match goal with
      | |- ∀ _, _ => intro
      | |- keeps (if ?b then _ else _) => destruct b
      end ].

Lemma keeps_splice node successor : keeps (splice node successor).
Proof. unfold splice. repeat keeps_step. Qed.

Lemma keeps_DeleteNode fuel node k : keeps (DeleteNode fuel node k).
Proof.
  revert node k. induction fuel as [|fuel IH]; intros [a|] k; simpl;
    try apply keeps_ret; try apply keeps_timeout.
  apply keeps_bind; [apply keeps_rd |]. intros nk.
  destruct (k <? nk).
  { repeat first [apply IH | keeps_step]. }
  destruct (nk <? k).
  { repeat first [apply IH | keeps_step]. }
  apply keeps_bind; [apply keeps_rd |]. intros [l|].
  - apply keeps_bind; [apply keeps_rd |]. intros [r|].
    + repeat first [apply IH | apply keeps_FindMin | keeps_step].
    + apply keeps_bind; [apply keeps_rd |]. intros ?. apply keeps_splice.
  - apply keeps_bind; [apply keeps_rd |]. intros ?. apply keeps_splice.
Qed.


(** ** DeleteNode and DeleteKey *)

Lemma with_left_id p n : left n = p → with_left p n = n.
Proof. destruct n. simpl. by intros ->. Qed.

Lemma with_right_id p n : right n = p → with_right p n = n.
Proof. destruct n. simpl. by intros ->. Qed.

Lemma elem_Br_root l a k r : a ∈ addrs (Br l a k r).
Proof. simpl. rewrite elem_of_app, elem_of_cons. tauto. Qed.

Lemma elem_Br_l l a k r y : y ∈ addrs l → y ∈ addrs (Br l a k r).
Proof. simpl. rewrite elem_of_app. tauto. Qed.

Lemma elem_Br_r l a k r y : y ∈ addrs r → y ∈ addrs (Br l a k r).
Proof. simpl. rewrite elem_of_app, elem_of_cons. tauto. Qed.

Lemma elem_Br l a k r y :
  y ∈ addrs (Br l a k r) ↔ y ∈ addrs l ∨ y = a ∨ y ∈ addrs r.
Proof. simpl. by rewrite elem_of_app, elem_of_cons. Qed.

(** [shape] reads only keys and child links. *)
Lemma shape_agree h h' p t :
  (∀ y n, y ∈ addrs t → h !! y = Some n →
     ∃ n', h' !! y = Some n' ∧ key n' = key n ∧
           left n' = left n ∧ right n' = right n) →
  shape h p t → shape h' p t.
Proof.
  revert p. induction t as [|l IHl a k r IHr]; simpl; intros p He Hs; [done |].
  destruct Hs as (-> & n & Hn & Hk & Hl & Hr). split; [done |].
  destruct (He a n) as (n' & Hn' & Ek & El & Er); [apply (elem_Br_root l a k r) | done |].
  exists n'. rewrite Ek, El, Er. split_and!; try done.
  - apply IHl; [| done]. intros y ny Hy. apply He. by apply (elem_Br_l l a k r).
  - apply IHr; [| done]. intros y ny Hy. apply He. by apply (elem_Br_r l a k r).
Qed.

(** [up_ok] and [parents] read only parent pointers and what is live. *)
Lemma up_ok_agree h h' b up t :
  (∀ y n, y ∈ addrs t → h !! y = Some n →
     ∃ n', h' !! y = Some n' ∧ parent n' = parent n) →
  (∀ q, h !! q = None → h' !! q = None) →
  up_ok h b up t → up_ok h' b up t.
Proof.
  destruct t as [|l a k r]; simpl; [done |].
  intros He Hd (n & Hn & Hp).
  destruct (He a n) as (n' & Hn' & Ep); [apply (elem_Br_root l a k r) | done |].
  exists n'. split; [done |]. rewrite Ep.
  destruct Hp as [Hp | (q & Hq & Hnone & Hlt)]; [by left |].
  right. exists q. split_and!; try done. by apply Hd.
Qed.

Lemma parents_agree h h' b t :
  (∀ y n, y ∈ addrs t → h !! y = Some n →
     ∃ n', h' !! y = Some n' ∧ parent n' = parent n) →
  (∀ q, h !! q = None → h' !! q = None) →
  parents h b t → parents h' b t.
Proof.
  induction t as [|l IHl a k r IHr]; simpl; [done |].
  intros He Hd (Hul & Hur & Hl & Hr). split_and!.
  - eapply up_ok_agree; [| exact Hd | exact Hul].
    intros y n Hy. apply He. by apply (elem_Br_l l a k r).
  - eapply up_ok_agree; [| exact Hd | exact Hur].
    intros y n Hy. apply He. by apply (elem_Br_r l a k r).
  - apply IHl; [| done | done]. intros y n Hy. apply He. by apply (elem_Br_l l a k r).
  - apply IHr; [| done | done]. intros y n Hy. apply He. by apply (elem_Br_r l a k r).
Qed.

Lemma addrs_del k t : addrs (del k t) `sublist_of` addrs t.
Proof.
  revert k. induction t as [|l IHl a x r IHr]; intros k; [done |].
  cbn [del]. destruct (k <? x); [simpl; by apply sublist_app, sublist_skip |].
  destruct (x <? k); [simpl; by apply sublist_app, sublist_skip |].
  destruct l as [|ll la lx lr].
  - simpl. by apply sublist_cons.
  - destruct r as [|rl ra rx rr].
    + by apply sublist_inserts_r.
    + cbn [addrs]. apply sublist_app; [done |]. apply sublist_skip, IHr.
Qed.

Lemma addrs_del_elem k t y : y ∈ addrs (del k t) → y ∈ addrs t.
Proof. apply (sublist_subseteq _ _ (addrs_del k t)). Qed.

Lemma NoDup_del k t : NoDup (addrs t) → NoDup (addrs (del k t)).
Proof. intros H. eapply sublist_NoDup; [exact H | apply addrs_del]. Qed.

Lemma leftmost_spec h l a x r :
  shape h (Some a) (Br l a x r) →
  (leftmost l a x).1 ∈ addrs (Br l a x r) ∧
  ∃ n, h !! (leftmost l a x).1 = Some n ∧ key n = (leftmost l a x).2 ∧
       left n = None.
Proof.
  revert a x r. induction l as [|ll IHll la lx lr _]; intros a x r Hs.
  - destruct Hs as (_ & n & Hn & Hk & Hl & _). simpl in Hl. simpl.
    split; [by left |]. by exists n.
  - destruct Hs as (_ & n & Hn & Hk & Hl & _). cbn [leftmost].
    pose proof Hl as (Hla & _).
    rewrite Hla in Hl. destruct (IHll _ _ _ Hl) as (Hin & Hm).
    split; [by apply elem_Br_l | done].
Qed.

Lemma FindMin_shape fuel h l a x r s :
  h = heap s → shape h (Some a) (Br l a x r) →
  (height (Br l a x r) ≤ S fuel)%nat →
  FindMin fuel (Some a) s = Ok (Some (leftmost l a x).1) s.
Proof.
  intros ->. revert l a x r.
  induction fuel as [|fuel IH]; intros l a x r Hs Hf;
    destruct Hs as (_ & n & Hn & Hk & Hl & _).
  - destruct l; [| simpl in Hf; lia]. simpl in Hl. simpl.
    by rewrite (bind_Ok _ _ _ _ _ (rd_Ok left _ _ _ Hn)), Hl.
  - cbn [FindMin]. rewrite (bind_Ok _ _ _ _ _ (rd_Ok left _ _ _ Hn)).
    destruct l as [|ll la lx lr].
    + simpl in Hl. by rewrite Hl.
    + pose proof Hl as (Hla & _). rewrite Hla. cbn [leftmost].
      rewrite Hla in Hl. apply (IH _ _ _ lr Hl). simpl in *. lia.
Qed.

Lemma unless_fault_bind {A B} (m : M A) (k : A → M B) s Q P :
  unless_fault (m s) Q →
  (∀ a s1, m s = Ok a s1 → Q a s1 → unless_fault (k a s1) P) →
  unless_fault (bind m k s) P.
Proof.
  unfold bind. destruct (m s) as [a s1| |]; simpl; [| done | done].
  intros HQ Hk. by apply Hk.
Qed.

Lemma relink_left a p n : left n = Some a → relink a p n = with_left p n.
Proof. intros H. unfold relink. by rewrite bool_decide_eq_true_2. Qed.

Lemma relink_right a p n :
  left n ≠ Some a → right n = Some a → relink a p n = with_right p n.
Proof.
  intros H1 H2. unfold relink.
  by rewrite bool_decide_eq_false_2, bool_decide_eq_true_2.
Qed.

Lemma splice_spec a succ s n :
  heap s !! a = Some n →
  unless_fault (splice (Some a) succ s) (λ p s',
    p = succ ∧
    ∃ q nq, parent n = Some q ∧ heap s !! q = Some nq ∧
            heap s' = delete a (<[q := relink a succ nq]> (heap s))).
Proof.
  intros Hn. unfold splice.
  rewrite (bind_Ok _ _ _ _ _ (rd_Ok parent _ _ _ Hn)).
  destruct (parent n) as [q|] eqn:Hq; [| done].
  destruct (heap s !! q) as [nq|] eqn:Hnq;
    [| by unfold bind, rd, bind, deref; rewrite Hnq].
  rewrite (bind_Ok _ _ _ _ _ (rd_Ok left _ _ _ Hnq)).
  set (s1 := set_heap (<[q := relink a succ nq]> (heap s)) s).
  assert (Hif :
    (if bool_decide (left nq = Some a)
     then np <- rd parent (Some a);; wr (with_left succ) np
     else np <- rd parent (Some a);;
          pr <- rd right np;;
          if bool_decide (pr = Some a)
          then np0 <- rd parent (Some a);; wr (with_right succ) np0
          else ret ()) s = Ok tt s1).
  { assert (Hwl : ∀ upd, (np <- rd parent (Some a);; wr upd np) s
                   = Ok tt (set_heap (<[q := upd nq]> (heap s)) s)).
    { intros upd. rewrite (bind_Ok _ _ _ _ _ (rd_Ok parent _ _ _ Hn)), Hq.
      by apply wr_Ok. }
    subst s1. unfold relink. case_bool_decide as Hl; [apply Hwl |].
    rewrite (bind_Ok _ _ _ _ _ (rd_Ok parent _ _ _ Hn)), Hq.
    rewrite (bind_Ok _ _ _ _ _ (rd_Ok right _ _ _ Hnq)).
    case_bool_decide as Hr; [apply Hwl |].
    rewrite insert_id by done. unfold ret. by destruct s. }
  rewrite (bind_Ok _ _ _ _ _ Hif).
  assert (Hlive : is_Some (heap s1 !! a)).
  { subst s1. simpl. destruct (decide (q = a)) as [-> | Hne].
    - rewrite lookup_insert_eq. by eexists.
    - rewrite lookup_insert_ne by done. by eexists. }
  destruct Hlive as [na Hna]. unfold bind, delete_node. rewrite Hna. simpl.
  split; [done |]. by exists q, nq.
Qed.

(** After [DeleteNode] on a child of [a]: the rest of the store, and the
    node at [a] itself. *)
Lemma child_after b s s1 a n c nc tc tc' p :
  heap s !! a = Some n → a ∉ addrs tc → c ∈ addrs tc → (c < b)%positive →
  heap s !! c = Some nc →
  (parent nc = Some a ∨
   ∃ q, parent nc = Some q ∧ heap s !! q = None ∧ (q < b)%positive) →
  DeleteNode_post b s c nc tc tc' p s1 →
  (∀ y n', heap s1 !! y = Some n' →
           ∃ n0, heap s !! y = Some n0 ∧ parent n' = parent n0) →
  (∀ y, y ∉ addrs tc → y ≠ a → heap s1 !! y = heap s !! y) ∧
  (heap s1 !! a = Some n ∧ p = Some c ∨
   heap s1 !! a = Some (relink c p n)) ∧
  up_ok (heap s1) b (Some a) tc'.
Proof.
  intros Hn Ha Hc Hcb Hnc Hup (Hsh & Hpar & Hrem & Hfr & Hd) Hkeep.
  assert (Hdang : ∀ y, heap s !! y = None → heap s1 !! y = None).
  { intros y Hy. destruct (heap s1 !! y) as [n'|] eqn:E; [| done].
    destruct (Hkeep _ _ E) as (n0 & Hn0 & _). congruence. }
  split_and!.
  - intros y Hy Hya. destruct (decide (parent nc = Some y)) as [Hpy | Hpy].
    + destruct Hup as [Hup | (q & Hq & Hnone & _)]; [congruence |].
      assert (q = y) as -> by congruence. rewrite Hnone. by apply Hdang.
    + apply Hfr; [done | by right].
  - destruct Hd as [-> | (_ & _ & q & nq & Hq & Hnq & Hq1)].
    + left. rewrite Hfr; [done | done | by left].
    + right. destruct Hup as [Hup | (q' & Hq' & Hnone & _)]; [| congruence].
      assert (q = a) as -> by congruence. congruence.
  - destruct tc' as [|l' c' x' r']; [done |].
    destruct Hsh as (-> & n' & Hn' & _). simpl.
    exists n'. split; [done |].
    destruct (Hkeep _ _ Hn') as (n0 & Hn0 & Hp0).
    destruct Hd as [Hpc | (Hgone & Hupc & _)].
    + injection Hpc as ->. rewrite Hnc in Hn0. injection Hn0 as <-.
      rewrite Hp0. destruct Hup as [Hup | (q & Hq & Hnone & Hlt)]; [by left |].
      right. exists q. split_and!; try done. by apply Hdang.
    + destruct Hupc as (n'' & Hn'' & Hupc). rewrite Hn' in Hn''.
      injection Hn'' as <-.
      destruct Hupc as [Hupc | Hupc]; [| by right].
      right. exists c. by split_and!.
Qed.

Lemma post_same b s a n t s' :
  DeleteNode_pre b s a n t → heap s' = heap s →
  DeleteNode_post b s a n t t (Some a) s'.
Proof.
  intros (Hs & Hnd & Hpar & Hb & Hn & Hq) E. unfold DeleteNode_post.
  rewrite E. split_and!; try done. by left.
Qed.

Lemma DeleteNode_None fuel k s : DeleteNode fuel None k s = Ok None s.
Proof. by destruct fuel. Qed.

Lemma shape_ptr h p p' t : shape h p t → shape h p' t → p = p'.
Proof. destruct t; simpl; [congruence |]. intros [-> _] [-> _]. done. Qed.

(** What [DeleteNode] did below the left child of [a], seen from [a]: the
    relinking through the child's parent pointer has already put the new
    subtree in place. *)
Lemma lift_left b l l' a x r s n c nc p s1 :
  DeleteNode_pre b s a n (Br l a x r) →
  left n = Some c → heap s !! c = Some nc →
  DeleteNode_post b s c nc l l' p s1 →
  (∀ y, y ∈ addrs l' → y ∈ addrs l) →
  (∀ y n', heap s1 !! y = Some n' →
           ∃ n0, heap s !! y = Some n0 ∧ parent n' = parent n0) →
  DeleteNode_post b s a n (Br l a x r) (Br l' a x r) (Some a) s1.
Proof.
  intros Hpre Hlc Hnc Hpost1 Hsub Hkeep.
  pose proof Hpre as (Hs & Hnd & Hpar & Hb & Hn & Hq).
  destruct Hs as (_ & n0 & Hn0 & Hk & Hl & Hr).
  rewrite Hn in Hn0. injection Hn0 as <-.
  assert (Hcl : c ∈ addrs l).
  { destruct l as [|ll c' lx lr]; simpl in Hl; [congruence |].
    destruct Hl as [Hl _]. rewrite Hlc in Hl. injection Hl as ->.
    apply elem_Br_root. }
  apply NoDup_app in Hnd as (Hndl & Hlr & Hndr).
  apply NoDup_cons in Hndr as (Har & Hndr).
  assert (Hal : a ∉ addrs l) by (intros Hin; apply (Hlr _ Hin); by left).
  destruct Hpar as (Hupl & Hupr & Hparl & Hparr).
  assert (Hupc : parent nc = Some a ∨
                 ∃ q, parent nc = Some q ∧ heap s !! q = None ∧ (q < b)%positive).
  { destruct l as [|ll c' lx lr]; simpl in Hl; [congruence |].
    destruct Hl as [Hl _]. rewrite Hlc in Hl. injection Hl as ->.
    destruct Hupl as (nc' & Hnc' & Hup). rewrite Hnc in Hnc'.
    injection Hnc' as <-. exact Hup. }
  destruct (child_after b s s1 a n c nc l l' p Hn Hal Hcl
              ltac:(by apply Hb, elem_Br_l) Hnc Hupc Hpost1 Hkeep)
    as (Hfr1 & Ha1 & Hup1).
  destruct Hpost1 as (Hsh1 & Hpar1 & Hrem1 & _ & Hd1).
  assert (Hdang : ∀ y, heap s !! y = None → heap s1 !! y = None).
  { intros y Hy. destruct (heap s1 !! y) as [n'|] eqn:E; [| done].
    destruct (Hkeep _ _ E) as (n0 & Hn0 & _). congruence. }
  assert (Hn1 : heap s1 !! a = Some (with_left p n)).
  { destruct Ha1 as [[Ha1 ->] | Ha1]; [| by rewrite relink_left in Ha1].
    by rewrite with_left_id. }
  assert (Hsame_r : ∀ y, y ∈ addrs r → heap s1 !! y = heap s !! y).
  { intros y Hy. apply Hfr1.
    - intros Hin. apply (Hlr _ Hin). by right.
    - by intros ->. }
  unfold DeleteNode_post. split_and!.
  - split; [done |]. exists (with_left p n). simpl. split_and!; try done.
    eapply shape_ext; [exact Hsame_r | done].
  - simpl. split_and!; try done.
    + eapply up_ok_agree; [| exact Hdang | exact Hupr].
      intros y ny Hy Hny. exists ny. by rewrite Hsame_r.
    + eapply parents_agree; [| exact Hdang | exact Hparr].
      intros y ny Hy Hny. exists ny. by rewrite Hsame_r.
  - intros y Hy Hny. rewrite !elem_Br in *.
    assert (y ∈ addrs l ∧ y ∉ addrs l') as [Hyl Hnyl] by tauto.
    by apply Hrem1.
  - intros y Hy _. rewrite elem_Br in Hy.
    apply Hfr1; [tauto |]. intros ->. tauto.
  - by left.
Qed.

Lemma lift_right b l r' a x r s n c nc p s1 :
  DeleteNode_pre b s a n (Br l a x r) →
  right n = Some c → heap s !! c = Some nc →
  DeleteNode_post b s c nc r r' p s1 →
  (∀ y, y ∈ addrs r' → y ∈ addrs r) →
  (∀ y n', heap s1 !! y = Some n' →
           ∃ n0, heap s !! y = Some n0 ∧ parent n' = parent n0) →
  DeleteNode_post b s a n (Br l a x r) (Br l a x r') (Some a) s1.
Proof.
  intros Hpre Hrc Hnc Hpost1 Hsub Hkeep.
  pose proof Hpre as (Hs & Hnd & Hpar & Hb & Hn & Hq).
  destruct Hs as (_ & n0 & Hn0 & Hk & Hl & Hr).
  rewrite Hn in Hn0. injection Hn0 as <-.
  assert (Hcr : c ∈ addrs r).
  { destruct r as [|rl c' rx rr]; simpl in Hr; [congruence |].
    destruct Hr as [Hr _]. rewrite Hrc in Hr. injection Hr as ->.
    apply elem_Br_root. }
  apply NoDup_app in Hnd as (Hndl & Hlr & Hndr).
  apply NoDup_cons in Hndr as (Har & Hndr).
  assert (Hal : a ∉ addrs l) by (intros Hin; apply (Hlr _ Hin); by left).
  destruct Hpar as (Hupl & Hupr & Hparl & Hparr).
  assert (Hupc : parent nc = Some a ∨
                 ∃ q, parent nc = Some q ∧ heap s !! q = None ∧ (q < b)%positive).
  { destruct r as [|rl c' rx rr]; simpl in Hr; [congruence |].
    destruct Hr as [Hr _]. rewrite Hrc in Hr. injection Hr as ->.
    destruct Hupr as (nc' & Hnc' & Hup). rewrite Hnc in Hnc'.
    injection Hnc' as <-. exact Hup. }
  assert (Hlnc : left n ≠ Some c).
  { intros E. destruct l as [|ll la lx lr]; simpl in Hl; [congruence |].
    destruct Hl as [Hl' _]. rewrite Hl' in E. injection E as ->.
    apply (Hlr c); [apply (elem_Br_root ll c lx lr) | by right]. }
  destruct (child_after b s s1 a n c nc r r' p Hn Har Hcr
              ltac:(by apply Hb, elem_Br_r) Hnc Hupc Hpost1 Hkeep)
    as (Hfr1 & Ha1 & Hup1).
  destruct Hpost1 as (Hsh1 & Hpar1 & Hrem1 & _ & Hd1).
  assert (Hdang : ∀ y, heap s !! y = None → heap s1 !! y = None).
  { intros y Hy. destruct (heap s1 !! y) as [n'|] eqn:E; [| done].
    destruct (Hkeep _ _ E) as (n0 & Hn0 & _). congruence. }
  assert (Hn1 : heap s1 !! a = Some (with_right p n)).
  { destruct Ha1 as [[Ha1 ->] | Ha1]; [| by rewrite relink_right in Ha1].
    by rewrite with_right_id. }
  assert (Hsame_l : ∀ y, y ∈ addrs l → heap s1 !! y = heap s !! y).
  { intros y Hy. apply Hfr1.
    - intros Hin. apply (Hlr _ Hy). by right.
    - by intros ->. }
  unfold DeleteNode_post. split_and!.
  - split; [done |]. exists (with_right p n). simpl. split_and!; try done.
    eapply shape_ext; [exact Hsame_l | done].
  - simpl. split_and!; try done.
    + eapply up_ok_agree; [| exact Hdang | exact Hupl].
      intros y ny Hy Hny. exists ny. by rewrite Hsame_l.
    + eapply parents_agree; [| exact Hdang | exact Hparl].
      intros y ny Hy Hny. exists ny. by rewrite Hsame_l.
  - intros y Hy Hny. rewrite !elem_Br in *.
    assert (y ∈ addrs r ∧ y ∉ addrs r') as [Hyl Hnyl] by tauto.
    by apply Hrem1.
  - intros y Hy _. rewrite elem_Br in Hy.
    apply Hfr1; [tauto |]. intros ->. tauto.
  - by left.
Qed.

(** The pre-condition passes from a node to its children. *)
Lemma pre_left b s a n l x r c :
  DeleteNode_pre b s a n (Br l a x r) → left n = Some c →
  ∃ nc, heap s !! c = Some nc ∧ DeleteNode_pre b s c nc l.
Proof.
  intros (Hs & Hnd & Hpar & Hb & Hn & Hq) Hlc.
  destruct Hs as (_ & n0 & Hn0 & Hk & Hl & Hr).
  rewrite Hn in Hn0. injection Hn0 as <-.
  apply NoDup_app in Hnd as (Hndl & Hlr & Hndr).
  assert (Hal : a ∉ addrs l) by (intros Hin; apply (Hlr _ Hin); by left).
  destruct Hpar as (Hupl & Hupr & Hparl & Hparr).
  destruct l as [|ll c' lx lr] eqn:El; simpl in Hl; [congruence |].
  rewrite <- El in *.
  assert (c' = c) as -> by (destruct Hl as [Hl _]; congruence).
  assert (∃ nc, heap s !! c = Some nc ∧
                (parent nc = Some a ∨
                 ∃ q, parent nc = Some q ∧ heap s !! q = None ∧ (q < b)%positive))
    as (nc & Hnc & Hupc) by (subst l; exact Hupl).
  exists nc. split; [done |]. split_and!; try done.
  - rewrite <- Hlc. by subst l.
  - subst l. exact Hndl.
  - intros y Hy. apply Hb. by apply elem_Br_l.
  - intros q Hq' Hin. destruct Hupc as [Hupc | (q' & Hq'' & Hnone & _)].
    + assert (q = a) as -> by congruence. done.
    + assert (q' = q) as -> by congruence.
      assert (is_Some (heap s !! q)) as [? ?]; [| congruence].
      eapply shape_live; [| exact Hin]. subst l. exact Hl.
Qed.

Lemma pre_right b s a n l x r c :
  DeleteNode_pre b s a n (Br l a x r) → right n = Some c →
  ∃ nc, heap s !! c = Some nc ∧ DeleteNode_pre b s c nc r.
Proof.
  intros (Hs & Hnd & Hpar & Hb & Hn & Hq) Hrc.
  destruct Hs as (_ & n0 & Hn0 & Hk & Hl & Hr).
  rewrite Hn in Hn0. injection Hn0 as <-.
  apply NoDup_app in Hnd as (Hndl & Hlr & Hndr).
  apply NoDup_cons in Hndr as (Har & Hndr).
  destruct Hpar as (Hupl & Hupr & Hparl & Hparr).
  destruct r as [|rl c' rx rr] eqn:Er; simpl in Hr; [congruence |].
  rewrite <- Er in *.
  assert (c' = c) as -> by (destruct Hr as [Hr _]; congruence).
  assert (∃ nc, heap s !! c = Some nc ∧
                (parent nc = Some a ∨
                 ∃ q, parent nc = Some q ∧ heap s !! q = None ∧ (q < b)%positive))
    as (nc & Hnc & Hupc) by (subst r; exact Hupr).
  exists nc. split; [done |]. split_and!; try done.
  - rewrite <- Hrc. by subst r.
  - subst r. exact Hndr.
  - intros y Hy. apply Hb. by apply elem_Br_r.
  - intros q Hq' Hin. destruct Hupc as [Hupc | (q' & Hq'' & Hnone & _)].
    + assert (q = a) as -> by congruence. subst r. by apply Har.
    + assert (q' = q) as -> by congruence.
      assert (is_Some (heap s !! q)) as [? ?]; [| congruence].
      eapply shape_live; [| exact Hin]. subst r. exact Hr.
Qed.

(** [node->left = DeleteNode(node->left, key)] *)
Lemma DN_left fuel b k l a x r s n :
  DeleteNode_ok fuel b →
  DeleteNode_pre b s a n (Br l a x r) → (height l ≤ fuel)%nat →
  unless_fault
    ((l' <- DeleteNode fuel (left n) k;;
      wr (with_left l') (Some a);;; ret (Some a)) s)
    (DeleteNode_post b s a n (Br l a x r) (Br (del k l) a x r)).
Proof.
  intros IH Hpre Hf. pose proof Hpre as (Hs & _ & _ & _ & Hn & _).
  destruct Hs as (_ & n0 & Hn0 & Hk & Hl & Hr).
  rewrite Hn in Hn0. injection Hn0 as <-.
  destruct (left n) as [c|] eqn:Hlc.
  - destruct (pre_left _ _ _ _ _ _ _ _ Hpre Hlc) as (nc & Hnc & Hprec).
    eapply unless_fault_bind; [apply (IH k c l s nc Hprec Hf) |].
    intros l' s1 HD Hpost1.
    pose proof (keeps_DeleteNode _ _ _ _ _ _ HD) as (_ & _ & _ & _ & Hkeep).
    pose proof (lift_left _ _ _ _ _ _ _ _ _ _ _ _ Hpre Hlc Hnc Hpost1
                  (addrs_del_elem k l) Hkeep) as Hpost.
    pose proof Hpost as ((_ & n1 & Hn1 & _ & Hl1 & _) & _).
    rewrite (bind_Ok _ _ _ _ _ (wr_Ok _ _ _ _ Hn1)). simpl.
    destruct Hpost1 as (Hsh1 & _).
    rewrite with_left_id by (by eapply shape_ptr).
    by rewrite insert_id.
  - apply shape_null in Hl as ->.
    rewrite (bind_Ok _ _ _ _ _ (DeleteNode_None _ _ _)).
    rewrite (bind_Ok _ _ _ _ _ (wr_Ok _ _ _ _ Hn)). simpl.
    apply post_same; [done |]. simpl.
    rewrite with_left_id by done. by apply insert_id.
Qed.

(** [node->right = DeleteNode(node->right, key)] *)
Lemma DN_right fuel b k l a x r s n :
  DeleteNode_ok fuel b →
  DeleteNode_pre b s a n (Br l a x r) → (height r ≤ fuel)%nat →
  unless_fault
    ((r' <- DeleteNode fuel (right n) k;;
      wr (with_right r') (Some a);;; ret (Some a)) s)
    (DeleteNode_post b s a n (Br l a x r) (Br l a x (del k r))).
Proof.
  intros IH Hpre Hf. pose proof Hpre as (Hs & _ & _ & _ & Hn & _).
  destruct Hs as (_ & n0 & Hn0 & Hk & Hl & Hr).
  rewrite Hn in Hn0. injection Hn0 as <-.
  destruct (right n) as [c|] eqn:Hrc.
  - destruct (pre_right _ _ _ _ _ _ _ _ Hpre Hrc) as (nc & Hnc & Hprec).
    eapply unless_fault_bind; [apply (IH k c r s nc Hprec Hf) |].
    intros r' s1 HD Hpost1.
    pose proof (keeps_DeleteNode _ _ _ _ _ _ HD) as (_ & _ & _ & _ & Hkeep).
    pose proof (lift_right _ _ _ _ _ _ _ _ _ _ _ _ Hpre Hrc Hnc Hpost1
                  (addrs_del_elem k r) Hkeep) as Hpost.
    pose proof Hpost as ((_ & n1 & Hn1 & _ & _ & Hr1) & _).
    rewrite (bind_Ok _ _ _ _ _ (wr_Ok _ _ _ _ Hn1)). simpl.
    destruct Hpost1 as (Hsh1 & _).
    rewrite with_right_id by (by eapply shape_ptr).
    by rewrite insert_id.
  - apply shape_null in Hr as ->.
    rewrite (bind_Ok _ _ _ _ _ (DeleteNode_None _ _ _)).
    rewrite (bind_Ok _ _ _ _ _ (wr_Ok _ _ _ _ Hn)). simpl.
    apply post_same; [done |]. simpl.
    rewrite with_right_id by done. by apply insert_id.
Qed.

Lemma DN_splice b a n t s t' succ :
  DeleteNode_pre b s a n t → a ∉ addrs t' →
  (∀ y, y ∈ addrs t' → y ∈ addrs t) →
  (∀ y, y ∈ addrs t → y = a ∨ y ∈ addrs t') →
  shape (heap s) succ t' → parents (heap s) b t' →
  up_ok (heap s) b (Some a) t' →
  unless_fault (splice (Some a) succ s) (DeleteNode_post b s a n t t').
Proof.
  intros (Hs & Hnd & Hpar & Hb & Hn & Hq) Ha Hsub Hall Hs' Hpar' Hup'.
  pose proof (splice_spec a succ s n Hn) as Hsp.
  destruct (splice (Some a) succ s) as [p s'| |]; simpl in *; [| done | done].
  destruct Hsp as (-> & q & nq & Hpq & Hnq & Hh').
  assert (Hqt : q ∉ addrs t) by (by apply Hq).
  assert (Hat : a ∈ addrs t).
  { destruct t as [|l a' x r]; [done |]. destruct Hs as ([= <-] & _).
    apply elem_Br_root. }
  assert (Hqa : q ≠ a) by (by intros ->).
  assert (Hfr : ∀ y, y ≠ a → y ≠ q → heap s' !! y = heap s !! y).
  { intros y Hya Hyq. rewrite Hh'.
    by rewrite lookup_delete_ne, lookup_insert_ne. }
  assert (Hgone : heap s' !! a = None) by (rewrite Hh'; apply lookup_delete_eq).
  assert (Hq' : heap s' !! q = Some (relink a succ nq)).
  { rewrite Hh'. rewrite lookup_delete_ne by done. apply lookup_insert_eq. }
  assert (Hdang : ∀ y, heap s !! y = None → heap s' !! y = None).
  { intros y Hy. destruct (decide (y = a)) as [-> | Hya]; [done |].
    rewrite Hfr; [done | done | congruence]. }
  assert (Hsame : ∀ y, y ∈ addrs t' → heap s' !! y = heap s !! y).
  { intros y Hy. apply Hfr; [by intros -> |].
    intros ->. by apply Hqt, Hsub. }
  unfold DeleteNode_post. split_and!.
  - eapply shape_ext; [exact Hsame | done].
  - eapply parents_agree; [| exact Hdang | exact Hpar'].
    intros y ny Hy Hny. exists ny. by rewrite Hsame.
  - intros y Hy Hny. by destruct (Hall _ Hy) as [-> | Hy'].
  - intros y Hy [-> | Hne].
    + destruct t' as [|l' a' x' r']; [done |]. destruct Hs' as ([= <-] & _).
      exfalso. apply Ha, elem_Br_root.
    + apply Hfr; [by intros -> | congruence].
  - right. split_and!; [done | |].
    + eapply up_ok_agree; [| exact Hdang | exact Hup'].
      intros y ny Hy Hny. exists ny. by rewrite Hsame.
    + exists q, nq. by split_and!.
Qed.

Lemma post_transfer b s s1 a n n1 t t1 t' p s' :
  DeleteNode_post b s1 a n1 t1 t' p s' →
  addrs t1 = addrs t → parent n1 = parent n →
  (∀ y, y ∉ addrs t → heap s1 !! y = heap s !! y) →
  (∀ q, parent n = Some q → q ∉ addrs t) →
  DeleteNode_post b s a n t t' p s'.
Proof.
  intros (Hsh & Hpar & Hrem & Hfr & Hd) Ea Ep Hsame Hq.
  rewrite Ea, Ep in *. unfold DeleteNode_post. split_and!; try done.
  - intros y Hy Hc. rewrite <- Hsame by done. by apply Hfr.
  - destruct Hd as [Hd | (Hgone & Hup & q & nq & Hpq & Hnq & Hq')]; [by left |].
    right. split_and!; try done. exists q, nq. split_and!; try done.
    rewrite <- Hsame; [done |]. by apply Hq.
Qed.

Lemma DN_two fuel b l a x rl c rx rr s n :
  let r := Br rl c rx rr in
  let mk := (leftmost rl c rx).2 in
  DeleteNode_ok fuel b →
  DeleteNode_pre b s a n (Br l a x r) → (height r ≤ fuel)%nat →
  unless_fault
    ((r0 <- rd right (Some a);;
      successor <- FindMin fuel r0;;
      sk <- rd key successor;;
      wr (with_key sk) (Some a);;;
      d <- rd data (Some a);;
      delete_int d;;;
      sd <- rd data successor;;
      wr (with_data sd) (Some a);;;
      wr (with_data None) successor;;;
      r1 <- rd right (Some a);;
      sk' <- rd key successor;;
      r' <- DeleteNode fuel r1 sk';;
      wr (with_right r') (Some a);;; ret (Some a)) s)
    (DeleteNode_post b s a n (Br l a x r) (Br l a mk (del mk r))).
Proof.
  intros r mk IH Hpre Hf. pose proof Hpre as (Hs & Hnd & Hpar & Hb & Hn & Hq).
  destruct Hs as (_ & n0 & Hn0 & Hk & Hl & Hr).
  rewrite Hn in Hn0. injection Hn0 as <-.
  pose proof Hr as (Hrc & _).
  destruct (leftmost_spec _ _ _ _ _ ltac:(rewrite <- Hrc; exact Hr))
    as (Hmr & nm & Hnm & Hkm & _).
  set (m := (leftmost rl c rx).1) in *. fold mk in Hkm. fold r in Hmr, Hr.
  pose proof Hnd as Hnd'.
  apply NoDup_app in Hnd' as (Hndl & Hlr & Hndr).
  apply NoDup_cons in Hndr as (Har & Hndr).
  assert (Hal : a ∉ addrs l) by (intros Hin; apply (Hlr _ Hin); by left).
  assert (Hma : m ≠ a) by (by intros E; rewrite E in Hmr).
  rewrite (bind_Ok _ _ _ _ _ (rd_Ok right _ _ _ Hn)), Hrc.
  rewrite (bind_Ok _ _ _ _ _
             (FindMin_shape fuel _ rl c rx rr s eq_refl
                ltac:(rewrite <- Hrc; exact Hr) ltac:(simpl in *; lia))).
  fold m.
  rewrite (bind_Ok _ _ _ _ _ (rd_Ok key _ _ _ Hnm)), Hkm.
  rewrite (bind_Ok _ _ _ _ _ (wr_Ok _ _ _ _ Hn)).
  set (s1 := set_heap _ s).
  assert (Ha1 : heap s1 !! a = Some (with_key mk n)) by apply lookup_insert_eq.
  rewrite (bind_Ok _ _ _ _ _ (rd_Ok data _ _ _ Ha1)).
  eapply (unless_fault_bind _ _ _
            (λ _ s2, heap s2 = heap s1)).
  { unfold delete_int. destruct (data (with_key mk n)) as [d|]; [| done].
    by destruct (cells s1 !! d). }
  intros _ s2 _ Hh2.
  assert (Hm2 : heap s2 !! m = Some nm).
  { rewrite Hh2. subst s1. simpl. by rewrite lookup_insert_ne. }
  assert (Ha2 : heap s2 !! a = Some (with_key mk n)) by (by rewrite Hh2).
  rewrite (bind_Ok _ _ _ _ _ (rd_Ok data _ _ _ Hm2)).
  rewrite (bind_Ok _ _ _ _ _ (wr_Ok _ _ _ _ Ha2)).
  set (na := with_data (data nm) (with_key mk n)).
  set (s3 := set_heap _ s2).
  assert (Hm3 : heap s3 !! m = Some nm).
  { subst s3. simpl. by rewrite lookup_insert_ne. }
  rewrite (bind_Ok _ _ _ _ _ (wr_Ok _ _ _ _ Hm3)).
  set (s4 := set_heap _ s3).
  assert (Ha4 : heap s4 !! a = Some na).
  { subst s4 s3. simpl. rewrite lookup_insert_ne by done. apply lookup_insert_eq. }
  assert (Hm4 : heap s4 !! m = Some (with_data None nm)) by apply lookup_insert_eq.
  assert (Hfr4 : ∀ y, y ≠ a → y ≠ m → heap s4 !! y = heap s !! y).
  { intros y Hya Hym. subst s4 s3. simpl. rewrite !lookup_insert_ne by done.
    rewrite Hh2. subst s1. simpl. by rewrite lookup_insert_ne. }
  rewrite (bind_Ok _ _ _ _ _ (rd_Ok right _ _ _ Ha4)).
  rewrite (bind_Ok _ _ _ _ _ (rd_Ok key _ _ _ Hm4)).
  change (key (with_data None nm)) with (key nm). rewrite Hkm.
  change (right na) with (right n).
  assert (Hagree : ∀ y ny, heap s !! y = Some ny →
            ∃ ny', heap s4 !! y = Some ny' ∧ parent ny' = parent ny ∧
                   left ny' = left ny ∧ right ny' = right ny ∧
                   (y ≠ a → key ny' = key ny)).
  { intros y ny Hy. destruct (decide (y = a)) as [-> | Hya].
    - exists na. rewrite Hn in Hy. injection Hy as <-. by split_and!.
    - destruct (decide (y = m)) as [-> | Hym].
      + exists (with_data None nm). rewrite Hnm in Hy. injection Hy as <-.
        by split_and!.
      + exists ny. rewrite Hfr4 by done. by split_and!. }
  assert (Hdang4 : ∀ q, heap s !! q = None → heap s4 !! q = None).
  { intros q Hq0. rewrite Hfr4; [done | |]; intros ->; congruence. }
  assert (Hpre4 : DeleteNode_pre b s4 a na (Br l a mk r)).
  { destruct Hpar as (Hupl & Hupr & Hparl & Hparr). split_and!; try done.
    - split; [done |]. exists na. split_and!; try done.
      + eapply shape_agree; [| exact Hl]. intros y ny Hy Hny.
        destruct (Hagree _ _ Hny) as (ny' & ? & ? & ? & ? & Hkey).
        exists ny'. split_and!; try done. apply Hkey. by intros ->.
      + eapply shape_agree; [| exact Hr]. intros y ny Hy Hny.
        destruct (Hagree _ _ Hny) as (ny' & ? & ? & ? & ? & Hkey).
        exists ny'. split_and!; try done. apply Hkey. by intros ->.
    - change (up_ok (heap s4) b (Some a) l ∧ up_ok (heap s4) b (Some a) r ∧
              parents (heap s4) b l ∧ parents (heap s4) b r).
      split_and!.
      + eapply up_ok_agree; [| exact Hdang4 | exact Hupl]. intros y ny Hy Hny.
        destruct (Hagree _ _ Hny) as (ny' & ? & ? & _). by exists ny'.
      + eapply up_ok_agree; [| exact Hdang4 | exact Hupr]. intros y ny Hy Hny.
        destruct (Hagree _ _ Hny) as (ny' & ? & ? & _). by exists ny'.
      + eapply parents_agree; [| exact Hdang4 | exact Hparl]. intros y ny Hy Hny.
        destruct (Hagree _ _ Hny) as (ny' & ? & ? & _). by exists ny'.
      + eapply parents_agree; [| exact Hdang4 | exact Hparr]. intros y ny Hy Hny.
        destruct (Hagree _ _ Hny) as (ny' & ? & ? & _). by exists ny'. }
  pose proof (DN_right fuel b mk l a mk r s4 na IH Hpre4 Hf) as HR.
  change (right na) with (right n) in HR.
  destruct ((r' <- DeleteNode fuel (right n) mk;; _) s4) as [p s'| |];
    simpl in *; [| done | done].
  eapply post_transfer; [exact HR | done | done | | done].
  intros y Hy. apply Hfr4; intros ->; apply Hy; [apply elem_Br_root |].
  by apply elem_Br_r.
Qed.

(** [DeleteNode] never runs out of steps on a tree no higher than its
    budget, and unless it faults it leaves [del k t]. *)
Lemma DeleteNode_spec fuel b : DeleteNode_ok fuel b.
Proof.
  induction fuel as [|fuel IH]; intros k a t s n Hpre Hf.
  { destruct Hpre as (Hs & _). destruct t; [done | simpl in Hf; lia]. }
  pose proof Hpre as (Hs & Hnd & Hpar & Hb & Hn & Hq).
  destruct t as [|l a' x r]; [done |].
  destruct Hs as ([= <-] & n0 & Hn0 & Hk & Hl & Hr).
  rewrite Hn in Hn0. injection Hn0 as <-.
  simpl in Hf. apply Nat.succ_le_mono in Hf.
  cbn [DeleteNode del].
  rewrite (bind_Ok _ _ _ _ _ (rd_Ok key _ _ _ Hn)), Hk.
  destruct (k <? x).
  { rewrite (bind_Ok _ _ _ _ _ (rd_Ok left _ _ _ Hn)).
    apply DN_left; [done | done | lia]. }
  destruct (x <? k).
  { rewrite (bind_Ok _ _ _ _ _ (rd_Ok right _ _ _ Hn)).
    apply DN_right; [done | done | lia]. }
  rewrite (bind_Ok _ _ _ _ _ (rd_Ok left _ _ _ Hn)).
  pose proof Hnd as Hnd'.
  apply NoDup_app in Hnd' as (Hndl & Hlr & Hndr).
  apply NoDup_cons in Hndr as (Har & Hndr).
  assert (Hal : a ∉ addrs l) by (intros Hin; apply (Hlr _ Hin); by left).
  destruct Hpar as (Hupl & Hupr & Hparl & Hparr).
  destruct l as [|ll la lx lr] eqn:El.
  { simpl in Hl. rewrite Hl.
    rewrite (bind_Ok _ _ _ _ _ (rd_Ok right _ _ _ Hn)).
    apply DN_splice; try done.
    - intros y Hy. by apply elem_Br_r.
    - intros y Hy. apply elem_Br in Hy as [Hy | [Hy | Hy]]; [| by left | by right].
      by apply elem_of_nil in Hy. }
  rewrite <- El in *.
  assert (Hlc : left n = Some la) by (subst l; apply Hl).
  rewrite Hlc.
  rewrite (bind_Ok _ _ _ _ _ (rd_Ok right _ _ _ Hn)).
  destruct r as [|rl ra rx rr] eqn:Er.
  { simpl in Hr. rewrite Hr.
    rewrite (bind_Ok _ _ _ _ _ (rd_Ok left _ _ _ Hn)).
    subst l. apply DN_splice; try done.
    - intros y Hy. by apply elem_Br_l.
    - intros y Hy. apply elem_Br in Hy as [Hy | [Hy | Hy]]; [by right | by left |].
      by apply elem_of_nil in Hy. }
  assert (Hrc : right n = Some ra) by apply Hr.
  rewrite Hrc. subst l.
  apply (DN_two fuel b (Br ll la lx lr) a x rl ra rx rr s n IH); [done |].
  simpl in *. lia.
Qed.

Lemma unless_fault_mono {A} (o : outcome A) (P Q : A → state → Prop) :
  unless_fault o P → (∀ a s, o = Ok a s → P a s → Q a s) → unless_fault o Q.
Proof. destruct o; simpl; [| done | done]. intros HP HQ. by apply HQ. Qed.

Lemma del_absent k t : lookup_tree k t = None → del k t = t.
Proof.
  induction t as [|l IHl a x r IHr]; simpl; [done |].
  destruct (Z.eqb x k) eqn:E; [done |].
  destruct (k <? x) eqn:E1; [by intros ->%IHl |].
  assert ((x <? k) = true) as -> by lia. by intros ->%IHr.
Qed.

(** [DeleteKey] hands [DeleteNode] the node [Find] found, not the root: seen
    from any node above, the effect is that of [del] from there. *)
Lemma DeleteNode_found fuel b k t a0 n0 s a :
  DeleteNode_pre b s a0 n0 t → lookup_tree k t = Some a →
  (height t ≤ fuel)%nat →
  unless_fault (DeleteNode fuel (Some a) k s) (λ p s',
    DeleteNode_post b s a0 n0 t (del k t)
      (if decide (a = a0) then p else Some a0) s').
Proof.
  revert a0 n0. induction t as [|l IHl a' x r IHr]; intros a0 n0 Hpre Hlk Hf;
    [done |].
  pose proof Hpre as (Hs & Hnd & _ & _ & Hn & _).
  destruct Hs as ([= <-] & n & Hn' & Hk & Hl & Hr).
  rewrite Hn in Hn'. injection Hn' as <-.
  simpl in Hf. apply Nat.succ_le_mono in Hf.
  cbn [lookup_tree] in Hlk. destruct (Z.eqb x k) eqn:E.
  { injection Hlk as <-. destruct (decide (a0 = a0)); [| done].
    apply DeleteNode_spec; [done | simpl; lia]. }
  apply NoDup_app in Hnd as (_ & Hlr & Hndr).
  apply NoDup_cons in Hndr as (Har & _).
  cbn [del]. destruct (k <? x) eqn:E1.
  - destruct (lookup_tree_key _ _ _ _ _ Hl Hlk) as (Hin & _).
    assert (a ≠ a0) by (intros ->; apply (Hlr _ Hin); by left).
    destruct (decide (a = a0)); [done |].
    destruct (left n0) as [c|] eqn:Hlc;
      [| by apply shape_null in Hl; subst l].
    destruct (pre_left _ _ _ _ _ _ _ _ Hpre Hlc) as (nc & Hnc & Hprec).
    eapply unless_fault_mono; [apply (IHl c nc Hprec Hlk); lia |].
    intros p s1 HD Hpost1.
    pose proof (keeps_DeleteNode _ _ _ _ _ _ HD) as (_ & _ & _ & _ & Hkeep).
    exact (lift_left _ _ _ _ _ _ _ _ _ _ _ _ Hpre Hlc Hnc Hpost1
             (addrs_del_elem k l) Hkeep).
  - assert ((x <? k) = true) as -> by lia.
    destruct (lookup_tree_key _ _ _ _ _ Hr Hlk) as (Hin & _).
    assert (a ≠ a0) by (by intros ->).
    destruct (decide (a = a0)); [done |].
    destruct (right n0) as [c|] eqn:Hrc;
      [| by apply shape_null in Hr; subst r].
    destruct (pre_right _ _ _ _ _ _ _ _ Hpre Hrc) as (nc & Hnc & Hprec).
    eapply unless_fault_mono; [apply (IHr c nc Hprec Hlk); lia |].
    intros p s1 HD Hpost1.
    pose proof (keeps_DeleteNode _ _ _ _ _ _ HD) as (_ & _ & _ & _ & Hkeep).
    exact (lift_right _ _ _ _ _ _ _ _ _ _ _ _ Hpre Hrc Hnc Hpost1
             (addrs_del_elem k r) Hkeep).
Qed.

Theorem DeleteKey_spec fuel k s t :
  inv s t → (height t ≤ fuel)%nat →
  unless_fault (DeleteKey fuel k s) (λ b s',
    b = bool_decide (is_Some (lookup_tree k t)) ∧
    inv s' (del k t) ∧
    root_ s' = root_ s ∧ size_ s' = size_ s ∧ nodeTot_ s' = nodeTot_ s ∧
    brk s' = brk s ∧
    (b = false → s' = s)).
Proof.
  intros [[Hs Hnd Hbrk] Hpar Hup] Hf. unfold DeleteKey.
  assert (HF : Find fuel k s = Ok (lookup_tree k t) s).
  { unfold Find, bind, get. by apply FindRecurse_shape. }
  rewrite (bind_Ok _ _ _ _ _ HF).
  destruct (lookup_tree k t) as [a|] eqn:Hlk.
  2: { simpl. rewrite del_absent by done. by split_and!. }
  destruct t as [|l a0 x r] eqn:Et; [done |]. rewrite <- Et in *.
  assert (∃ n0, root_ s = Some a0 ∧ heap s !! a0 = Some n0) as (n0 & Hroot & Hn0).
  { subst t. destruct Hs as (? & n0 & ? & _). by exists n0. }
  assert (Hup0 : parent n0 = None ∨
                 ∃ q, parent n0 = Some q ∧ heap s !! q = None ∧ (q < brk s)%positive).
  { subst t. destruct Hup as (n0' & Hn0' & Hup). rewrite Hn0 in Hn0'.
    injection Hn0' as <-. exact Hup. }
  assert (Hpre : DeleteNode_pre (brk s) s a0 n0 t).
  { split_and!; try done.
    - by rewrite <- Hroot.
    - intros y Hy. apply Hbrk. by eapply shape_live.
    - intros q Hq Hin. destruct Hup0 as [Hup0 | (q' & Hq' & Hnone & _)];
        [congruence |].
      assert (q' = q) as -> by congruence.
      destruct (shape_live _ _ _ _ Hs Hin). congruence. }
  eapply unless_fault_bind;
    [apply (DeleteNode_found fuel (brk s) k t a0 n0 s a Hpre Hlk Hf) |].
  intros p s' HD (Hsh & Hpar' & Hrem & Hfr & Hd). simpl.
  pose proof (keeps_DeleteNode _ _ _ _ _ _ HD) as (Kr & Ks & Kt & Kb & Hkeep).
  assert (Hdang : ∀ y, heap s !! y = None → heap s' !! y = None).
  { intros y Hy. destruct (heap s' !! y) as [n'|] eqn:E; [| done].
    destruct (Hkeep _ _ E) as (n1 & Hn1 & _). congruence. }
  assert (Hp : (if decide (a = a0) then p else Some a0) = Some a0).
  { destruct Hd as [Hd | (_ & _ & q & nq & Hq & Hnq & _)]; [done |].
    destruct Hup0 as [Hup0 | (q' & Hq' & Hnone & _)]; congruence. }
  rewrite Hp in Hsh.
  split_and!; try done.
  constructor; [constructor |..].
    + by rewrite Kr, Hroot.
    + by apply NoDup_del.
    + rewrite Kb. intros y [ny Hy]. destruct (Hkeep _ _ Hy) as (n1 & Hn1 & _).
      apply Hbrk. by eexists.
    + by rewrite Kb.
    + rewrite Kb. destruct (del k t) as [|l' a' x' r']; [done |].
      destruct Hsh as ([= <-] & n' & Hn' & _). simpl.
      exists n'. split; [done |].
      destruct (Hkeep _ _ Hn') as (n1 & Hn1 & Hp1).
      rewrite Hn0 in Hn1. injection Hn1 as <-. rewrite Hp1.
      destruct Hup0 as [Hup0 | (q & Hq & Hnone & Hlt)]; [by left |].
      right. exists q. split_and!; try done. by apply Hdang.
Qed.

(** ** Keys after [del] *)

Lemma ordered_sorted t : ordered t → StronglySorted Z.le (keys t).
Proof.
  induction t as [|l IHl a x r IHr]; simpl; [constructor |].
  intros (Hlt & Hge & Hl & Hr).
  rewrite Forall_forall in Hlt, Hge.
  apply StronglySorted_app; split_and!; [| by apply IHl |].
  - intros y z Hy Hz. specialize (Hlt _ Hy). simpl in Hlt.
    apply elem_of_cons in Hz as [-> | Hz]; [lia |].
    specialize (Hge _ Hz). simpl in Hge. lia.
  - apply StronglySorted_cons. split; [| by apply IHr].
    by apply Forall_forall.
Qed.

(** Deleting the key of the leftmost node takes the first key away. *)
Lemma keys_del_leftmost l a x r :
  ordered (Br l a x r) →
  keys (Br l a x r)
  = (leftmost l a x).2 :: keys (del (leftmost l a x).2 (Br l a x r)).
Proof.
  revert a x r. induction l as [|ll IHll la lx lr _]; intros a x r Ho.
  - simpl. by rewrite Z.ltb_irrefl.
  - destruct Ho as (Hlt & Hge & Hl & Hr). cbn [leftmost].
    set (mk := (leftmost ll la lx).2) in *.
    specialize (IHll la lx lr Hl). fold mk in IHll.
    assert (Hmk : mk < x).
    { rewrite Forall_forall in Hlt. apply Hlt. rewrite IHll. by left. }
    cbn [del]. assert ((mk <? x) = true) as -> by lia.
    cbn [keys]. cbn [keys] in IHll. by rewrite IHll at 1.
Qed.

Lemma keys_del k t :
  ordered t → is_Some (lookup_tree k t) →
  ∃ l1 l2, keys t = l1 ++ k :: l2 ∧ keys (del k t) = l1 ++ l2.
Proof.
  induction t as [|l IHl a x r IHr]; intros Ho [b Hb]; [done |].
  destruct Ho as (Hlt & Hge & Hl & Hr). cbn [lookup_tree del] in *.
  destruct (Z.eqb x k) eqn:E.
  - assert (x = k) as -> by lia. rewrite Z.ltb_irrefl.
    destruct l as [|ll la lx lr].
    + by exists [], (keys r).
    + destruct r as [|rl ra rx rr].
      * exists (keys (Br ll la lx lr)), []. simpl. by rewrite app_nil_r.
      * exists (keys (Br ll la lx lr)), (keys (Br rl ra rx rr)).
        split; [done |].
        by rewrite (keys_del_leftmost rl ra rx rr Hr).
  - destruct (k <? x) eqn:E1.
    + destruct (IHl Hl ltac:(by eexists)) as (l1 & l2 & H1 & H2).
      exists l1, (l2 ++ x :: keys r). cbn [keys].
      rewrite H1, H2. by rewrite <- !app_assoc.
    + assert ((x <? k) = true) as -> by lia.
      destruct (IHr Hr ltac:(by eexists)) as (l1 & l2 & H1 & H2).
      exists (keys l ++ x :: l1), l2. cbn [keys].
      rewrite H1, H2. by rewrite <- !app_assoc.
Qed.

Lemma keys_del_elem k t y : ordered t → y ∈ keys (del k t) → y ∈ keys t.
Proof.
  intros Ho Hy. destruct (lookup_tree k t) as [a|] eqn:E.
  - destruct (keys_del k t Ho ltac:(by eexists)) as (l1 & l2 & H1 & H2).
    rewrite H1. rewrite H2 in Hy. rewrite elem_of_app in Hy.
    rewrite elem_of_app, elem_of_cons. tauto.
  - by rewrite del_absent in Hy.
Qed.

Lemma ordered_del k t : ordered t → ordered (del k t).
Proof.
  revert k. induction t as [|l IHl a x r IHr]; intros k Ho; [done |].
  pose proof Ho as (Hlt & Hge & Hl & Hr). cbn [del].
  destruct (k <? x).
  { simpl. split_and!; try done; [| by apply IHl].
    apply Forall_forall. intros y Hy. apply keys_del_elem in Hy; [| done].
    rewrite Forall_forall in Hlt. by apply Hlt. }
  destruct (x <? k).
  { simpl. split_and!; try done; [| by apply IHr].
    apply Forall_forall. intros y Hy. apply keys_del_elem in Hy; [| done].
    rewrite Forall_forall in Hge. by apply Hge. }
  destruct l as [|ll la lx lr]; [done |].
  destruct r as [|rl ra rx rr]; [done |].
  set (mk := (leftmost rl ra rx).2).
  pose proof (keys_del_leftmost rl ra rx rr Hr) as Hkeys. fold mk in Hkeys.
  assert (Hmk : x ≤ mk).
  { rewrite Forall_forall in Hge. apply Hge. rewrite Hkeys. by left. }
  pose proof (ordered_sorted _ Hr) as Hsort. rewrite Hkeys in Hsort.
  apply StronglySorted_cons in Hsort as [Hmin _].
  change (Forall (λ y, y < mk) (keys (Br ll la lx lr)) ∧
          Forall (λ y, mk ≤ y) (keys (del mk (Br rl ra rx rr))) ∧
          ordered (Br ll la lx lr) ∧ ordered (del mk (Br rl ra rx rr))).
  split_and!; [| exact Hmin | exact Hl | by apply IHr].
  eapply Forall_impl; [exact Hlt |]. simpl. intros. lia.
Qed.

Lemma bst_del k t : bst t → bst (del k t) ∧ k ∉ keys (del k t).
Proof.
  intros Hb. pose proof (bst_ordered _ Hb) as Ho.
  destruct (lookup_tree k t) as [a|] eqn:E.
  - destruct (keys_del k t Ho ltac:(by eexists)) as (l1 & l2 & H1 & H2).
    apply bst_sorted in Hb. rewrite H1 in Hb.
    apply StronglySorted_app in Hb as (H12 & Hs1 & Hs2).
    apply StronglySorted_cons in Hs2 as (Hk2 & Hs2).
    rewrite Forall_forall in Hk2. split.
    + apply bst_sorted. rewrite H2. apply StronglySorted_app. split_and!; try done.
      intros y z Hy Hz. apply H12; [done | by right].
    + rewrite H2, elem_of_app. intros [Hin | Hin].
      * specialize (H12 k k Hin ltac:(by left)). lia.
      * specialize (Hk2 _ Hin). lia.
  - rewrite del_absent by done. split; [done |].
    intros Hin. apply (lookup_tree_present k t Ho) in Hin. rewrite E in Hin.
    by destruct Hin.
Qed.

(** ** Runs of Add and DeleteKey *)

Lemma up_ok_mono h b b' up t :
  (b ≤ b')%positive → up_ok h b up t → up_ok h b' up t.
Proof.
  intros Hb. destruct t as [|l a x r]; simpl; [done |].
  intros (n & Hn & [Hp | (q & Hq & Hnone & Hlt)]); exists n; (split; [done |]);
    [by left |].
  right. exists q. split_and!; try done. lia.
Qed.

Lemma parents_mono h b b' t :
  (b ≤ b')%positive → parents h b t → parents h b' t.
Proof.
  intros Hb. induction t as [|l IHl a x r IHr]; simpl; [done |].
  intros (Hul & Hur & Hl & Hr).
  split_and!; [by eapply up_ok_mono | by eapply up_ok_mono | by apply IHl | by apply IHr].
Qed.

Lemma ins_root k b l a x r :
  ∃ l' r', ins k b (Br l a x r) = Br l' a x r'.
Proof. simpl. destruct (k <? x); eauto. Qed.

Lemma parents_ins h h2 bk p t cand k b c nc :
  shape h p t → NoDup (addrs t) → b ∉ addrs t → t ≠ Leaf →
  attach k t cand = Some c → h !! c = Some nc →
  h2 !! b = Some (mkNode k None None None (Some c)) →
  h2 !! c = Some (if k <? key nc then with_left (Some b) nc
                  else with_right (Some b) nc) →
  (∀ y, y ≠ b → y ≠ c → h2 !! y = h !! y) →
  (∀ q, h !! q = None → (q < bk)%positive → h2 !! q = None) →
  parents h bk t → parents h2 bk (ins k b t).
Proof.
  intros Hs Hnd Hb Hne Hat Hc Hnb Hc2 Hfr Hdang Hpar.
  assert (Hag : ∀ y n, y ≠ b → h !! y = Some n →
            ∃ n', h2 !! y = Some n' ∧ parent n' = parent n).
  { intros y n Hyb Hy. destruct (decide (y = c)) as [-> | Hyc].
    - rewrite Hc in Hy. injection Hy as <-. eexists. split; [exact Hc2 |].
      by destruct (k <? key nc).
    - exists n. by rewrite Hfr. }
  assert (Hup : ∀ up t0, b ∉ addrs t0 → up_ok h bk up t0 → up_ok h2 bk up t0).
  { intros up [|l0 a0 x0 r0] Hb0; simpl; [done |].
    intros (n0 & Hn0 & Hp0).
    destruct (Hag a0 n0) as (n' & Hn' & Ep); [| done |].
    { intros ->. apply Hb0, elem_Br_root. }
    exists n'. split; [done |]. rewrite Ep.
    destruct Hp0 as [? | (q & Hq & Hnone & Hlt)]; [by left |].
    right. exists q. split_and!; try done. by apply Hdang. }
  assert (Hpars : ∀ t0, b ∉ addrs t0 → parents h bk t0 → parents h2 bk t0).
  { induction t0 as [|l0 IHl0 a0 x0 r0 IHr0]; simpl; [done |].
    intros Hb0 (Hul & Hur & Hl & Hr).
    rewrite elem_of_app, elem_of_cons in Hb0.
    split_and!; [apply Hup | apply Hup | apply IHl0 | apply IHr0]; tauto. }
  revert p cand Hs Hnd Hb Hne Hat Hpar.
  induction t as [|l IHl a x r IHr]; intros p cand Hs Hnd Hb Hne Hat Hpar;
    [done |].
  destruct Hs as (-> & n & Hn & Hk & Hl & Hr).
  destruct Hpar as (Hul & Hur & Hparl & Hparr).
  simpl in Hnd, Hb, Hat.
  apply NoDup_app in Hnd as (Hndl & Hlr & Hndr).
  apply NoDup_cons in Hndr as (Har & Hndr).
  rewrite elem_of_app, elem_of_cons in Hb.
  cbn [ins]. destruct (k <? x) eqn:Ekx.
  - change (up_ok h2 bk (Some a) (ins k b l) ∧ up_ok h2 bk (Some a) r ∧
            parents h2 bk (ins k b l) ∧ parents h2 bk r).
    destruct l as [|ll la lx lr] eqn:El.
    + simpl in Hat. injection Hat as <-. split_and!.
      * simpl. eexists. split; [exact Hnb |]. by left.
      * apply Hup; tauto.
      * done.
      * apply Hpars; tauto.
    + rewrite <- El in *. split_and!.
      * subst l. destruct (ins_root k b ll la lx lr) as (l' & r' & ->).
        apply (Hup _ (Br ll la lx lr)) in Hul; [done | tauto].
      * apply Hup; tauto.
      * eapply (IHl _ (Some a)); try done; [tauto | by subst l].
      * apply Hpars; tauto.
  - change (up_ok h2 bk (Some a) l ∧ up_ok h2 bk (Some a) (ins k b r) ∧
            parents h2 bk l ∧ parents h2 bk (ins k b r)).
    destruct r as [|rl ra rx rr] eqn:Er.
    + simpl in Hat. injection Hat as <-. split_and!.
      * apply Hup; tauto.
      * simpl. eexists. split; [exact Hnb |]. by left.
      * apply Hpars; tauto.
      * done.
    + rewrite <- Er in *. split_and!.
      * apply Hup; tauto.
      * subst r. destruct (ins_root k b rl ra rx rr) as (l' & r' & ->).
        apply (Hup _ (Br rl ra rx rr)) in Hur; [done | tauto].
      * apply Hpars; tauto.
      * eapply (IHr _ (Some a)); try done; [tauto | by subst r].
Qed.

Lemma Add_inv fuel k c s t :
  inv s t → (height t ≤ fuel)%nat → is_Some (cells s !! c) →
  ∃ s', Add fuel k (Some c) s = Ok (Some (brk s)) s' ∧
        inv s' (ins k (brk s) t) ∧ brk s' = Pos.succ (brk s) ∧
        is_Some (cells s' !! c).
Proof.
  intros [Hwf Hpar Hup] Hf Hc. destruct t as [|l a x r] eqn:Et.
  - exists (mkState (<[brk s := Node_ctor k]> (heap s)) (<[c := 1]> (cells s))
              (Pos.succ (brk s)) (released s) (console s)
              (Some (brk s)) (size_ s) (maxSize_ s) (nodeTot_ s + 1)).
    split; [apply Add_empty; [apply Hwf | done] |].
    destruct (Add_empty_wf fuel k c s Hwf Hc) as (s' & HA & Hwf' & _).
    rewrite Add_empty in HA by (apply Hwf || done). injection HA as <-.
    split_and!; try done.
    + constructor; [done | done |]. simpl. eexists.
      split; [apply lookup_insert_eq |]. by left.
    + simpl. rewrite lookup_insert_eq. by eexists.
  - rewrite <- Et in *. assert (Hne : t ≠ Leaf) by (by subst t).
    destruct (Add_nonempty fuel k (Some c) s t Hwf Hne Hf Hc)
      as (s' & HA & Hwf' & _ & _ & Hcs & Hbrk' & _ & _ &
          c0 & nc & Hat & Hnc & Hb' & Hc' & Hfr).
    exists s'. split_and!; try done.
    2: { rewrite Hcs, lookup_insert_eq. by eexists. }
    destruct Hwf as [Hs Hnd Hbrk].
    assert (Hfresh : heap s !! brk s = None).
    { destruct (heap s !! brk s) eqn:E; [| done].
      assert (brk s < brk s)%positive by (apply Hbrk; by eexists). lia. }
    assert (Hb : brk s ∉ addrs t).
    { intros Hin. eapply shape_live in Hin; [| exact Hs].
      rewrite Hfresh in Hin. by destruct Hin. }
    assert (Hdang : ∀ q, heap s !! q = None → (q < brk s)%positive →
                         heap s' !! q = None).
    { intros q Hq Hlt. rewrite Hfr; [done | lia | congruence]. }
    constructor; [done | |].
    + rewrite Hbrk'. eapply parents_mono; [| eapply parents_ins; try done]; lia.
    + rewrite Hbrk'. subst t.
      destruct (ins_root k (brk s) l a x r) as (l' & r' & ->).
      destruct Hup as (n & Hn & Hp). simpl.
      assert (∃ n', heap s' !! a = Some n' ∧ parent n' = parent n)
        as (n' & Hn' & Ep).
      { destruct (decide (a = c0)) as [-> | Hac].
        - rewrite Hnc in Hn. injection Hn as <-. eexists. split; [exact Hc' |].
          by destruct (k <? key nc).
        - exists n. rewrite Hfr; [done | | done].
          intros ->. congruence. }
      exists n'. split; [done |]. rewrite Ep.
      destruct Hp as [Hp | (q & Hq & Hnone & Hlt)]; [by left |].
      right. exists q. split_and!; [done | by apply Hdang | lia].
Qed.

(** With no live [int] behind [depth], [Add] faults at its write. *)
Lemma Add_dead_cell fuel k c s t :
  wf s t → (height t ≤ fuel)%nat → cells s !! c = None →
  Add fuel k (Some c) s = Fault (Dangling c).
Proof.
  intros [Hs Hnd Hbrk] Hf Hc. unfold Add.
  unfold new_Node at 1. unfold bind at 1.
  unfold bind at 1, get at 1. cbn [root_ set_brk set_heap heap].
  destruct t as [|l a x r].
  - simpl in Hs. rewrite Hs. unfold bind, modify, get, write_int. simpl.
    by rewrite Hc.
  - pose proof Hs as (Hroot & n & Hn & _). rewrite Hroot.
    set (b := brk s).
    assert (Hfresh : heap s !! b = None).
    { destruct (heap s !! b) eqn:E; [| done].
      assert (b < b)%positive by (apply Hbrk; by eexists). lia. }
    set (s1 := set_brk _ _).
    assert (Hs1 : shape (heap s1) (Some a) (Br l a x r)).
    { eapply shape_ext; [| rewrite <- Hroot; exact Hs]. intros y Hy.
      subst s1. simpl. apply lookup_insert_ne. intros ->.
      eapply shape_live in Hy; [| exact Hs]. rewrite Hfresh in Hy.
      by destruct Hy. }
    assert (Hb1 : heap s1 !! b = Some (Node_ctor k)) by apply lookup_insert_eq.
    rewrite (bind_Ok _ _ _ _ _
               (Add_loop_shape fuel b _ k _ _ None 0 s1 Hb1 eq_refl Hs1 Hf)).
    unfold bind at 1. cbn [write_int]. change (cells s1) with (cells s).
    by rewrite Hc.
Qed.

Lemma Add_total fuel k c s t :
  inv s t → (height t ≤ fuel)%nat →
  unless_fault (Add fuel k (Some c) s) (λ p s',
    p = Some (brk s) ∧ inv s' (ins k (brk s) t) ∧
    brk s' = Pos.succ (brk s)).
Proof.
  intros Hinv Hf. destruct (cells s !! c) as [v|] eqn:Hc.
  - destruct (Add_inv fuel k c s t Hinv Hf ltac:(by eexists))
      as (s' & -> & ? & ? & _). by simpl.
  - by rewrite (Add_dead_cell fuel k c s t (inv_wf _ _ Hinv) Hf Hc).
Qed.

(** Any run of [Add] and [DeleteKey] from a tree in good state ends, and
    unless it faults it leaves the tree in good state, ordered, and as
    [ins] and [del] make it. *)
Theorem run_spec fuel ops c s t :
  inv s t → ordered t → (length (addrs t) + length ops ≤ fuel)%nat →
  unless_fault (run fuel ops (Some c) s) (λ _ s',
    inv s' (tree_after ops (brk s) t) ∧
    ordered (tree_after ops (brk s) t) ∧
    (height (tree_after ops (brk s) t) ≤ fuel)%nat).
Proof.
  revert s t. induction ops as [|[k|k] ops IH]; intros s t Hinv Ho Hf.
  - simpl. split_and!; try done. pose proof (height_le_length t). simpl in Hf. lia.
  - cbn [run tree_after]. simpl in Hf.
    eapply unless_fault_bind.
    { apply Add_total; [done |]. pose proof (height_le_length t). lia. }
    intros p s1 _ (_ & Hinv1 & Hbrk1). simpl. rewrite <- Hbrk1.
    apply IH; [done | by apply ordered_ins |].
    rewrite (Permutation_length (addrs_ins k (brk s) t)). simpl. lia.
  - cbn [run tree_after]. simpl in Hf.
    eapply unless_fault_bind.
    { apply DeleteKey_spec; [done |]. pose proof (height_le_length t). lia. }
    intros p s1 _ (_ & Hinv1 & _ & _ & _ & Hbrk1 & _). simpl. rewrite <- Hbrk1.
    apply IH; [done | by apply ordered_del |].
    pose proof (sublist_length _ _ (addrs_del k t)). lia.
Qed.

Lemma remove_one_absent k l : k ∉ l → remove_one k l = l.
Proof.
  induction l as [|x l IH]; simpl; [done |]. rewrite not_elem_of_cons.
  intros [Hne Hl]. rewrite decide_False by done. by rewrite IH.
Qed.

Lemma remove_one_perm k l : k ∈ l → k :: remove_one k l ≡ₚ l.
Proof.
  induction l as [|x l IH]; simpl; intros Hk; [by apply elem_of_nil in Hk |].
  destruct (decide (x = k)) as [-> | Hne]; [done |].
  apply elem_of_cons in Hk as [-> | Hk]; [done |].
  rewrite <- (IH Hk) at 2. apply perm_swap.
Qed.

Lemma remove_one_Permutation k l l' :
  l ≡ₚ l' → remove_one k l ≡ₚ remove_one k l'.
Proof.
  intros Hp. destruct (decide (k ∈ l)) as [Hk | Hk].
  - apply (Permutation_cons_inv (a := k)).
    rewrite remove_one_perm by done.
    rewrite remove_one_perm by (by rewrite <- Hp). done.
  - rewrite !remove_one_absent; [done | by rewrite <- Hp | done].
Qed.

Lemma lookup_tree_elem k t a : lookup_tree k t = Some a → k ∈ keys t.
Proof.
  induction t as [|l IHl b x r IHr]; simpl; [done |].
  rewrite elem_of_app, elem_of_cons.
  destruct (Z.eqb x k) eqn:E; [intros _; right; left; lia |].
  destruct (k <? x); intros H; [apply IHl in H | apply IHr in H]; tauto.
Qed.

Lemma keys_del_remove k t :
  ordered t → keys (del k t) ≡ₚ remove_one k (keys t).
Proof.
  intros Ho. destruct (lookup_tree k t) as [a|] eqn:E.
  - destruct (keys_del k t Ho ltac:(by eexists)) as (l1 & l2 & H1 & H2).
    apply (Permutation_cons_inv (a := k)).
    rewrite remove_one_perm by (by eapply lookup_tree_elem).
    rewrite H1, H2. apply Permutation_middle.
  - rewrite del_absent by done. rewrite remove_one_absent; [done |].
    intros Hin. apply (lookup_tree_present k t Ho) in Hin.
    rewrite E in Hin. by destruct Hin.
Qed.

Lemma live_keys_Permutation ops l l' :
  l ≡ₚ l' → live_keys ops l ≡ₚ live_keys ops l'.
Proof.
  revert l l'. induction ops as [|[k|k] ops IH]; intros l l' Hp; simpl; [done | |].
  - apply IH. by constructor.
  - by apply IH, remove_one_Permutation.
Qed.

(** The tree after a run holds the keys inserted and not yet deleted. *)
Lemma keys_tree_after ops b t :
  ordered t → keys (tree_after ops b t) ≡ₚ live_keys ops (keys t).
Proof.
  revert b t. induction ops as [|[k|k] ops IH]; intros b t Ho; simpl; [done | |].
  - rewrite IH by (by apply ordered_ins).
    apply live_keys_Permutation, keys_ins.
  - rewrite IH by (by apply ordered_del).
    by apply live_keys_Permutation, keys_del_remove.
Qed.

Lemma height_del k t : (height (del k t) ≤ height t)%nat.
Proof.
  revert k. induction t as [|l IHl a x r IHr]; intros k; [done |].
  cbn [del]. destruct (k <? x).
  { specialize (IHl k). simpl. lia. }
  destruct (x <? k).
  { specialize (IHr k). simpl. lia. }
  destruct l as [|ll la lx lr]; [simpl; lia |].
  destruct r as [|rl ra rx rr]; [simpl; lia |].
  specialize (IHr (leftmost rl ra rx).2).
  change (S (Nat.max (height (Br ll la lx lr))
                     (height (del (leftmost rl ra rx).2 (Br rl ra rx rr))))
          ≤ S (Nat.max (height (Br ll la lx lr)) (height (Br rl ra rx rr))))%nat.
  lia.
Qed.

(** [Find] on a tree ordered the way [Add] orders it. *)
Lemma Find_ordered fuel k s t :
  shape (heap s) (root_ s) t → ordered t → (height t ≤ fuel)%nat →
  (k ∈ keys t →
   ∃ a n, Find fuel k s = Ok (Some a) s ∧ a ∈ addrs t ∧
          heap s !! a = Some n ∧ key n = k) ∧
  (k ∉ keys t → Find fuel k s = Ok None s).
Proof.
  intros Hs Ho Hf.
  assert (HF : Find fuel k s = Ok (lookup_tree k t) s).
  { unfold Find, bind, get. by apply FindRecurse_shape. }
  split; intros Hk.
  - destruct (lookup_tree_present k t Ho Hk) as [a Ha].
    destruct (lookup_tree_key _ _ _ _ _ Hs Ha) as (Hin & n & Hn & Hkn).
    exists a, n. by rewrite HF, Ha.
  - by rewrite HF, lookup_tree_absent.
Qed.

(** After any run that does not fault, [Find] returns a node for every key
    inserted and not yet deleted, and [nullptr] for every other key. *)
Lemma Find_after_run fuel ops c s t k :
  inv s t → ordered t → (length (addrs t) + length ops ≤ fuel)%nat →
  unless_fault (run fuel ops (Some c) s) (λ _ s',
    (k ∈ live_keys ops (keys t) →
     ∃ a n, Find fuel k s' = Ok (Some a) s' ∧
            heap s' !! a = Some n ∧ key n = k) ∧
    (k ∉ live_keys ops (keys t) → Find fuel k s' = Ok None s')).
Proof.
  intros Hinv Ho Hf.
  eapply unless_fault_mono; [by apply run_spec |].
  intros _ s' _ (Hinv' & Ho' & Hh'). simpl.
  destruct (Find_ordered fuel k s' _ (wf_shape _ _ (inv_wf _ _ Hinv')) Ho' Hh')
    as [Hin Hout].
  rewrite <- (keys_tree_after ops (brk s) t Ho).
  split; [| done]. intros Hk. destruct (Hin Hk) as (a & n & ? & _ & ? & ?).
  by exists a, n.
Qed.

(** Whenever [DeleteKey] returns [true] on a search tree in good state, the
    key is gone and [size_] is what it was. *)
Lemma DeleteKey_true fuel k s t s' :
  inv s t → bst t → (height t ≤ fuel)%nat →
  DeleteKey fuel k s = Ok true s' →
  k ∈ keys t ∧ inv s' (del k t) ∧ bst (del k t) ∧
  Find fuel k s' = Ok None s' ∧ Size s' = Size s ∧ root_ s' = root_ s.
Proof.
  intros Hinv Hb Hf HD.
  pose proof (DeleteKey_spec fuel k s t Hinv Hf) as Hsp. rewrite HD in Hsp.
  destruct Hsp as (Hfound & Hinv' & Hroot & Hsz & _).
  destruct (bst_del k t Hb) as [Hb' Hk'].
  symmetry in Hfound. apply bool_decide_eq_true_1 in Hfound as [a Ha].
  split_and!; try done.
  - by eapply lookup_tree_elem.
  - apply Find_ordered with (t := del k t); try done.
    + apply Hinv'.
    + by apply bst_ordered.
    + pose proof (height_del k t). lia.
Qed.

(** The splice of [DeleteNode]'s zero-or-one-child case releases the node
    and leaves the parent pointer of its child at it. *)
Lemma splice_stale_parent a c s n nc p s' :
  heap s !! a = Some n → heap s !! c = Some nc → parent nc = Some a →
  c ≠ a → splice (Some a) (Some c) s = Ok p s' →
  p = Some c ∧ heap s' !! a = None ∧
  ∃ nc', heap s' !! c = Some nc' ∧ parent nc' = Some a.
Proof.
  intros Hn Hnc Hp Hca HS.
  pose proof (splice_spec a (Some c) s n Hn) as Hsp. rewrite HS in Hsp.
  destruct Hsp as (-> & q & nq & Hq & Hnq & ->).
  split_and!; [done | apply lookup_delete_eq |].
  rewrite lookup_delete_ne by done.
  destruct (decide (c = q)) as [<- | Hcq].
  - rewrite lookup_insert_eq. eexists. split; [done |].
    rewrite Hnc in Hnq. injection Hnq as <-.
    unfold relink. by repeat case_bool_decide.
  - rewrite lookup_insert_ne by done. by exists nc.
Qed.

(** ** The destructor *)

Lemma datas_Br h l a k r :
  datas h (Br l a k r)
  = datas h l ++ from_option (λ d, [d]) [] (h !! a ≫= data) ++ datas h r.
Proof. reflexivity. Qed.

Lemma datas_ext h h' t :
  (∀ a, a ∈ addrs t → h' !! a = h !! a) → datas h' t = datas h t.
Proof.
  induction t as [|l IHl a k r IHr]; simpl; intros He; [done |].
  rewrite IHl, IHr, He; [done | | |]; set_solver.
Qed.

Lemma owned_ext h h' cs cs' t :
  (∀ a, a ∈ addrs t → h' !! a = h !! a) →
  (∀ d, d ∈ datas h t → cs' !! d = cs !! d) →
  owned h cs t → owned h' cs' t.
Proof.
  induction t as [|l IHl a k r IHr]; simpl; [done |].
  intros He Hc ((n & d & Hn & Hd & Hlive) & Hl & Hr).
  rewrite Hn in Hc. simpl in Hc. rewrite Hd in Hc. simpl in Hc. split_and!.
  - exists n, d. rewrite He by set_solver. rewrite Hc by set_solver. done.
  - apply IHl; [| | done]; intros; [apply He | apply Hc]; set_solver.
  - apply IHr; [| | done]; intros; [apply He | apply Hc]; set_solver.
Qed.

Lemma DeleteRecursive_postorder fuel p t s :
  shape (heap s) p t → NoDup (addrs t) → owned (heap s) (cells s) t →
  NoDup (datas (heap s) t) → (height t ≤ fuel)%nat →
  ∃ s', DeleteRecursive fuel p s = Ok tt s' ∧
        released s' = released s ++ postorder t ∧
        (∀ a, a ∈ addrs t → heap s' !! a = None) ∧
        (∀ a, a ∉ addrs t → heap s' !! a = heap s !! a) ∧
        (∀ d, d ∈ datas (heap s) t → cells s' !! d = None) ∧
        (∀ d, d ∉ datas (heap s) t → cells s' !! d = cells s !! d) ∧
        root_ s' = root_ s.
Proof.
  revert p t s. induction fuel as [|fuel IH]; intros p t s Hs Hnd Ho Hdd Hf.
  { destruct t; simpl in *; [| lia]. subst p. exists s.
    rewrite app_nil_r. split_and!; try done; intros ? Hin; by apply elem_of_nil in Hin. }
  destruct t as [|l a k r].
  { simpl in Hs. subst p. exists s. simpl. rewrite app_nil_r.
    split_and!; try done; intros ? Hin; by apply elem_of_nil in Hin. }
  destruct Hs as (-> & n & Hn & Hk & Hl & Hr).
  destruct Ho as ((n' & d & Hn' & Hd & Hlive) & Hol & Hor).
  rewrite Hn in Hn'. injection Hn' as <-.
  simpl in Hnd, Hf. apply Nat.succ_le_mono in Hf.
  apply NoDup_app in Hnd as (Hndl & Hlr & Hndr).
  apply NoDup_cons in Hndr as (Har & Hndr).
  assert (Hal : a ∉ addrs l) by (intros Hin; apply (Hlr _ Hin); by left).
  rewrite datas_Br, Hn in Hdd. simpl in Hdd. rewrite Hd in Hdd. simpl in Hdd.
  apply NoDup_app in Hdd as (Hddl & Hdlr & Hddr).
  apply NoDup_cons in Hddr as (Hdr & Hddr).
  cbn [DeleteRecursive].
  rewrite (bind_Ok _ _ _ _ _ (rd_Ok data _ _ _ Hn)), Hd.
  rewrite (bind_Ok _ _ _ _ _ (rd_Ok left _ _ _ Hn)).
  destruct (IH _ l s Hl Hndl Hol Hddl ltac:(lia))
    as (s1 & HD1 & Hrel1 & Hgone1 & Hfr1 & Hcg1 & Hcf1 & Hroot1).
  rewrite (bind_Ok _ _ _ _ _ HD1).
  assert (Hn1 : heap s1 !! a = Some n) by (by rewrite Hfr1).
  rewrite (bind_Ok _ _ _ _ _ (rd_Ok right _ _ _ Hn1)).
  assert (Hr1 : shape (heap s1) (right n) r).
  { eapply shape_ext; [| exact Hr]. intros y Hy. apply Hfr1.
    intros Hin. apply (Hlr _ Hin). by right. }
  assert (Hdr1 : datas (heap s1) r = datas (heap s) r).
  { apply datas_ext. intros y Hy. apply Hfr1.
    intros Hin. apply (Hlr _ Hin). by right. }
  assert (Hor1 : owned (heap s1) (cells s1) r).
  { eapply owned_ext; [| | exact Hor].
    - intros y Hy. apply Hfr1. intros Hin. apply (Hlr _ Hin). by right.
    - intros y Hy. apply Hcf1. intros Hin. apply (Hdlr _ Hin). by right. }
  destruct (IH _ r s1 Hr1 Hndr Hor1 ltac:(by rewrite Hdr1) ltac:(lia))
    as (s2 & HD2 & Hrel2 & Hgone2 & Hfr2 & Hcg2 & Hcf2 & Hroot2).
  rewrite (bind_Ok _ _ _ _ _ HD2).
  assert (Hn2 : heap s2 !! a = Some n) by (by rewrite Hfr2).
  rewrite (bind_Ok _ _ _ _ _ (rd_Ok data _ _ _ Hn2)), Hd.
  assert (Hlive2 : is_Some (cells s2 !! d)).
  { rewrite Hcf2, Hcf1; [done | |].
    - intros Hin. apply (Hdlr _ Hin). by left.
    - by rewrite Hdr1. }
  destruct Hlive2 as [v Hv].
  unfold bind at 1. unfold delete_int. rewrite Hv.
  set (s3 := set_cells _ s2).
  assert (Hn3 : heap s3 !! a = Some n) by exact Hn2.
  rewrite (bind_Ok _ _ _ _ _ (wr_Ok _ _ _ _ Hn3)).
  unfold delete_node. cbn [heap set_heap]. rewrite lookup_insert_eq.
  eexists. split; [reflexivity |]. cbn [released set_released set_heap heap cells root_ s3 set_cells].
  rewrite Hdr1 in *. split_and!.
  - rewrite Hrel2, Hrel1. simpl. by rewrite <- !app_assoc.
  - intros y Hy. simpl in Hy. rewrite elem_of_app, elem_of_cons in Hy.
    destruct (decide (y = a)) as [-> | Hya]; [apply lookup_delete_eq |].
    rewrite lookup_delete_ne, lookup_insert_ne by done.
    destruct (decide (y ∈ addrs r)) as [Hyr | Hyr]; [by apply Hgone2 |].
    rewrite Hfr2 by done. apply Hgone1. tauto.
  - intros y Hy. simpl in Hy. rewrite elem_of_app, elem_of_cons in Hy.
    rewrite lookup_delete_ne, lookup_insert_ne by (intros ->; tauto).
    rewrite Hfr2, Hfr1; tauto.
  - intros y Hy. rewrite datas_Br, Hn in Hy. simpl in Hy. rewrite Hd in Hy.
    simpl in Hy. rewrite elem_of_app, elem_of_cons in Hy.
    destruct (decide (y = d)) as [-> | Hyd]; [apply lookup_delete_eq |].
    rewrite lookup_delete_ne by done.
    destruct (decide (y ∈ datas (heap s) r)) as [Hyr | Hyr]; [by apply Hcg2 |].
    rewrite Hcf2 by done. apply Hcg1. tauto.
  - intros y Hy. rewrite datas_Br, Hn in Hy. simpl in Hy. rewrite Hd in Hy.
    simpl in Hy. rewrite elem_of_app, elem_of_cons in Hy.
    rewrite lookup_delete_ne by (intros ->; tauto).
    rewrite Hcf2, Hcf1; tauto.
  - by rewrite Hroot2.
Qed.

Lemma postorder_addrs t : postorder t ≡ₚ addrs t.
Proof.
  induction t as [|l IHl a k r IHr]; simpl; [done |].
  rewrite IHl, IHr. apply Permutation_app_head.
  by rewrite <- Permutation_cons_append.
Qed.

(** With a payload of its own at every node, the destructor releases every
    node of the tree, each once, children before their parent. *)
Lemma dtor_postorder fuel s t :
  wf s t → owned (heap s) (cells s) t → NoDup (datas (heap s) t) →
  (height t ≤ fuel)%nat →
  ∃ s', BSTree_dtor fuel s = Ok tt s' ∧
        released s' = released s ++ postorder t ∧
        NoDup (postorder t) ∧ postorder t ≡ₚ addrs t ∧
        (∀ a, a ∈ addrs t → heap s' !! a = None) ∧
        (∀ a, a ∉ addrs t → heap s' !! a = heap s !! a).
Proof.
  intros [Hs Hnd _] Ho Hd Hf.
  destruct (DeleteRecursive_postorder fuel _ t s Hs Hnd Ho Hd Hf)
    as (s' & HD & Hrel & Hgone & Hfr & _).
  exists s'. unfold BSTree_dtor, bind, get. rewrite HD.
  split_and!; try done; [| apply postorder_addrs].
  by rewrite postorder_addrs.
Qed.


(** ** Properties of the specification *)

Lemma wf_empty_tree : wf empty_tree Leaf.
Proof.
  constructor; simpl; [done | constructor |].
  intros a [n Hn]. by rewrite lookup_empty in Hn.
Qed.

(** C6. Inserting pairwise-distinct keys, one [Add] after the other, into an
    empty tree always succeeds (given a budget of at least one step per key
    and a live [int] to report depths through), and the tree it leaves holds
    exactly those keys; an in-order traversal yields them in strictly
    increasing order, which is to say that at every node the keys to the
    left are strictly smaller and the keys to the right strictly greater. *)
Theorem Add_all_inorder_increasing fuel ks c s :
  wf s Leaf → is_Some (cells s !! c) → NoDup ks → (length ks ≤ fuel)%nat →
  ∃ s' t, Add_all fuel ks (Some c) s = Ok tt s' ∧
          wf s' t ∧ keys t ≡ₚ ks ∧
          InOrder fuel (root_ s') s' = Ok (keys t) s' ∧
          StronglySorted Z.lt (keys t) ∧ bst t.
Proof.
  intros Hwf Hc Hnd Hf.
  destruct (Add_all_wf fuel ks c s Leaf Hwf I Hnd) as (s' & t & HA & Hwf' & Hb & Hk & _);
    [intros k _; apply not_elem_of_nil | simpl; lia | done |].
  rewrite app_nil_r in Hk.
  exists s', t. split_and!; try done.
  - apply InOrder_shape; [apply Hwf' |].
    pose proof (height_le_length t). rewrite <- length_keys in H.
    apply Permutation_length in Hk. lia.
  - by apply bst_sorted.
Qed.

Lemma Add_all_inorder_increasing_witness :
  ∃ s' t, Add_all 7 [5; 3; 8; 1; 4; 7; 9] (Some 1%positive) empty_tree = Ok tt s' ∧
          wf s' t ∧ keys t ≡ₚ [5; 3; 8; 1; 4; 7; 9] ∧
          InOrder 7 (root_ s') s' = Ok (keys t) s' ∧
          StronglySorted Z.lt (keys t) ∧ bst t.
Proof.
  apply (Add_all_inorder_increasing 7 [5; 3; 8; 1; 4; 7; 9] 1%positive empty_tree).
  - apply wf_empty_tree.
  - by eexists.
  - compute_done.
  - simpl. lia.
Defined.

(** C8. [Find] is a three-way descent: at a node holding the key it returns
    that node, for a smaller key it continues to the left, for a greater key
    to the right, and at [nullptr] it returns [nullptr].  On every tree
    ordered the way [Add] orders it (smaller keys left, the others right),
    [Find] returns a node holding [k] for every key [k] the tree holds and
    returns [nullptr], without a fault, for every key it does not hold. *)
Theorem Find_descent fuel k s t :
  shape (heap s) (root_ s) t → ordered t → (height t ≤ fuel)%nat →
  (∀ f a n, heap s !! a = Some n →
     FindRecurse (S f) k (Some a) s
     = if key n =? k then Ok (Some a) s
       else if k <? key n then FindRecurse f k (left n) s
       else FindRecurse f k (right n) s) ∧
  (∀ f, FindRecurse f k None s = Ok None s) ∧
  (k ∈ keys t →
   ∃ a n, Find fuel k s = Ok (Some a) s ∧ a ∈ addrs t ∧
          heap s !! a = Some n ∧ key n = k) ∧
  (k ∉ keys t → Find fuel k s = Ok None s).
Proof.
  intros Hs Ho Hf. split; [| split; [| by apply Find_ordered]].
  - intros f a n Hn. cbn [FindRecurse].
    rewrite (bind_Ok _ _ _ _ _ (rd_Ok key _ _ _ Hn)).
    destruct (key n =? k) eqn:E1; [done |].
    destruct (k <? key n) eqn:E2.
    + by rewrite (bind_Ok _ _ _ _ _ (rd_Ok left _ _ _ Hn)).
    + assert ((key n <? k) = true) as -> by lia.
      by rewrite (bind_Ok _ _ _ _ _ (rd_Ok right _ _ _ Hn)).
  - by intros [|f].
Qed.

Lemma Find_descent_witness :
  (∀ f a n, heap (tree_with [5; 3; 8]) !! a = Some n →
     FindRecurse (S f) 3 (Some a) (tree_with [5; 3; 8])
     = if key n =? 3 then Ok (Some a) (tree_with [5; 3; 8])
       else if 3 <? key n then FindRecurse f 3 (left n) (tree_with [5; 3; 8])
       else FindRecurse f 3 (right n) (tree_with [5; 3; 8])) ∧
  (∀ f, FindRecurse f 3 None (tree_with [5; 3; 8])
        = Ok None (tree_with [5; 3; 8])) ∧
  (3 ∈ keys (Br (Br Leaf 2 3 Leaf) 1 5 (Br Leaf 3 8 Leaf)) →
   ∃ a n, Find 2 3 (tree_with [5; 3; 8]) = Ok (Some a) (tree_with [5; 3; 8]) ∧
          a ∈ addrs (Br (Br Leaf 2 3 Leaf) 1 5 (Br Leaf 3 8 Leaf)) ∧
          heap (tree_with [5; 3; 8]) !! a = Some n ∧ key n = 3) ∧
  (3 ∉ keys (Br (Br Leaf 2 3 Leaf) 1 5 (Br Leaf 3 8 Leaf)) →
   Find 2 3 (tree_with [5; 3; 8]) = Ok None (tree_with [5; 3; 8])).
Proof.
  apply (Find_descent 2 3 (tree_with [5; 3; 8])
           (Br (Br Leaf 2 3 Leaf) 1 5 (Br Leaf 3 8 Leaf))).
  - apply (shape_tree_of _ _ _ 2). vm_compute. reflexivity.
  - simpl. repeat split; repeat constructor; lia.
  - simpl. lia.
Defined.

(** C9. [DeleteKey] of a key the tree does not hold returns [false] and
    leaves the state as it was: [Size()], what [Print] walks and what
    [MaxDepth] computes are the same before and after. *)
Theorem DeleteKey_absent fuel k s t :
  shape (heap s) (root_ s) t → (height t ≤ fuel)%nat → k ∉ keys t →
  ∃ s', DeleteKey fuel k s = Ok false s' ∧ s' = s ∧
        Size s' = Size s ∧
        (∀ f p, Print f p s' = Print f p s) ∧
        (∀ f, MaxDepth f s' = MaxDepth f s).
Proof.
  intros Hs Hf Hk. exists s. split; [| done].
  unfold DeleteKey, Find, bind, get.
  rewrite (FindRecurse_shape fuel k _ t s Hs Hf).
  by rewrite lookup_tree_absent.
Qed.

Lemma DeleteKey_absent_witness :
  ∃ s', DeleteKey 3 6 (tree_with [5; 3; 8]) = Ok false s' ∧
        s' = tree_with [5; 3; 8] ∧
        Size s' = Size (tree_with [5; 3; 8]) ∧
        (∀ f p, Print f p s' = Print f p (tree_with [5; 3; 8])) ∧
        (∀ f, MaxDepth f s' = MaxDepth f (tree_with [5; 3; 8])).
Proof.
  apply (DeleteKey_absent 3 6 (tree_with [5; 3; 8])
           (Br (Br Leaf 2 3 Leaf) 1 5 (Br Leaf 3 8 Leaf))).
  - apply (shape_tree_of _ _ _ 3). vm_compute. reflexivity.
  - simpl. lia.
  - compute_done.
Defined.

(** C10. On the empty tree [Add] writes [*depth = 1] without testing
    [depth]: with a live [int] it stores 1, with [nullptr] it faults on a
    null write.  On a non-empty tree the write is under [if (depth)]: with
    [nullptr] the call completes and writes no [int], with a live [int] it
    stores the depth of the new node. *)
Theorem Add_depth_pointer fuel k depth s t :
  wf s t → (height t ≤ fuel)%nat →
  match depth with Some c => is_Some (cells s !! c) | None => True end →
  match t, depth with
  | Leaf, None => Add fuel k depth s = Fault NullDeref
  | Leaf, Some c =>
    ∃ s', Add fuel k depth s = Ok (Some (brk s)) s' ∧
          cells s' = <[c := 1]> (cells s)
  | Br _ _ _ _, None =>
    ∃ s', Add fuel k depth s = Ok (Some (brk s)) s' ∧ cells s' = cells s
  | Br _ _ _ _, Some c =>
    ∃ s', Add fuel k depth s = Ok (Some (brk s)) s' ∧
          cells s' = <[c := Z.of_nat (plen k t) + 1]> (cells s)
  end.
Proof.
  intros Hwf Hf Hd. destruct t as [|l a x r] eqn:Et.
  - destruct depth as [c|].
    + destruct (Add_empty_wf fuel k c s Hwf Hd) as (s' & ? & _ & _ & _ & ?).
      by exists s'.
    + apply Add_empty_null, Hwf.
  - rewrite <- Et in *.
    destruct (Add_nonempty fuel k depth s t Hwf ltac:(by subst t) Hf Hd)
      as (s' & HA & _ & _ & _ & Hc & _).
    destruct depth as [c|]; by exists s'.
Qed.

Lemma wf_tree_with_5 : wf (tree_with [5]) (Br Leaf 1 5 Leaf).
Proof.
  constructor.
  - apply (shape_tree_of _ _ _ 1). vm_compute. reflexivity.
  - compute_done.
  - intros a [n Hn]. destruct (decide (a = 1%positive)) as [-> | Hne]; [done |].
    change (heap (tree_with [5])) with (<[1%positive := Node_ctor 5]> (∅ : gmap positive Node)) in Hn.
    rewrite lookup_insert_ne, lookup_empty in Hn; done.
Qed.

Lemma Add_depth_pointer_witness :
  Add 1 7 None empty_tree = Fault NullDeref ∧
  ∃ s', Add 1 7 None (tree_with [5]) = Ok (Some (brk (tree_with [5]))) s' ∧
        cells s' = cells (tree_with [5]).
Proof.
  split.
  - apply (Add_depth_pointer 1 7 None empty_tree Leaf);
      [apply wf_empty_tree | simpl; lia | exact I].
  - apply (Add_depth_pointer 1 7 None (tree_with [5]) (Br Leaf 1 5 Leaf));
      [apply wf_tree_with_5 | simpl; lia | exact I].
Defined.

(** C1, as the claim states it, fails: on the tree holding only the key 5,
    [Add] of 5 does not fail; it returns a fresh node, the store and the
    tree change (a second node with key 5 hangs to the right of the first),
    and [size_] goes from 0 to 1. *)
Lemma Add_duplicate_not_rejected :
  wf (tree_with [5]) (Br Leaf 1 5 Leaf) ∧ 5 ∈ keys (Br Leaf 1 5 Leaf) ∧
  ∃ s', Add 1 5 (Some 1%positive) (tree_with [5]) = Ok (Some 2%positive) s' ∧
        tree_of 2 (heap s') (root_ s')
        = Some (Br Leaf 1 5 (Br Leaf 2 5 Leaf)) ∧
        heap s' ≠ heap (tree_with [5]) ∧
        size_ (tree_with [5]) = 0 ∧ size_ s' = 1.
Proof.
  split; [apply wf_tree_with_5 |]. split; [compute_done |].
  exists (exec (Add 1 5 (Some 1%positive)) (tree_with [5])).
  split_and!; try (vm_compute; reflexivity).
  intros H. apply (f_equal (λ h, h !! 2%positive)) in H. vm_compute in H. done.
Qed.

(** C1, amended. [Add] of a key the tree already holds succeeds: it returns
    a node at a fresh address, linked into the tree where [ins] puts it (a
    leaf, to the right of the equal keys on its path), so that the tree holds
    the key once more and has one more node; [size_] and [nodeTot_] each
    grow by one. *)
Theorem Add_duplicate fuel k depth s t :
  wf s t → k ∈ keys t → (height t ≤ fuel)%nat →
  match depth with Some c => is_Some (cells s !! c) | None => True end →
  0 ≤ size_ s →
  ∃ s', Add fuel k depth s = Ok (Some (brk s)) s' ∧
        heap s !! brk s = None ∧
        wf s' (ins k (brk s) t) ∧
        keys (ins k (brk s) t) ≡ₚ k :: keys t ∧
        addrs (ins k (brk s) t) ≡ₚ brk s :: addrs t ∧
        (ordered t → ordered (ins k (brk s) t)) ∧
        size_ s' = size_ s + 1 ∧ nodeTot_ s' = nodeTot_ s + 1.
Proof.
  intros Hwf Hk Hf Hd Hsz.
  assert (Hne : t ≠ Leaf) by (intros ->; by apply elem_of_nil in Hk).
  destruct (Add_nonempty fuel k depth s t Hwf Hne Hf Hd)
    as (s' & HA & Hwf' & Hsize & Htot & _).
  exists s'. split_and!; try done.
  - destruct (heap s !! brk s) eqn:E; [| done].
    assert (brk s < brk s)%positive by (apply Hwf; by eexists). lia.
  - apply keys_ins.
  - apply addrs_ins.
  - apply ordered_ins.
  - rewrite Hsize. by assert ((0 <? size_ s + 1) = true) as -> by lia.
Qed.

Lemma Add_duplicate_witness :
  ∃ s', Add 1 5 (Some 1%positive) (tree_with [5])
        = Ok (Some (brk (tree_with [5]))) s' ∧
        heap (tree_with [5]) !! brk (tree_with [5]) = None ∧
        wf s' (ins 5 (brk (tree_with [5])) (Br Leaf 1 5 Leaf)) ∧
        keys (ins 5 (brk (tree_with [5])) (Br Leaf 1 5 Leaf))
        ≡ₚ 5 :: keys (Br Leaf 1 5 Leaf) ∧
        addrs (ins 5 (brk (tree_with [5])) (Br Leaf 1 5 Leaf))
        ≡ₚ brk (tree_with [5]) :: addrs (Br Leaf 1 5 Leaf) ∧
        (ordered (Br Leaf 1 5 Leaf) →
         ordered (ins 5 (brk (tree_with [5])) (Br Leaf 1 5 Leaf))) ∧
        size_ s' = size_ (tree_with [5]) + 1 ∧
        nodeTot_ s' = nodeTot_ (tree_with [5]) + 1.
Proof.
  apply (Add_duplicate 1 5 (Some 1%positive) (tree_with [5]) (Br Leaf 1 5 Leaf)).
  - apply wf_tree_with_5.
  - compute_done.
  - simpl. lia.
  - by eexists.
  - vm_compute. discriminate.
Defined.

(** C2 fails at the very first insertion: [Add] on a tree just constructed
    returns the new node, which is then the one node reachable from
    [root_], while [size_] is still 0. *)
Theorem Add_first_keeps_size fuel k c s :
  (∀ a, is_Some (heap s !! a) → (a < brk s)%positive) →
  is_Some (cells s !! c) →
  ∃ s', Add fuel k (Some c) (BSTree_ctor s) = Ok (Some (brk s)) s' ∧
        wf s' (Br Leaf (brk s) k Leaf) ∧
        length (addrs (Br Leaf (brk s) k Leaf)) = 1%nat ∧
        size_ s' = 0.
Proof.
  intros Hbrk Hc.
  assert (Hwf : wf (BSTree_ctor s) Leaf) by (constructor; [done | constructor | done]).
  destruct (Add_empty_wf fuel k c (BSTree_ctor s) Hwf Hc) as (s' & HA & Hwf' & Hsz & _).
  exists s'. by split_and!.
Qed.

Lemma Add_first_keeps_size_witness :
  ∃ s', Add 1 5 (Some 1%positive) (BSTree_ctor empty_tree)
        = Ok (Some (brk empty_tree)) s' ∧
        wf s' (Br Leaf (brk empty_tree) 5 Leaf) ∧
        length (addrs (Br Leaf (brk empty_tree) 5 Leaf)) = 1%nat ∧
        size_ s' = 0.
Proof.
  apply (Add_first_keeps_size 1 5 1%positive empty_tree).
  - apply wf_empty_tree.
  - by eexists.
Defined.

(** C3 fails on the size: in the tree built from 5, 3, 8, 1, 4, 7, 9,
    [DeleteKey] of 5 returns [true], after which [Find] of 5 returns
    [nullptr] and the in-order keys are 1, 3, 4, 7, 8, 9; but [Size()] is 6
    before the call and still 6 after it. *)
Theorem DeleteKey_size_unchanged :
  ∃ s', DeleteKey 7 5 (tree_with [5; 3; 8; 1; 4; 7; 9]) = Ok true s' ∧
        Find 7 5 s' = Ok None s' ∧
        InOrder 7 (root_ s') s' = Ok [1; 3; 4; 7; 8; 9] s' ∧
        Size (tree_with [5; 3; 8; 1; 4; 7; 9]) = 6 ∧
        Size s' = 6.
Proof.
  exists (exec (DeleteKey 7 5) (tree_with [5; 3; 8; 1; 4; 7; 9])).
  split_and!; vm_compute; reflexivity.
Qed.

(** C4 fails: when the root has at most one child and, as a root does, no
    parent, [DeleteKey] of the root's key dereferences the null parent
    ([node->parent->left]) and faults; nothing is relinked. *)
Theorem DeleteKey_root_null_parent fuel s l a k r n :
  shape (heap s) (root_ s) (Br l a k r) → heap s !! a = Some n →
  parent n = None → l = Leaf ∨ r = Leaf →
  DeleteKey (S fuel) k s = Fault NullDeref.
Proof.
  intros Hs Hn Hp Hlr. destruct Hs as (Hroot & n' & Hn' & Hk & Hl & Hr).
  rewrite Hn in Hn'. injection Hn' as <-.
  assert (HF : Find (S fuel) k s = Ok (Some a) s).
  { unfold Find, bind at 1, get. rewrite Hroot. cbn [FindRecurse].
    by rewrite (bind_Ok _ _ _ _ _ (rd_Ok key _ _ _ Hn)), Hk, Z.eqb_refl. }
  unfold DeleteKey. rewrite (bind_Ok _ _ _ _ _ HF).
  assert (HD : DeleteNode (S fuel) (Some a) k s = Fault NullDeref);
    [| by unfold bind; rewrite HD].
  cbn [DeleteNode].
  rewrite (bind_Ok _ _ _ _ _ (rd_Ok key _ _ _ Hn)), Hk, Z.ltb_irrefl.
  rewrite (bind_Ok _ _ _ _ _ (rd_Ok left _ _ _ Hn)).
  assert (Hsp : ∀ succ, splice (Some a) succ s = Fault NullDeref).
  { intros succ. unfold splice.
    rewrite (bind_Ok _ _ _ _ _ (rd_Ok parent _ _ _ Hn)), Hp. done. }
  destruct (left n) as [la|] eqn:El.
  - destruct Hlr as [-> | ->]; [done |]. simpl in Hr.
    rewrite (bind_Ok _ _ _ _ _ (rd_Ok right _ _ _ Hn)), Hr.
    rewrite (bind_Ok _ _ _ _ _ (rd_Ok left _ _ _ Hn)). by rewrite Hsp.
  - rewrite (bind_Ok _ _ _ _ _ (rd_Ok right _ _ _ Hn)). by rewrite Hsp.
Qed.

Lemma DeleteKey_root_null_parent_witness :
  DeleteKey 3 1 (tree_with [1; 2; 3]) = Fault NullDeref.
Proof.
  apply (DeleteKey_root_null_parent 2 (tree_with [1; 2; 3]) Leaf 1%positive 1
           (Br Leaf 2 2 (Br Leaf 3 3 Leaf)) (mkNode 1 None None (Some 2%positive) None)).
  - apply (shape_tree_of _ _ _ 3). vm_compute. reflexivity.
  - vm_compute. reflexivity.
  - reflexivity.
  - by left.
Defined.

(** C5 fails: in the chain built from 5, 3, 2, [DeleteKey] of 3 (a node
    with one child) links node 2 below node 5 and releases node 3, but node
    2 keeps its parent pointer to the released node 3; the next
    [DeleteKey] of 2 dereferences that dangling pointer. *)
Theorem DeleteKey_stale_parent :
  ∃ s', DeleteKey 3 3 (tree_with [5; 3; 2]) = Ok true s' ∧
        tree_of 3 (heap (tree_with [5; 3; 2])) (root_ (tree_with [5; 3; 2]))
        = Some (Br (Br (Br Leaf 3 2 Leaf) 2 3 Leaf) 1 5 Leaf) ∧
        tree_of 3 (heap s') (root_ s') = Some (Br (Br Leaf 3 2 Leaf) 1 5 Leaf) ∧
        heap s' !! 3%positive = Some (mkNode 2 None None None (Some 2%positive)) ∧
        heap s' !! 2%positive = None ∧
        released s' = [2%positive] ∧
        DeleteKey 3 2 s' = Fault (Dangling 2).
Proof.
  exists (exec (DeleteKey 3 3) (tree_with [5; 3; 2])).
  split_and!; vm_compute; reflexivity.
Qed.

(** C7 fails: [DeleteRecursive] returns at once at a node with no payload
    ([data == nullptr]), releasing neither the node nor anything below it;
    when that node is the root, the destructor releases nothing at all: the
    state, and with it the log of released nodes, is as before. *)
Theorem dtor_skips_null_payload fuel s a n :
  heap s !! a = Some n → data n = None →
  DeleteRecursive (S fuel) (Some a) s = Ok tt s ∧
  (root_ s = Some a → BSTree_dtor (S fuel) s = Ok tt s).
Proof.
  intros Hn Hd.
  assert (HD : DeleteRecursive (S fuel) (Some a) s = Ok tt s).
  { cbn [DeleteRecursive].
    by rewrite (bind_Ok _ _ _ _ _ (rd_Ok data _ _ _ Hn)), Hd. }
  split; [done |]. intros Hroot.
  unfold BSTree_dtor, bind at 1, get. by rewrite Hroot.
Qed.

Lemma dtor_skips_null_payload_witness :
  DeleteRecursive 3 (Some 1%positive) (tree_with [5; 3; 8])
  = Ok tt (tree_with [5; 3; 8]) ∧
  (root_ (tree_with [5; 3; 8]) = Some 1%positive →
   BSTree_dtor 3 (tree_with [5; 3; 8]) = Ok tt (tree_with [5; 3; 8])).
Proof.
  apply (dtor_skips_null_payload 2 (tree_with [5; 3; 8]) 1%positive
           (mkNode 5 None (Some 2%positive) (Some 3%positive) None)).
  - vm_compute. reflexivity.
  - reflexivity.
Defined.

(** ** Find, on any store *)

Lemma shape_scenario :
  shape (heap (tree_with scenario)) (root_ (tree_with scenario)) scenario_tree.
Proof. apply (shape_tree_of _ _ _ 3). vm_compute. reflexivity. Qed.


Lemma rd_inv {A} (f : Node → A) p s v s' :
  rd f p s = Ok v s' →
  ∃ a n, p = Some a ∧ heap s !! a = Some n ∧ v = f n ∧ s' = s.
Proof.
  destruct p as [a|]; [| done]. unfold rd, bind, deref.
  destruct (heap s !! a) as [n|] eqn:Hn; [| done].
  intros [= <- <-]. by exists a, n.
Qed.

Lemma FindRecurse_key fuel k p s q s' :
  FindRecurse fuel k p s = Ok q s' →
  s' = s ∧ ∀ a, q = Some a → ∃ n, heap s !! a = Some n ∧ key n = k.
Proof.
  revert p. induction fuel as [|fuel IH]; intros [a|]; cbn [FindRecurse];
    try (intros [= <- <-]; by split); try done.
  intros (nk & s1 & (a' & n & [= <-] & Hn & -> & ->)%rd_inv & H)%bind_inv.
  destruct (key n =? k) eqn:E.
  { injection H as <- <-. split; [done |]. intros a' [= <-]. exists n.
    split; [done | lia]. }
  destruct (k <? key n).
  { apply bind_inv in H as (l & s1 & (? & ? & _ & _ & _ & ->)%rd_inv & H).
    by apply IH in H. }
  destruct (key n <? k).
  { apply bind_inv in H as (l & s1 & (? & ? & _ & _ & _ & ->)%rd_inv & H).
    by apply IH in H. }
  injection H as <- <-. by split.
Qed.

(** X1. [Find] only reads: when it returns, the state is as it was, and
    the node it returns, if any, is live and holds the key looked for.
    This needs no assumption on the store: not that it is a tree, nor that
    it is ordered. *)
Theorem Find_reads_only fuel k s p s' :
  Find fuel k s = Ok p s' →
  s' = s ∧ ∀ a, p = Some a → ∃ n, heap s !! a = Some n ∧ key n = k.
Proof. unfold Find, bind, get. apply FindRecurse_key. Qed.

Lemma Find_reads_only_witness :
  exec (Find 3 8) (tree_with [5; 3; 8]) = tree_with [5; 3; 8] ∧
  ∀ a, Some 3%positive = Some a →
       ∃ n, heap (tree_with [5; 3; 8]) !! a = Some n ∧ key n = 8.
Proof.
  apply (Find_reads_only 3 8 (tree_with [5; 3; 8]) (Some 3%positive)
           (exec (Find 3 8) (tree_with [5; 3; 8]))).
  vm_compute. reflexivity.
Defined.

(** ** MaxDepth and Print *)

Lemma set_console_console s : set_console (console s) s = s.
Proof. by destruct s. Qed.

Lemma set_console_twice l l' s :
  set_console l' (set_console l s) = set_console l' s.
Proof. done. Qed.

Lemma height_pos l a k r : (1 ≤ height (Br l a k r))%nat.
Proof. simpl. lia. Qed.

Lemma MaxDepthRecurse_shape fuel : ∀ l a k r d m s,
  shape (heap s) (Some a) (Br l a k r) →
  (height (Br l a k r) ≤ fuel)%nat →
  MaxDepthRecurse fuel (Some a) d m s =
  Ok (Z.max m (d + Z.of_nat (height (Br l a k r)) - 1))
     (set_console
        (console s ++ (DepthLine <$> leaf_depths (Br l a k r) d)) s).
Proof.
  induction fuel as [|fuel IH]; intros l a k r d m s Hs Hf;
    [simpl in Hf; lia |].
  pose proof Hs as (_ & n & Hn & Hk & Hl & Hr).
  cbn [MaxDepthRecurse].
  rewrite (bind_Ok _ _ _ _ _ (rd_Ok left _ _ _ Hn)).
  destruct l as [|ll la lk lr].
  - simpl in Hl. rewrite Hl.
    assert ((r0 <- rd right (Some a) ;; ret (bool_decide (r0 = None))) s
            = Ok (bool_decide (right n = None)) s) as Ht
      by (by rewrite (bind_Ok _ _ _ _ _ (rd_Ok right _ _ _ Hn))).
    rewrite (bind_Ok _ _ _ _ _ Ht). clear Ht.
    destruct r as [|rl ra rk rr].
    + simpl in Hr. rewrite Hr. simpl. unfold bind, printf, modify, ret.
      f_equal. destruct (m <? d) eqn:E; lia.
    + pose proof Hr as (Hra & _). rewrite Hra.
      rewrite bool_decide_eq_false_2 by done. cbn iota.
      rewrite (bind_Ok _ _ _ _ _ (rd_Ok left _ _ _ Hn)), Hl.
      unfold bind at 1, ret at 1.
      rewrite (bind_Ok _ _ _ _ _ (rd_Ok right _ _ _ Hn)), Hra.
      rewrite (bind_Ok _ _ _ _ _ (rd_Ok right _ _ _ Hn)), Hra.
      rewrite Hra in Hr. rewrite (IH _ _ _ _ _ _ _ Hr) by (simpl in *; lia).
      f_equal. simpl height in *. lia.
  - pose proof Hl as (Hla & _). rewrite Hla.
    unfold bind at 1, ret at 1. cbn iota.
    rewrite (bind_Ok _ _ _ _ _ (rd_Ok left _ _ _ Hn)), Hla.
    assert ((l0 <- rd left (Some a) ;; MaxDepthRecurse fuel l0 (d + 1) m) s
            = MaxDepthRecurse fuel (Some la) (d + 1) m s) as Ht
      by (by rewrite (bind_Ok _ _ _ _ _ (rd_Ok left _ _ _ Hn)), Hla).
    rewrite Hla in Hl.
    rewrite (IH _ _ _ _ (d + 1) m _ Hl ltac:(simpl in *; lia)) in Ht.
    rewrite (bind_Ok _ _ _ _ _ Ht). clear Ht.
    set (s1 := set_console _ s).
    assert (heap s1 !! a = Some n) as Hn1 by done.
    rewrite (bind_Ok _ _ _ _ _ (rd_Ok right _ _ _ Hn1)).
    destruct r as [|rl ra rk rr].
    + simpl in Hr. rewrite Hr. unfold ret, s1. f_equal.
      * simpl height in *. lia.
      * cbn [leaf_depths]. by rewrite app_nil_r.
    + pose proof Hr as (Hra & _). rewrite Hra.
      rewrite (bind_Ok _ _ _ _ _ (rd_Ok right _ _ _ Hn1)), Hra.
      rewrite Hra in Hr.
      rewrite (IH _ _ _ _ _ _ s1 Hr) by (simpl in *; lia).
      unfold s1. rewrite set_console_twice. cbn [console set_console].
      f_equal.
      * simpl height in *. lia.
      * cbn [leaf_depths]. by rewrite fmap_app, app_assoc.
Qed.

(** [MaxDepth] on the tree the root leads to. *)
Lemma MaxDepth_height fuel s t :
  shape (heap s) (root_ s) t → (height t ≤ fuel)%nat →
  MaxDepth fuel s =
  Ok (Z.of_nat (Nat.pred (height t)))
     (set_console (console s ++ (DepthLine <$> leaf_depths t 0)) s).
Proof.
  intros Hs Hf. unfold MaxDepth, bind, get.
  destruct t as [|l a k r].
  - simpl in Hs. rewrite Hs. simpl. unfold ret.
    by rewrite app_nil_r, set_console_console.
  - pose proof Hs as (Hr & _). rewrite Hr in *.
    rewrite (MaxDepthRecurse_shape _ _ _ _ _ _ _ _ Hs Hf).
    f_equal. simpl height. lia.
Qed.

Lemma leaf_depths_height t d :
  t ≠ Leaf →
  Forall (λ x, x ≤ d + Z.of_nat (height t) - 1) (leaf_depths t d) ∧
  d + Z.of_nat (height t) - 1 ∈ leaf_depths t d.
Proof.
  revert d. induction t as [|l IHl a k r IHr]; intros d Ht; [done |].
  destruct l as [|ll la lk lr], r as [|rl ra rk rr].
  - simpl. split; [apply Forall_singleton; lia |]. replace (d + Z.of_nat 1 - 1) with d by lia. by left.
  - destruct (IHr (d + 1) ltac:(done)) as [HF Hin].
    change (leaf_depths (Br Leaf a k (Br rl ra rk rr)) d)
      with (leaf_depths (Br rl ra rk rr) (d + 1)).
    replace (d + Z.of_nat (height (Br Leaf a k (Br rl ra rk rr))) - 1)
      with (d + 1 + Z.of_nat (height (Br rl ra rk rr)) - 1)
      by (simpl height; lia).
    done.
  - destruct (IHl (d + 1) ltac:(done)) as [HF Hin].
    change (leaf_depths (Br (Br ll la lk lr) a k Leaf) d)
      with (leaf_depths (Br ll la lk lr) (d + 1) ++ []).
    rewrite app_nil_r.
    replace (d + Z.of_nat (height (Br (Br ll la lk lr) a k Leaf)) - 1)
      with (d + 1 + Z.of_nat (height (Br ll la lk lr)) - 1)
      by (simpl height; lia).
    done.
  - destruct (IHl (d + 1) ltac:(done)) as [HFl Hinl].
    destruct (IHr (d + 1) ltac:(done)) as [HFr Hinr].
    change (leaf_depths (Br (Br ll la lk lr) a k (Br rl ra rk rr)) d)
      with (leaf_depths (Br ll la lk lr) (d + 1) ++
            leaf_depths (Br rl ra rk rr) (d + 1)).
    set (hl := height (Br ll la lk lr)) in *.
    set (hr := height (Br rl ra rk rr)) in *.
    change (height (Br (Br ll la lk lr) a k (Br rl ra rk rr)))
      with (S (Nat.max hl hr)).
    split.
    + apply Forall_app. split.
      * eapply Forall_impl; [exact HFl |]. intros x Hx. simpl in Hx. lia.
      * eapply Forall_impl; [exact HFr |]. intros x Hx. simpl in Hx. lia.
    + apply elem_of_app. destruct (Nat.le_ge_cases hl hr).
      * right. replace (d + Z.of_nat (S (Nat.max hl hr)) - 1)
          with (d + 1 + Z.of_nat hr - 1) by lia. done.
      * left. replace (d + Z.of_nat (S (Nat.max hl hr)) - 1)
          with (d + 1 + Z.of_nat hl - 1) by lia. done.
Qed.

Lemma Print_from_shape fuel : ∀ l a k r s,
  shape (heap s) (Some a) (Br l a k r) →
  (height (Br l a k r) ≤ fuel)%nat →
  Print_from fuel (Some a) s =
  Ok tt (set_console (console s ++ node_lines (heap s) (Br l a k r)) s).
Proof.
  induction fuel as [|fuel IH]; intros l a k r s Hs Hf;
    [simpl in Hf; lia |].
  pose proof Hs as (_ & n & Hn & Hk & Hl & Hr).
  cbn [Print_from node_lines]. rewrite Hn. cbn [from_option].
  assert (deref (Some a) s = Ok (a, n) s) as Hd
    by (unfold deref; by rewrite Hn).
  rewrite (bind_Ok _ _ _ _ _ Hd). cbn [fst snd].
  unfold bind at 1, printf at 1, modify at 1.
  set (s1 := set_console _ s).
  assert (heap s1 !! a = Some n) as Hn1 by done.
  rewrite (bind_Ok _ _ _ _ _ (rd_Ok left _ _ _ Hn1)).
  assert (∃ s2, (if left n is Some _ then Print_from fuel (left n)
                 else ret tt) s1 = Ok tt s2 ∧
                s2 = set_console (console s1 ++ node_lines (heap s) l) s)
    as (s2 & Hs2 & Es2).
  { destruct l as [|ll la lk lr].
    - simpl in Hl. rewrite Hl. eexists. split; [done |].
      unfold s1. cbn [node_lines console set_console].
      by rewrite app_nil_r.
    - pose proof Hl as (Hla & _). rewrite Hla. rewrite Hla in Hl.
      eexists. split; [apply (IH _ _ _ _ s1 Hl); simpl in *; lia |].
      done. }
  rewrite (bind_Ok _ _ _ _ _ Hs2).
  assert (heap s2 !! a = Some n) as Hn2 by by subst s2.
  rewrite (bind_Ok _ _ _ _ _ (rd_Ok right _ _ _ Hn2)).
  destruct r as [|rl ra rk rr].
  - simpl in Hr. rewrite Hr. unfold ret. f_equal. subst s2 s1.
    cbn [node_lines console set_console]. f_equal.
    rewrite ?Hr, app_nil_r, <- app_assoc. done.
  - pose proof Hr as (Hra & _). rewrite Hra. rewrite Hra in Hr.
    assert (shape (heap s2) (Some ra) (Br rl ra rk rr)) as Hr2 by by subst s2.
    rewrite (IH _ _ _ _ s2 Hr2) by (simpl in *; lia).
    f_equal. subst s2 s1. unfold set_console. simpl. f_equal.
    rewrite ?Hra, <- !app_assoc. done.
Qed.

Lemma node_lines_preorder h p t :
  shape h p t → omap line_addr (node_lines h t) = preorder t.
Proof.
  revert p. induction t as [|l IHl a k r IHr]; intros p Hs; [done |].
  destruct Hs as (_ & n & Hn & _ & Hl & Hr).
  cbn [node_lines preorder]. rewrite Hn. cbn [from_option].
  rewrite !omap_app. simpl. f_equal.
  by rewrite (IHl _ Hl), (IHr _ Hr).
Qed.

(** X2. [MaxDepth] returns the number of edges on the longest path from the
    root to a leaf, and 0 for the empty tree.  It prints the depth of every
    leaf, left to right, and changes nothing else.  No leaf is deeper than
    the value returned, and in a tree that is not empty some leaf is at that
    depth. *)
Theorem MaxDepth_longest_path fuel s t :
  shape (heap s) (root_ s) t → (height t ≤ fuel)%nat →
  MaxDepth fuel s =
    Ok (Z.of_nat (Nat.pred (height t)))
       (set_console (console s ++ (DepthLine <$> leaf_depths t 0)) s) ∧
  Forall (λ d, d ≤ Z.of_nat (Nat.pred (height t))) (leaf_depths t 0) ∧
  (t ≠ Leaf → Z.of_nat (Nat.pred (height t)) ∈ leaf_depths t 0).
Proof.
  intros Hs Hf. split; [by apply MaxDepth_height |].
  destruct t as [|l a k r]; [split; [constructor | done] |].
  destruct (leaf_depths_height (Br l a k r) 0 ltac:(done)) as [HF Hin].
  replace (Z.of_nat (Nat.pred (height (Br l a k r))))
    with (0 + Z.of_nat (height (Br l a k r)) - 1) by (simpl height; lia).
  done.
Qed.

Lemma MaxDepth_longest_path_witness :
  MaxDepth 3 (tree_with scenario) =
    Ok 2 (set_console (DepthLine <$> [2; 2; 2; 2]) (tree_with scenario)) ∧
  Forall (λ d, d ≤ 2) [2; 2; 2; 2] ∧
  (scenario_tree ≠ Leaf → 2 ∈ [2; 2; 2; 2]).
Proof.
  apply (MaxDepth_longest_path 3 (tree_with scenario) scenario_tree).
  - apply shape_scenario.
  - simpl. lia.
Defined.

(** X3. [Print] walks the tree in pre-order: it prints one line for every
    node, a node before the nodes of its left subtree and those before the
    nodes of its right subtree, each line showing the node's address, key,
    parent, left and right pointers as they are in the store.  Called with
    [nullptr] it starts at the root, and prints nothing for an empty tree;
    called with a node it prints the subtree of that node.  It changes
    nothing but the console. *)
Theorem Print_preorder fuel s node t :
  shape (heap s) (if node is Some _ then node else root_ s) t →
  (height t ≤ fuel)%nat →
  Print fuel node s =
    Ok tt (set_console (console s ++ node_lines (heap s) t) s) ∧
  omap line_addr (node_lines (heap s) t) = preorder t.
Proof.
  intros Hs Hf. split; [| by eapply node_lines_preorder].
  unfold Print. destruct node as [a|].
  - destruct t as [|l a' k r]; [done |].
    pose proof Hs as ([= <-] & _). by apply Print_from_shape.
  - unfold bind, get. destruct t as [|l a k r].
    + simpl in Hs. rewrite Hs. simpl. unfold ret.
      by rewrite app_nil_r, set_console_console.
    + pose proof Hs as (Hr & _). rewrite Hr in *.
      by apply Print_from_shape.
Qed.

Lemma Print_preorder_witness :
  Print 3 None (tree_with scenario) =
    Ok tt (set_console
             [NodeLine 1 5 None (Some 2%positive) (Some 3%positive);
              NodeLine 2 3 (Some 1%positive) (Some 4%positive) (Some 5%positive);
              NodeLine 4 1 (Some 2%positive) None None;
              NodeLine 5 4 (Some 2%positive) None None;
              NodeLine 3 8 (Some 1%positive) (Some 6%positive) (Some 7%positive);
              NodeLine 6 7 (Some 3%positive) None None;
              NodeLine 7 9 (Some 3%positive) None None]
             (tree_with scenario)) ∧
  [1; 2; 4; 5; 3; 6; 7]%positive = preorder scenario_tree.
Proof.
  apply (Print_preorder 3 (tree_with scenario) None scenario_tree).
  - apply shape_scenario.
  - simpl. lia.
Defined.

(** ** FindMin, and Find after Add *)



Lemma lookup_tree_ins k b t k' :
  lookup_tree k' (ins k b t)
  = if decide (k' = k) then Some (default b (lookup_tree k t))
    else lookup_tree k' t.
Proof.
  induction t as [|l IHl a x r IHr].
  - simpl. destruct (decide (k' = k)) as [-> | Hne].
    + by rewrite Z.eqb_refl.
    + destruct (k =? k') eqn:E; [lia |]. by destruct (k' <? k).
  - cbn [ins lookup_tree].
    destruct (decide (k' = k)) as [-> | Hne].
    + destruct (k <? x) eqn:E1; cbn [lookup_tree]; rewrite ?E1;
        destruct (x =? k) eqn:E2; try done; lia.
    + destruct (k <? x) eqn:E1; cbn [lookup_tree];
        destruct (x =? k') eqn:E2; try done;
        destruct (k' <? x) eqn:E3; done.
Qed.

(** One [Add], on the empty tree or not. *)
Lemma Add_step fuel k c s t :
  wf s t → (height t ≤ fuel)%nat → is_Some (cells s !! c) →
  ∃ s', Add fuel k (Some c) s = Ok (Some (brk s)) s' ∧
        wf s' (ins k (brk s) t) ∧
        nodeTot_ s' = nodeTot_ s + 1 ∧
        size_ s' = (if t is Leaf then size_ s
                    else if 0 <? size_ s + 1 then size_ s + 1 else size_ s) ∧
        brk s' = Pos.succ (brk s) ∧
        is_Some (cells s' !! c) ∧
        cells s' = <[c := Z.of_nat (plen k t) + 1]> (cells s).
Proof.
  intros Hwf Hf Hc. destruct t as [|l a x r].
  - destruct (Add_empty_wf fuel k c s Hwf Hc) as (s' & HA & Hwf' & Hsz & Hnt & Hcs).
    exists s'. split_and!; try done.
    + pose proof (wf_shape _ _ Hwf) as Hr. simpl in Hr.
      rewrite (Add_empty fuel k c s Hr Hc) in HA. by injection HA as <-.
    + rewrite Hcs, lookup_insert_eq. by eexists.
  - destruct (Add_nonempty fuel k (Some c) s _ Hwf ltac:(done) Hf Hc)
      as (s' & HA & Hwf' & Hsz & Hnt & Hcs & Hb & _).
    exists s'. split_and!; try done.
    rewrite Hcs, lookup_insert_eq. by eexists.
Qed.

(** X5. After [Add] of [k], [Find] of any other key returns what it returned
    before.  [Find] of [k] returns the new node when the tree did not hold
    [k], and the node it returned before when it did: a node added under a
    key already present is never found. *)
Theorem Add_then_Find fuel k c s t :
  wf s t → (height t ≤ fuel)%nat → is_Some (cells s !! c) →
  ∃ s', Add fuel k (Some c) s = Ok (Some (brk s)) s' ∧
        ∀ k', ∃ p, Find fuel k' s = Ok p s ∧
                   Find (S fuel) k' s'
                   = Ok (if decide (k' = k) then Some (default (brk s) p)
                         else p) s'.
Proof.
  intros Hwf Hf Hc.
  destruct (Add_step fuel k c s t Hwf Hf Hc) as (s' & HA & Hwf' & _).
  exists s'. split; [done |]. intros k'. exists (lookup_tree k' t).
  unfold Find, bind, get. split.
  - apply FindRecurse_shape; [apply Hwf | done].
  - rewrite (FindRecurse_shape _ _ _ (ins k (brk s) t));
      [| apply Hwf' | pose proof (height_ins k (brk s) t); lia].
    rewrite lookup_tree_ins. by destruct (decide (k' = k)) as [-> |].
Qed.

(** [Add] of each key of [ks] in turn: the tree it builds and the counters
    it leaves. *)
Lemma Add_all_tree fuel ks c : ∀ s t,
  wf s t → (length (addrs t) + length ks ≤ fuel)%nat →
  is_Some (cells s !! c) →
  ∃ s', Add_all fuel ks (Some c) s = Ok tt s' ∧
        wf s' (tree_after (Insert <$> ks) (brk s) t) ∧
        nodeTot_ s' = nodeTot_ s + Z.of_nat (length ks) ∧
        (0 ≤ size_ s →
         size_ s' = size_ s + Z.of_nat (length ks)
                    - (if t is Leaf then if ks is [] then 0 else 1 else 0)) ∧
        is_Some (cells s' !! c).
Proof.
  induction ks as [|k ks IH]; intros s t Hwf Hf Hc.
  - exists s. simpl. split_and!; try done; [lia |]. destruct t; lia.
  - pose proof (height_le_length t) as Hh.
    destruct (Add_step fuel k c s t Hwf ltac:(simpl in Hf; lia) Hc)
      as (s1 & HA & Hwf1 & Hnt1 & Hsz1 & Hb1 & Hc1 & _).
    destruct (IH s1 (ins k (brk s) t) Hwf1) as (s' & HA' & Hwf' & Hnt' & Hsz' & Hc');
      [| done |].
    { rewrite (Permutation_length (addrs_ins k (brk s) t)).
      simpl in *. lia. }
    exists s'. cbn [Add_all fmap list_fmap tree_after].
    rewrite (bind_Ok _ _ _ _ _ HA). rewrite Hb1 in Hwf'.
    split_and!; try done.
    + rewrite Hnt', Hnt1. simpl length. lia.
    + intros Hsz. rewrite Hsz', Hsz1.
      * assert (∃ l a x r, ins k (brk s) t = Br l a x r)
          as (l' & a' & x' & r' & ->).
        { destruct t as [|l a x r]; simpl; [by eauto |].
          destruct (k <? x); by eauto. }
        destruct t.
        -- simpl length. lia.
        -- assert ((0 <? size_ s + 1) = true) as -> by lia.
           simpl length. lia.
      * rewrite Hsz1. destruct t; [done |].
        destruct (0 <? size_ s + 1) eqn:E; lia.
Qed.

Lemma wf_tree_with ks :
  wf (tree_with ks) (tree_after (Insert <$> ks) 1 Leaf).
Proof.
  destruct (Add_all_tree (length ks) ks 1%positive empty_tree Leaf)
    as (s' & HA & Hwf & _);
    [apply wf_empty_tree | simpl; lia | by eexists |].
  unfold tree_with, exec. by rewrite HA.
Qed.

Lemma Add_then_Find_witness :
  ∃ s', Add 3 6 (Some 1%positive) (tree_with scenario)
        = Ok (Some (brk (tree_with scenario))) s' ∧
        ∀ k', ∃ p, Find 3 k' (tree_with scenario)
                   = Ok p (tree_with scenario) ∧
                   Find 4 k' s'
                   = Ok (if decide (k' = 6)
                         then Some (default (brk (tree_with scenario)) p)
                         else p) s'.
Proof.
  apply (Add_then_Find 3 6 1%positive (tree_with scenario) scenario_tree).
  - apply (wf_tree_with scenario).
  - simpl. lia.
  - by eexists.
Defined.

(** ** The link Add makes, counters and chains *)

Lemma keys_ins_all ks b t :
  keys (tree_after (Insert <$> ks) b t) ≡ₚ ks ++ keys t.
Proof.
  revert b t. induction ks as [|k ks IH]; intros b t; [done |].
  cbn [fmap list_fmap tree_after]. rewrite IH, keys_ins.
  by rewrite <- Permutation_middle.
Qed.

Lemma attach_link h p t k cand c nc :
  shape h p t → t ≠ Leaf → attach k t cand = Some c → h !! c = Some nc →
  c ∈ addrs t ∧ (if k <? key nc then left nc else right nc) = None.
Proof.
  revert p cand. induction t as [|l IHl a x r IHr]; intros p cand Hs Hne Ha Hc;
    [done |].
  destruct Hs as (_ & n & Hn & Hk & Hl & Hr). cbn [attach] in Ha.
  destruct (k <? x) eqn:E.
  - destruct l as [|ll la lx lr].
    + simpl in Ha. injection Ha as <-. rewrite Hn in Hc. injection Hc as <-.
      rewrite Hk, E. split; [apply elem_Br_root | done].
    + destruct (IHl _ _ Hl ltac:(done) Ha Hc) as [Hin Hlk].
      split; [by apply elem_Br_l | done].
  - destruct r as [|rl ra rx rr].
    + simpl in Ha. injection Ha as <-. rewrite Hn in Hc. injection Hc as <-.
      rewrite Hk, E. split; [apply elem_Br_root | done].
    + destruct (IHr _ _ Hr ltac:(done) Ha Hc) as [Hin Hlk].
      split; [by apply elem_Br_r | done].
Qed.

(** [Add] to a tree that is not empty, with the link it makes. *)
Lemma Add_leaf fuel k depth s t :
  wf s t → t ≠ Leaf → (height t ≤ fuel)%nat →
  match depth with Some c => is_Some (cells s !! c) | None => True end →
  ∃ s' c nc,
    Add fuel k depth s = Ok (Some (brk s)) s' ∧
    wf s' (ins k (brk s) t) ∧
    nodeTot_ s' = nodeTot_ s + 1 ∧ brk s' = Pos.succ (brk s) ∧
    released s' = released s ∧
    attach k t None = Some c ∧
    heap s !! brk s = None ∧
    c ∈ addrs t ∧ heap s !! c = Some nc ∧
    (if k <? key nc then left nc else right nc) = None ∧
    heap s' !! brk s = Some (mkNode k None None None (Some c)) ∧
    heap s' !! c = Some (if k <? key nc then with_left (Some (brk s)) nc
                         else with_right (Some (brk s)) nc) ∧
    (∀ y, y ≠ brk s → y ≠ c → heap s' !! y = heap s !! y) ∧
    root_ s' = root_ s.
Proof.
  intros Hwf Hne Hf Hd.
  destruct (Add_nonempty fuel k depth s t Hwf Hne Hf Hd)
    as (s' & HA & Hwf' & _ & Hnt & _ & Hbrk & Hrel & _ & c & nc & Hat & Hc & Hb & Hc' & Hfr).
  destruct (attach_link _ _ _ _ _ _ _ (wf_shape _ _ Hwf) Hne Hat Hc)
    as [Hin Hlk].
  exists s', c, nc. split_and!; try done.
  - destruct (heap s !! brk s) eqn:E; [| done].
    assert (brk s < brk s)%positive by (apply (wf_brk _ _ Hwf); by eexists).
    lia.
  - destruct t as [|l a x r]; [done |].
    destruct (ins_root k (brk s) l a x r) as (l' & r' & Hi).
    pose proof (wf_shape _ _ Hwf') as Hs'. rewrite Hi in Hs'.
    destruct Hs' as (-> & _). by destruct (wf_shape _ _ Hwf) as (-> & _).
Qed.

(** X6. [Add] to a tree that is not empty links the new node below one node
    of the tree, in a child link that was null: to the left when [k] is
    smaller than that node's key, to the right otherwise.  The new node is
    at a fresh address, holds [k], has no children and no payload, and its
    parent pointer names the node it hangs from.  No other node changes and
    the root stays the root. *)
Theorem Add_links_leaf fuel k depth s t :
  wf s t → t ≠ Leaf → (height t ≤ fuel)%nat →
  match depth with Some c => is_Some (cells s !! c) | None => True end →
  ∃ s' c nc,
    Add fuel k depth s = Ok (Some (brk s)) s' ∧
    heap s !! brk s = None ∧
    c ∈ addrs t ∧ heap s !! c = Some nc ∧
    (if k <? key nc then left nc else right nc) = None ∧
    heap s' !! brk s = Some (mkNode k None None None (Some c)) ∧
    heap s' !! c = Some (if k <? key nc then with_left (Some (brk s)) nc
                         else with_right (Some (brk s)) nc) ∧
    (∀ y, y ≠ brk s → y ≠ c → heap s' !! y = heap s !! y) ∧
    root_ s' = root_ s.
Proof.
  intros Hwf Hne Hf Hd.
  destruct (Add_leaf fuel k depth s t Hwf Hne Hf Hd)
    as (s' & c & nc & HA & _ & _ & _ & _ & _ & H).
  by exists s', c, nc.
Qed.

Lemma Add_links_leaf_witness :
  ∃ s' c nc,
    Add 3 6 None (tree_with scenario)
    = Ok (Some (brk (tree_with scenario))) s' ∧
    heap (tree_with scenario) !! brk (tree_with scenario) = None ∧
    c ∈ addrs scenario_tree ∧ heap (tree_with scenario) !! c = Some nc ∧
    (if 6 <? key nc then left nc else right nc) = None ∧
    heap s' !! brk (tree_with scenario)
    = Some (mkNode 6 None None None (Some c)) ∧
    heap s' !! c
    = Some (if 6 <? key nc
            then with_left (Some (brk (tree_with scenario))) nc
            else with_right (Some (brk (tree_with scenario))) nc) ∧
    (∀ y, y ≠ brk (tree_with scenario) → y ≠ c →
          heap s' !! y = heap (tree_with scenario) !! y) ∧
    root_ s' = root_ (tree_with scenario).
Proof.
  apply (Add_links_leaf 3 6 None (tree_with scenario) scenario_tree).
  - apply (wf_tree_with scenario).
  - done.
  - simpl. lia.
  - exact I.
Defined.

(** X7. After [Add] of [n] keys, distinct or not, to a tree just constructed,
    the tree holds those [n] keys in [n] nodes and [nodeTot_] is [n], but
    [size_] is [n - 1] (and 0 for [n = 0]): the first [Add] does not count
    its node. *)
Theorem Add_all_counters fuel ks c s :
  wf s Leaf → size_ s = 0 → nodeTot_ s = 0 → is_Some (cells s !! c) →
  (length ks ≤ fuel)%nat →
  ∃ s' t, Add_all fuel ks (Some c) s = Ok tt s' ∧ wf s' t ∧
          keys t ≡ₚ ks ∧ length (addrs t) = length ks ∧
          nodeTot_ s' = Z.of_nat (length ks) ∧
          size_ s' = Z.of_nat (Nat.pred (length ks)).
Proof.
  intros Hwf Hsz Hnt Hc Hf.
  destruct (Add_all_tree fuel ks c s Leaf Hwf ltac:(simpl; lia) Hc)
    as (s' & HA & Hwf' & Hnt' & Hsz' & _).
  exists s', (tree_after (Insert <$> ks) (brk s) Leaf).
  pose proof (keys_ins_all ks (brk s) Leaf) as Hk. rewrite app_nil_r in Hk.
  split_and!; try done.
  - by rewrite <- length_keys, Hk.
  - lia.
  - rewrite Hsz', Hsz by lia. destruct ks; simpl length; lia.
Qed.

Lemma Add_all_counters_witness :
  ∃ s' t, Add_all 7 scenario (Some 1%positive) empty_tree = Ok tt s' ∧
          wf s' t ∧ keys t ≡ₚ scenario ∧
          length (addrs t) = length scenario ∧
          nodeTot_ s' = 7 ∧ size_ s' = 6.
Proof.
  apply (Add_all_counters 7 scenario 1%positive empty_tree).
  - apply wf_empty_tree.
  - reflexivity.
  - reflexivity.
  - by eexists.
  - simpl. lia.
Defined.

Lemma ins_right_chain k b t :
  right_chain t → Forall (λ y, y ≤ k) (keys t) →
  right_chain (ins k b t) ∧ height (ins k b t) = S (height t).
Proof.
  induction t as [|l IHl a x r IHr]; intros Hc HF; [done |].
  destruct Hc as [-> Hc]. simpl in HF.
  apply Forall_cons in HF as [Hx HF].
  assert ((k <? x) = false) as E by lia.
  cbn [ins]. rewrite E. destruct (IHr Hc HF) as [Hc' Hh].
  split; [done |]. simpl in *. lia.
Qed.

Lemma ins_all_right_chain ks : ∀ b t,
  right_chain t → StronglySorted Z.le ks →
  Forall (λ y, Forall (Z.le y) ks) (keys t) →
  right_chain (tree_after (Insert <$> ks) b t) ∧
  height (tree_after (Insert <$> ks) b t) = (height t + length ks)%nat.
Proof.
  induction ks as [|k ks IH]; intros b t Hc Hs HF.
  - simpl. split; [done | lia].
  - apply StronglySorted_inv in Hs as [Hs Hk].
    cbn [fmap list_fmap tree_after].
    destruct (ins_right_chain k b t Hc) as [Hc' Hh].
    { eapply Forall_impl; [exact HF |]. intros y Hy.
      by apply Forall_cons in Hy as [? _]. }
    destruct (IH (Pos.succ b) (ins k b t) Hc' Hs) as [Hc'' Hh''].
    { rewrite keys_ins. constructor; [done |].
      eapply Forall_impl; [exact HF |]. intros y Hy.
      by apply Forall_cons in Hy as [_ ?]. }
    split; [done |]. rewrite Hh'', Hh. simpl. lia.
Qed.

Lemma leaf_depths_chain t d :
  right_chain t → t ≠ Leaf →
  leaf_depths t d = [d + Z.of_nat (height t) - 1].
Proof.
  revert d. induction t as [|l _ a x r IHr]; intros d Hc Hne; [done |].
  destruct Hc as [-> Hc]. destruct r as [|rl ra rx rr].
  - simpl. f_equal. lia.
  - change (leaf_depths (Br Leaf a x (Br rl ra rx rr)) d)
      with (leaf_depths (Br rl ra rx rr) (d + 1)).
    rewrite (IHr _ Hc) by done. f_equal. simpl height. lia.
Qed.

(** X8. Keys added in increasing order to an empty tree form a chain of
    right children, so after [n > 0] such keys [MaxDepth] returns [n - 1],
    and it prints that one depth: the chain has a single leaf. *)
Theorem MaxDepth_increasing fuel ks c s :
  wf s Leaf → is_Some (cells s !! c) → StronglySorted Z.le ks →
  ks ≠ [] → (length ks ≤ fuel)%nat →
  ∃ s', Add_all fuel ks (Some c) s = Ok tt s' ∧
        MaxDepth fuel s'
        = Ok (Z.of_nat (length ks) - 1)
             (set_console
                (console s' ++ [DepthLine (Z.of_nat (length ks) - 1)]) s').
Proof.
  intros Hwf Hc Hs Hne Hf.
  destruct (Add_all_tree fuel ks c s Leaf Hwf ltac:(simpl; lia) Hc)
    as (s' & HA & Hwf' & _).
  exists s'. split; [done |].
  destruct (ins_all_right_chain ks (brk s) Leaf I Hs ltac:(constructor))
    as [Hch Hh].
  set (t := tree_after (Insert <$> ks) (brk s) Leaf) in *.
  simpl in Hh.
  assert (t ≠ Leaf) as Ht.
  { intros E. rewrite E in Hh. destruct ks; [done | simpl in Hh; lia]. }
  rewrite (MaxDepth_height fuel s' t (wf_shape _ _ Hwf') ltac:(lia)).
  rewrite (leaf_depths_chain t 0 Hch Ht), Hh.
  replace (0 + Z.of_nat (length ks) - 1) with (Z.of_nat (length ks) - 1)
    by lia.
  replace (Z.of_nat (Nat.pred (length ks))) with (Z.of_nat (length ks) - 1)
    by (destruct ks; [done | simpl length; lia]).
  done.
Qed.

Lemma MaxDepth_increasing_witness :
  ∃ s', Add_all 3 [1; 2; 3] (Some 1%positive) empty_tree = Ok tt s' ∧
        MaxDepth 3 s' = Ok 2 (set_console (console s' ++ [DepthLine 2]) s').
Proof.
  apply (MaxDepth_increasing 3 [1; 2; 3] 1%positive empty_tree).
  - apply wf_empty_tree.
  - by eexists.
  - repeat constructor; lia.
  - done.
  - simpl. lia.
Defined.

(** ** Add followed by DeleteKey *)

(** [splice] of a node whose parent pointer names a live node. *)
Lemma splice_Ok a succ s n q nq :
  heap s !! a = Some n → parent n = Some q → heap s !! q = Some nq →
  splice (Some a) succ s
  = Ok succ (set_released (released s ++ [a])
               (set_heap (delete a (<[q := relink a succ nq]> (heap s))) s)).
Proof.
  intros Hn Hq Hnq. unfold splice.
  rewrite (bind_Ok _ _ _ _ _ (rd_Ok parent _ _ _ Hn)), Hq.
  rewrite (bind_Ok _ _ _ _ _ (rd_Ok left _ _ _ Hnq)).
  set (s1 := set_heap (<[q := relink a succ nq]> (heap s)) s).
  assert (Hif :
    (if bool_decide (left nq = Some a)
     then np <- rd parent (Some a);; wr (with_left succ) np
     else np <- rd parent (Some a);;
          pr <- rd right np;;
          if bool_decide (pr = Some a)
          then np0 <- rd parent (Some a);; wr (with_right succ) np0
          else ret ()) s = Ok tt s1).
  { assert (Hwl : ∀ upd, (np <- rd parent (Some a);; wr upd np) s
                   = Ok tt (set_heap (<[q := upd nq]> (heap s)) s)).
    { intros upd. rewrite (bind_Ok _ _ _ _ _ (rd_Ok parent _ _ _ Hn)), Hq.
      by apply wr_Ok. }
    subst s1. unfold relink. case_bool_decide as Hl; [apply Hwl |].
    rewrite (bind_Ok _ _ _ _ _ (rd_Ok parent _ _ _ Hn)), Hq.
    rewrite (bind_Ok _ _ _ _ _ (rd_Ok right _ _ _ Hnq)).
    case_bool_decide as Hr; [apply Hwl |].
    rewrite insert_id by done. unfold ret. by destruct s. }
  rewrite (bind_Ok _ _ _ _ _ Hif).
  assert (Hlive : is_Some (heap s1 !! a)).
  { subst s1. simpl. destruct (decide (q = a)) as [-> | Hne].
    - rewrite lookup_insert_eq. by eexists.
    - rewrite lookup_insert_ne by done. by eexists. }
  destruct Hlive as [na Hna]. unfold bind, delete_node. rewrite Hna.
  done.
Qed.





(** ** DeleteKey on trees built by Add *)

Lemma exact_agree h h' up t :
  (∀ y n, y ∈ addrs t → h !! y = Some n →
     ∃ n', h' !! y = Some n' ∧ parent n' = parent n ∧ data n' = data n) →
  exact h up t → exact h' up t.
Proof.
  revert up. induction t as [|l IHl a x r IHr]; intros up Hag; [done |].
  intros ((n & Hn & Hp & Hd) & Hl & Hr).
  destruct (Hag a n (elem_Br_root l a x r) Hn) as (n' & Hn' & Hp' & Hd').
  split_and!.
  - exists n'. split_and!; congruence.
  - apply IHl; [| done]. intros y ny Hy. apply Hag. by apply elem_Br_l.
  - apply IHr; [| done]. intros y ny Hy. apply Hag. by apply elem_Br_r.
Qed.

Lemma exact_up_ok h b up t : exact h up t → up_ok h b up t.
Proof.
  destruct t as [|l a x r]; [done |].
  intros ((n & Hn & Hp & _) & _). exists n. split; [done | by left].
Qed.

Lemma exact_parents h b up t : exact h up t → parents h b t.
Proof.
  revert up. induction t as [|l IHl a x r IHr]; intros up; [done |].
  intros (_ & Hl & Hr).
  change (up_ok h b (Some a) l ∧ up_ok h b (Some a) r ∧
          parents h b l ∧ parents h b r).
  split_and!; eauto using exact_up_ok.
Qed.

Lemma exact_ins h h2 up t k b nb :
  (∀ y n, y ≠ b → h !! y = Some n →
     ∃ n', h2 !! y = Some n' ∧ parent n' = parent n ∧ data n' = data n) →
  h2 !! b = Some nb → parent nb = attach k t up → data nb = None →
  b ∉ addrs t →
  exact h up t → exact h2 up (ins k b t).
Proof.
  intros Hag Hb. revert up.
  induction t as [|l IHl a x r IHr]; intros up Hp Hd Hnin Hex.
  - simpl in *. split_and!; try done. by exists nb.
  - destruct Hex as ((n & Hn & Hpn & Hdn) & Hl & Hr).
    assert (a ≠ b) as Hab by (intros ->; apply Hnin, elem_Br_root).
    destruct (Hag a n Hab Hn) as (n' & Hn' & Hp' & Hd').
    assert (∀ t', b ∉ addrs t' → exact h (Some a) t' → exact h2 (Some a) t')
      as Hsame.
    { intros t' Hb' Hex'. eapply exact_agree; [| exact Hex'].
      intros y ny Hy Hny. apply Hag; [| done]. by intros ->. }
    cbn [ins attach] in *. destruct (k <? x).
    + split_and!.
      * exists n'. split_and!; congruence.
      * apply IHl; try done. intros Hin. by apply Hnin, elem_Br_l.
      * apply Hsame; [| done]. intros Hin. by apply Hnin, elem_Br_r.
    + split_and!.
      * exists n'. split_and!; congruence.
      * apply Hsame; [| done]. intros Hin. by apply Hnin, elem_Br_l.
      * apply IHr; try done. intros Hin. by apply Hnin, elem_Br_r.
Qed.

Lemma wf_fresh s t : wf s t → heap s !! brk s = None ∧ brk s ∉ addrs t.
Proof.
  intros Hwf.
  assert (heap s !! brk s = None) as Hfresh.
  { destruct (heap s !! brk s) eqn:E; [| done].
    assert (brk s < brk s)%positive by (apply (wf_brk _ _ Hwf); by eexists).
    lia. }
  split; [done |]. intros Hin.
  destruct (shape_live _ _ _ _ (wf_shape _ _ Hwf) Hin) as [? Hx].
  by rewrite Hfresh in Hx.
Qed.

(** [Add] keeps parent pointers exact. *)
Lemma Add_exact fuel k c s t :
  wf s t → exact (heap s) None t → (height t ≤ fuel)%nat →
  is_Some (cells s !! c) →
  ∃ s', Add fuel k (Some c) s = Ok (Some (brk s)) s' ∧
        wf s' (ins k (brk s) t) ∧ exact (heap s') None (ins k (brk s) t) ∧
        brk s' = Pos.succ (brk s) ∧ is_Some (cells s' !! c).
Proof.
  intros Hwf Hex Hf Hc.
  destruct (Add_step fuel k c s t Hwf Hf Hc)
    as (s' & HA & Hwf' & _ & _ & Hb & Hc' & _).
  exists s'. split_and!; try done.
  destruct (wf_fresh _ _ Hwf) as [Hfresh Hnin].
  destruct t as [|l a x r].
  - pose proof (wf_shape _ _ Hwf) as Hr. simpl in Hr.
    rewrite (Add_empty fuel k c s Hr Hc) in HA. injection HA as <-.
    simpl. split_and!; try done. eexists.
    split; [apply lookup_insert_eq | done].
  - destruct (Add_leaf fuel k (Some c) s _ Hwf ltac:(done) Hf Hc)
      as (s'' & c0 & nc & HA'' & _ & _ & _ & _ & Hat & _ & Hin & Hc0 & _
          & Hb'' & Hc'' & Hfr & _).
    rewrite HA in HA''. injection HA'' as <-.
    eapply exact_ins; try exact Hex; try exact Hb''; try done.
    intros y n Hy Hn. destruct (decide (y = c0)) as [-> | Hyc].
    + rewrite Hn in Hc0. injection Hc0 as <-. eexists. split; [exact Hc'' |].
      by destruct (k <? key n).
    + exists n. by rewrite Hfr.
Qed.

Lemma Add_all_exact fuel ks c : ∀ s t,
  wf s t → exact (heap s) None t →
  (length (addrs t) + length ks ≤ fuel)%nat → is_Some (cells s !! c) →
  ∃ s', Add_all fuel ks (Some c) s = Ok tt s' ∧
        wf s' (tree_after (Insert <$> ks) (brk s) t) ∧
        exact (heap s') None (tree_after (Insert <$> ks) (brk s) t).
Proof.
  induction ks as [|k ks IH]; intros s t Hwf Hex Hf Hc.
  - by exists s.
  - pose proof (height_le_length t) as Hh.
    destruct (Add_exact fuel k c s t Hwf Hex ltac:(simpl in Hf; lia) Hc)
      as (s1 & HA & Hwf1 & Hex1 & Hb1 & Hc1).
    destruct (IH s1 (ins k (brk s) t) Hwf1 Hex1) as (s' & HA' & Hwf' & Hex');
      [| done |].
    { rewrite (Permutation_length (addrs_ins k (brk s) t)).
      simpl in *. lia. }
    exists s'. cbn [Add_all fmap list_fmap tree_after].
    rewrite (bind_Ok _ _ _ _ _ HA). by rewrite Hb1 in Hwf', Hex'.
Qed.

Lemma post_live b s c nc t t' p s1 y n :
  DeleteNode_post b s c nc t t' p s1 → y ∉ addrs t →
  heap s !! y = Some n → is_Some (heap s1 !! y).
Proof.
  intros (_ & _ & _ & Hsame & Hp) Hy Hn.
  destruct Hp as [-> | (_ & _ & q & nq & Hq & Hnq & Hq1)].
  - rewrite Hsame; [by eexists | done | by left].
  - destruct (decide (q = y)) as [-> | Hne]; [by eexists |].
    rewrite Hsame; [by eexists | done |]. right. congruence.
Qed.

(** The two-children case of [DeleteNode] up to its recursive call, at a
    node without a payload: the key of the leftmost node [m] of the right
    subtree is moved up. *)
Lemma DN_two_prefix {B} (K : ptr → Z → M B) fuel b l a x rl c rx rr s n :
  let r := Br rl c rx rr in
  let mk := (leftmost rl c rx).2 in
  let m := (leftmost rl c rx).1 in
  DeleteNode_pre b s a n (Br l a x r) → data n = None →
  (height r ≤ fuel)%nat →
  ∃ s4 nm,
    (r0 <- rd right (Some a);;
     successor <- FindMin fuel r0;;
     sk <- rd key successor;;
     wr (with_key sk) (Some a);;;
     d <- rd data (Some a);;
     delete_int d;;;
     sd <- rd data successor;;
     wr (with_data sd) (Some a);;;
     wr (with_data None) successor;;;
     r1 <- rd right (Some a);;
     sk' <- rd key successor;;
     K r1 sk') s = K (right n) mk s4 ∧
    heap s !! m = Some nm ∧ m ∈ addrs r ∧ m ≠ a ∧
    heap s4 !! a = Some (with_data (data nm) (with_key mk n)) ∧
    heap s4 !! m = Some (with_data None nm) ∧
    (∀ y, y ≠ a → y ≠ m → heap s4 !! y = heap s !! y) ∧
    DeleteNode_pre b s4 a (with_data (data nm) (with_key mk n)) (Br l a mk r).
Proof.
  intros r mk m Hpre Hdata Hf.
  pose proof Hpre as (Hs & Hnd & Hpar & Hb & Hn & Hq).
  destruct Hs as (_ & n0 & Hn0 & Hk & Hl & Hr).
  rewrite Hn in Hn0. injection Hn0 as <-.
  pose proof Hr as (Hrc & _).
  destruct (leftmost_spec _ _ _ _ _ ltac:(rewrite <- Hrc; exact Hr))
    as (Hmr & nm & Hnm & Hkm & _).
  fold m in Hmr, Hnm. fold mk in Hkm. fold r in Hmr, Hr.
  pose proof Hnd as Hnd'.
  apply NoDup_app in Hnd' as (Hndl & Hlr & Hndr).
  apply NoDup_cons in Hndr as (Har & Hndr).
  assert (Hal : a ∉ addrs l) by (intros Hin; apply (Hlr _ Hin); by left).
  assert (Hma : m ≠ a) by (by intros E; rewrite E in Hmr).
  rewrite (bind_Ok _ _ _ _ _ (rd_Ok right _ _ _ Hn)), Hrc.
  rewrite (bind_Ok _ _ _ _ _
             (FindMin_shape fuel _ rl c rx rr s eq_refl
                ltac:(rewrite <- Hrc; exact Hr) ltac:(simpl in *; lia))).
  fold m.
  rewrite (bind_Ok _ _ _ _ _ (rd_Ok key _ _ _ Hnm)), Hkm.
  rewrite (bind_Ok _ _ _ _ _ (wr_Ok _ _ _ _ Hn)).
  set (s1 := set_heap _ s).
  assert (Ha1 : heap s1 !! a = Some (with_key mk n)) by apply lookup_insert_eq.
  rewrite (bind_Ok _ _ _ _ _ (rd_Ok data _ _ _ Ha1)).
  change (data (with_key mk n)) with (data n). rewrite Hdata.
  unfold bind at 1, delete_int at 1, ret at 1.
  assert (Hm2 : heap s1 !! m = Some nm).
  { subst s1. simpl. by rewrite lookup_insert_ne. }
  rewrite (bind_Ok _ _ _ _ _ (rd_Ok data _ _ _ Hm2)).
  rewrite (bind_Ok _ _ _ _ _ (wr_Ok _ _ _ _ Ha1)).
  set (na := with_data (data nm) (with_key mk n)).
  set (s3 := set_heap _ s1).
  assert (Hm3 : heap s3 !! m = Some nm).
  { subst s3. simpl. by rewrite lookup_insert_ne. }
  rewrite (bind_Ok _ _ _ _ _ (wr_Ok _ _ _ _ Hm3)).
  set (s4 := set_heap _ s3).
  assert (Ha4 : heap s4 !! a = Some na).
  { subst s4 s3. simpl. rewrite lookup_insert_ne by done. apply lookup_insert_eq. }
  assert (Hm4 : heap s4 !! m = Some (with_data None nm)) by apply lookup_insert_eq.
  assert (Hfr4 : ∀ y, y ≠ a → y ≠ m → heap s4 !! y = heap s !! y).
  { intros y Hya Hym. subst s4 s3 s1. simpl. by rewrite !lookup_insert_ne. }
  rewrite (bind_Ok _ _ _ _ _ (rd_Ok right _ _ _ Ha4)).
  rewrite (bind_Ok _ _ _ _ _ (rd_Ok key _ _ _ Hm4)).
  change (key (with_data None nm)) with (key nm). rewrite Hkm.
  change (right na) with (right n).
  exists s4, nm. split_and!; try done; [by rewrite Hrc |].
  assert (Hagree : ∀ y ny, heap s !! y = Some ny →
            ∃ ny', heap s4 !! y = Some ny' ∧ parent ny' = parent ny ∧
                   left ny' = left ny ∧ right ny' = right ny ∧
                   (y ≠ a → key ny' = key ny)).
  { intros y ny Hy. destruct (decide (y = a)) as [-> | Hya].
    - exists na. rewrite Hn in Hy. injection Hy as <-. by split_and!.
    - destruct (decide (y = m)) as [-> | Hym].
      + exists (with_data None nm). rewrite Hnm in Hy. injection Hy as <-.
        by split_and!.
      + exists ny. rewrite Hfr4 by done. by split_and!. }
  assert (Hdang4 : ∀ q, heap s !! q = None → heap s4 !! q = None).
  { intros q Hq0. rewrite Hfr4; [done | |]; intros ->; congruence. }
  destruct Hpar as (Hupl & Hupr & Hparl & Hparr). split_and!; try done.
  - split; [done |]. exists na. split_and!; try done.
    + eapply shape_agree; [| exact Hl]. intros y ny Hy Hny.
      destruct (Hagree _ _ Hny) as (ny' & ? & ? & ? & ? & Hkey).
      exists ny'. split_and!; try done. apply Hkey. by intros ->.
    + eapply shape_agree; [| exact Hr]. intros y ny Hy Hny.
      destruct (Hagree _ _ Hny) as (ny' & ? & ? & ? & ? & Hkey).
      exists ny'. split_and!; try done. apply Hkey. by intros ->.
  - change (up_ok (heap s4) b (Some a) l ∧ up_ok (heap s4) b (Some a) r ∧
            parents (heap s4) b l ∧ parents (heap s4) b r).
    split_and!.
    + eapply up_ok_agree; [| exact Hdang4 | exact Hupl]. intros y ny Hy Hny.
      destruct (Hagree _ _ Hny) as (ny' & ? & ? & _). by exists ny'.
    + eapply up_ok_agree; [| exact Hdang4 | exact Hupr]. intros y ny Hy Hny.
      destruct (Hagree _ _ Hny) as (ny' & ? & ? & _). by exists ny'.
    + eapply parents_agree; [| exact Hdang4 | exact Hparl]. intros y ny Hy Hny.
      destruct (Hagree _ _ Hny) as (ny' & ? & ? & _). by exists ny'.
    + eapply parents_agree; [| exact Hdang4 | exact Hparr]. intros y ny Hy Hny.
      destruct (Hagree _ _ Hny) as (ny' & ? & ? & _). by exists ny'.
Qed.

Lemma exact_data h up t y n :
  exact h up t → y ∈ addrs t → h !! y = Some n → data n = None.
Proof.
  revert up. induction t as [|l IHl a x r IHr]; intros up Hex Hin Hn.
  { by apply elem_of_nil in Hin. }
  destruct Hex as ((n' & Hn' & _ & Hd) & Hl & Hr).
  apply elem_Br in Hin as [Hin | [-> | Hin]]; [by eapply IHl | | by eapply IHr].
  congruence.
Qed.

(** A recursive call of [DeleteNode] that returns, and the assignment of
    its result to a link of the node above. *)
Lemma DN_child_runs fuel b k s a n c nc tc (upd : ptr → Node → Node) :
  DeleteNode_pre b s c nc tc → (height tc ≤ fuel)%nat →
  heap s !! a = Some n → a ∉ addrs tc →
  (∃ p s1, DeleteNode fuel (Some c) k s = Ok p s1) →
  ∃ p' s', (x' <- DeleteNode fuel (Some c) k;;
            wr (upd x') (Some a);;; ret (Some a)) s = Ok p' s'.
Proof.
  intros Hpre Hf Hn Ha (p & s1 & HD).
  pose proof (DeleteNode_spec fuel b k c tc s nc Hpre Hf) as Hpost.
  rewrite HD in Hpost. simpl in Hpost.
  destruct (post_live _ _ _ _ _ _ _ _ _ _ Hpost Ha Hn) as [n1 Hn1].
  rewrite (bind_Ok _ _ _ _ _ HD).
  rewrite (bind_Ok _ _ _ _ _ (wr_Ok _ _ _ _ Hn1)). by eexists _, _.
Qed.

(** On a tree with exact parent pointers and no payloads, [DeleteNode]
    returns, unless it is to take out a root whose parent pointer is not
    live. *)
Lemma DeleteNode_runs fuel b : ∀ k a t s n up,
  DeleteNode_pre b s a n t → exact (heap s) up t →
  (splices_root k t → ∃ q nq, up = Some q ∧ heap s !! q = Some nq) →
  (height t ≤ fuel)%nat →
  ∃ p s', DeleteNode fuel (Some a) k s = Ok p s'.
Proof.
  induction fuel as [|fuel IH]; intros k a t s n up Hpre Hex Hup Hf.
  { destruct Hpre as (Hs & _). destruct t; [done | simpl in Hf; lia]. }
  pose proof Hpre as (Hs & Hnd & Hpar & Hb & Hn & Hq).
  destruct t as [|l a' x r]; [done |].
  destruct Hs as ([= <-] & n0 & Hn0 & Hk & Hl & Hr).
  rewrite Hn in Hn0. injection Hn0 as <-.
  destruct Hex as ((n0 & Hn0 & Hp & Hd) & Hexl & Hexr).
  rewrite Hn in Hn0. injection Hn0 as <-.
  simpl in Hf. apply Nat.succ_le_mono in Hf.
  pose proof Hnd as Hnd'.
  apply NoDup_app in Hnd' as (Hndl & Hlr & Hndr).
  apply NoDup_cons in Hndr as (Har & Hndr).
  assert (Hal : a ∉ addrs l) by (intros Hin; apply (Hlr _ Hin); by left).
  cbn [DeleteNode].
  rewrite (bind_Ok _ _ _ _ _ (rd_Ok key _ _ _ Hn)), Hk.
  destruct (k <? x) eqn:E1.
  { rewrite (bind_Ok _ _ _ _ _ (rd_Ok left _ _ _ Hn)).
    destruct (left n) as [c|] eqn:Hlc.
    - destruct (pre_left _ _ _ _ _ _ _ _ Hpre Hlc) as (nc & Hnc & Hprec).
      eapply (DN_child_runs fuel b k s a n c nc l with_left);
        [done | lia | done | done |].
      eapply (IH k c l s nc (Some a)); [exact Hprec | exact Hexl | | lia].
      by eauto.
    - rewrite (bind_Ok _ _ _ _ _ (DeleteNode_None _ _ _)).
      rewrite (bind_Ok _ _ _ _ _ (wr_Ok _ _ _ _ Hn)). by eexists _, _. }
  destruct (x <? k) eqn:E2.
  { rewrite (bind_Ok _ _ _ _ _ (rd_Ok right _ _ _ Hn)).
    destruct (right n) as [c|] eqn:Hrc.
    - destruct (pre_right _ _ _ _ _ _ _ _ Hpre Hrc) as (nc & Hnc & Hprec).
      eapply (DN_child_runs fuel b k s a n c nc r with_right);
        [done | lia | done | done |].
      eapply (IH k c r s nc (Some a)); [exact Hprec | exact Hexr | | lia].
      by eauto.
    - rewrite (bind_Ok _ _ _ _ _ (DeleteNode_None _ _ _)).
      rewrite (bind_Ok _ _ _ _ _ (wr_Ok _ _ _ _ Hn)). by eexists _, _. }
  assert (x = k) as Hxk by lia.
  rewrite (bind_Ok _ _ _ _ _ (rd_Ok left _ _ _ Hn)).
  destruct l as [|ll la lx lr] eqn:El.
  { simpl in Hl. rewrite Hl.
    rewrite (bind_Ok _ _ _ _ _ (rd_Ok right _ _ _ Hn)).
    destruct Hup as (q & nq & -> & Hnq); [split; [done | by left] |].
    rewrite (splice_Ok a (right n) s n q nq Hn Hp Hnq). by eexists _, _. }
  rewrite <- El in *.
  assert (Hlc : left n = Some la) by (subst l; apply Hl).
  rewrite Hlc.
  rewrite (bind_Ok _ _ _ _ _ (rd_Ok right _ _ _ Hn)).
  destruct r as [|rl ra rx rr] eqn:Er.
  { simpl in Hr. rewrite Hr.
    rewrite (bind_Ok _ _ _ _ _ (rd_Ok left _ _ _ Hn)).
    destruct Hup as (q & nq & -> & Hnq); [split; [done | by right] |].
    rewrite (splice_Ok a (left n) s n q nq Hn Hp Hnq). by eexists _, _. }
  assert (Hrc : right n = Some ra) by apply Hr.
  rewrite Hrc. rewrite <- Er in *.
  destruct (DN_two_prefix
              (λ r1 sk', r' <- DeleteNode fuel r1 sk';;
                         wr (with_right r') (Some a);;; ret (Some a))
              fuel b l a x rl ra rx rr s n)
    as (s4 & nm & Hrun & Hnm & Hmr & Hma & Ha4 & Hm4 & Hfr4 & Hpre4);
    [by subst r | done | subst r; simpl in *; lia |].
  rewrite Hrun, Hrc.
  set (mk := (leftmost rl ra rx).2) in *.
  set (m := (leftmost rl ra rx).1) in *.
  rewrite <- Er in Hpre4, Hmr.
  destruct (pre_right _ _ _ _ _ _ _ _ Hpre4 Hrc) as (nc & Hnc & Hprec).
  assert (a ∉ addrs r) as Har' by (subst r; exact Har).
  eapply (DN_child_runs fuel b mk s4 a _ ra nc r with_right);
    [done | lia | exact Ha4 | done |].
  eapply (IH mk ra r s4 nc (Some a)); [exact Hprec | | by eauto | lia].
  eapply exact_agree; [| exact Hexr]. intros y ny Hy Hny.
  assert (y ≠ a) by (intros ->; by apply Har').
  destruct (decide (y = m)) as [-> | Hym].
  - eexists. split; [exact Hm4 |]. rewrite Hnm in Hny. injection Hny as <-.
    split; [done |]. simpl. symmetry.
    by eapply (exact_data _ _ _ m nm Hexr).
  - exists ny. by rewrite Hfr4.
Qed.

Lemma DeleteNode_found_runs fuel b k : ∀ t a0 n0 s a up,
  DeleteNode_pre b s a0 n0 t → exact (heap s) up t →
  lookup_tree k t = Some a →
  (splices_root k t → ∃ q nq, up = Some q ∧ heap s !! q = Some nq) →
  (height t ≤ fuel)%nat →
  ∃ p s', DeleteNode fuel (Some a) k s = Ok p s'.
Proof.
  induction t as [|l IHl a' x r IHr]; intros a0 n0 s a up Hpre Hex Hlk Hup Hf;
    [done |].
  pose proof Hpre as (Hs & _ & _ & _ & Hn & _).
  destruct Hs as ([= <-] & n & Hn' & Hk & Hl & Hr).
  rewrite Hn in Hn'. injection Hn' as <-.
  pose proof Hex as (_ & Hexl & Hexr).
  cbn [lookup_tree] in Hlk. destruct (Z.eqb x k) eqn:E.
  { injection Hlk as <-.
    by apply (DeleteNode_runs fuel b k a0 (Br l a0 x r) s n0 up). }
  simpl in Hf. destruct (k <? x) eqn:E1.
  - destruct (left n0) as [c|] eqn:Hlc;
      [| by apply shape_null in Hl; subst l].
    destruct (pre_left _ _ _ _ _ _ _ _ Hpre Hlc) as (nc & Hnc & Hprec).
    eapply (IHl c nc s a (Some a0)); [done | done | done | by eauto | lia].
  - destruct (right n0) as [c|] eqn:Hrc;
      [| by apply shape_null in Hr; subst r].
    destruct (pre_right _ _ _ _ _ _ _ _ Hpre Hrc) as (nc & Hnc & Hprec).
    eapply (IHr c nc s a (Some a0)); [done | done | done | by eauto | lia].
Qed.

Lemma inv_pre s l a0 x r :
  inv s (Br l a0 x r) →
  ∃ n0, root_ s = Some a0 ∧ heap s !! a0 = Some n0 ∧
        DeleteNode_pre (brk s) s a0 n0 (Br l a0 x r).
Proof.
  intros [[Hs Hnd Hbrk] Hpar Hup].
  set (t := Br l a0 x r) in *.
  assert (∃ n0, root_ s = Some a0 ∧ heap s !! a0 = Some n0) as (n0 & Hroot & Hn0).
  { destruct Hs as (? & n0 & ? & _). by exists n0. }
  exists n0. split; [done |]. split; [done |].
  assert (Hup0 : parent n0 = None ∨
                 ∃ q, parent n0 = Some q ∧ heap s !! q = None ∧ (q < brk s)%positive).
  { destruct Hup as (n0' & Hn0' & Hup). rewrite Hn0 in Hn0'.
    injection Hn0' as <-. exact Hup. }
  split_and!; try done.
  - by rewrite <- Hroot.
  - intros y Hy. apply Hbrk. by eapply shape_live.
  - intros q Hq Hin. destruct Hup0 as [Hup0 | (q' & Hq' & Hnone & _)];
      [congruence |].
    assert (q' = q) as -> by congruence.
    destruct (shape_live _ _ _ _ Hs Hin). congruence.
Qed.

Lemma exact_inv s t : wf s t → exact (heap s) None t → inv s t.
Proof.
  intros Hwf Hex. constructor; [done | |].
  - by eapply exact_parents.
  - by apply exact_up_ok.
Qed.

(** [DeleteKey] of a key of a tree with exact parent pointers and no
    payloads, which is not at a root with at most one child. *)
Lemma DeleteKey_runs fuel k s t :
  wf s t → exact (heap s) None t → bst t → k ∈ keys t →
  ¬ splices_root k t → (height t ≤ fuel)%nat →
  ∃ s' l1 l2,
    DeleteKey fuel k s = Ok true s' ∧
    wf s' (del k t) ∧ bst (del k t) ∧
    keys t = l1 ++ k :: l2 ∧ keys (del k t) = l1 ++ l2 ∧
    Find fuel k s' = Ok None s' ∧
    (∀ k', k' ∈ keys t → k' ≠ k →
       ∃ a n, Find fuel k' s' = Ok (Some a) s' ∧
              heap s' !! a = Some n ∧ key n = k').
Proof.
  intros Hwf Hex Hbst Hk Hroot Hf.
  pose proof (exact_inv _ _ Hwf Hex) as Hinv.
  pose proof (bst_ordered _ Hbst) as Hord.
  destruct (lookup_tree_present k t Hord Hk) as [a Hlk].
  assert (HF : Find fuel k s = Ok (Some a) s).
  { unfold Find, bind, get. rewrite <- Hlk.
    apply FindRecurse_shape; [apply Hwf | done]. }
  destruct t as [|l a0 x r] eqn:Et; [done |]. rewrite <- Et in *.
  destruct (inv_pre s l a0 x r ltac:(by rewrite <- Et)) as (n0 & _ & _ & Hpre).
  rewrite <- Et in Hpre.
  destruct (DeleteNode_found_runs fuel (brk s) k t a0 n0 s a None Hpre Hex Hlk)
    as (p & s' & HD); [by intros ? | done |].
  assert (HK : DeleteKey fuel k s = Ok true s').
  { unfold DeleteKey. rewrite (bind_Ok _ _ _ _ _ HF).
    by rewrite (bind_Ok _ _ _ _ _ HD). }
  destruct (DeleteKey_true fuel k s t s' Hinv Hbst Hf HK)
    as (_ & Hinv' & Hbst' & HF' & _ & _).
  destruct (keys_del k t Hord ltac:(by eexists)) as (l1 & l2 & Hk1 & Hk2).
  exists s', l1, l2. pose proof (height_del k t) as Hh.
  split_and!; try done.
  - apply Hinv'.
  - intros k' Hk' Hne.
    destruct (Find_ordered fuel k' s' (del k t)) as [Hfound _];
      [apply Hinv' | by apply bst_ordered | lia |].
    destruct Hfound as (a' & n' & ? & _ & ? & ?); [| by eauto].
    rewrite Hk2. rewrite Hk1 in Hk'.
    rewrite elem_of_app, elem_of_cons in Hk'. rewrite elem_of_app.
    tauto.
Qed.

(** X10. On a tree whose parent pointers are as [Add] leaves them and whose
    nodes have no payload, [DeleteKey] of a key of the tree returns [true]
    without a fault, unless the key is at the root and the root has at most
    one child.  Afterwards the tree holds, in order, the keys it held
    without the deleted one, [Find] of the deleted key returns [nullptr],
    and [Find] of every other key of the tree returns a node holding it. *)
Theorem DeleteKey_succeeds fuel k s t :
  wf s t → exact (heap s) None t → bst t → k ∈ keys t →
  ¬ splices_root k t → (height t ≤ fuel)%nat →
  ∃ s' t' l1 l2,
    DeleteKey fuel k s = Ok true s' ∧
    wf s' t' ∧ bst t' ∧
    keys t = l1 ++ k :: l2 ∧ keys t' = l1 ++ l2 ∧
    Find fuel k s' = Ok None s' ∧
    (∀ k', k' ∈ keys t → k' ≠ k →
       ∃ a n, Find fuel k' s' = Ok (Some a) s' ∧
              heap s' !! a = Some n ∧ key n = k').
Proof.
  intros Hwf Hex Hbst Hk Hroot Hf.
  destruct (DeleteKey_runs fuel k s t Hwf Hex Hbst Hk Hroot Hf)
    as (s' & l1 & l2 & ? & ? & ? & ? & ? & ? & ?).
  by exists s', (del k t), l1, l2.
Qed.

Lemma exact_tree_with ks :
  exact (heap (tree_with ks)) None (tree_after (Insert <$> ks) 1 Leaf).
Proof.
  destruct (Add_all_exact (length ks) ks 1%positive empty_tree Leaf)
    as (s' & HA & _ & Hex);
    [apply wf_empty_tree | done | simpl; lia | by eexists |].
  unfold tree_with, exec. by rewrite HA.
Qed.

Lemma DeleteKey_succeeds_witness :
  ∃ s' t' l1 l2,
    DeleteKey 3 5 (tree_with scenario) = Ok true s' ∧
    wf s' t' ∧ bst t' ∧
    keys scenario_tree = l1 ++ 5 :: l2 ∧ keys t' = l1 ++ l2 ∧
    Find 3 5 s' = Ok None s' ∧
    (∀ k', k' ∈ keys scenario_tree → k' ≠ 5 →
       ∃ a n, Find 3 k' s' = Ok (Some a) s' ∧
              heap s' !! a = Some n ∧ key n = k').
Proof.
  apply (DeleteKey_succeeds 3 5 (tree_with scenario) scenario_tree).
  - apply (wf_tree_with scenario).
  - apply (exact_tree_with scenario).
  - simpl. repeat split; repeat constructor; lia.
  - compute_done.
  - intros [_ [H | H]]; discriminate H.
  - simpl. lia.
Defined.

(** ** Insertions followed by a deletion *)

Lemma ins_all_root ks : ∀ b l a x r,
  ∃ l' r', tree_after (Insert <$> ks) b (Br l a x r) = Br l' a x r'.
Proof.
  induction ks as [|k ks IH]; intros b l a x r; [by eexists _, _ |].
  cbn [fmap list_fmap tree_after].
  destruct (ins_root k b l a x r) as (l' & r' & ->). apply IH.
Qed.

(** X11. Parent pointers after insertions only: when keys are added to an
    empty tree, every node's parent pointer names the node it hangs from,
    the root's parent pointer is null, and no node has a payload. *)
Theorem Add_all_parents_exact fuel ks c s :
  wf s Leaf → is_Some (cells s !! c) → (length ks ≤ fuel)%nat →
  ∃ s' t, Add_all fuel ks (Some c) s = Ok tt s' ∧ wf s' t ∧
          keys t ≡ₚ ks ∧ exact (heap s') None t.
Proof.
  intros Hwf Hc Hf.
  destruct (Add_all_exact fuel ks c s Leaf Hwf I ltac:(simpl; lia) Hc)
    as (s' & HA & Hwf' & Hex).
  exists s', (tree_after (Insert <$> ks) (brk s) Leaf).
  split_and!; try done.
  by rewrite keys_ins_all, app_nil_r.
Qed.

Lemma Add_all_parents_exact_witness :
  ∃ s' t, Add_all 7 scenario (Some 1%positive) empty_tree = Ok tt s' ∧
          wf s' t ∧ keys t ≡ₚ scenario ∧ exact (heap s') None t.
Proof.
  apply (Add_all_parents_exact 7 scenario 1%positive empty_tree).
  - apply wf_empty_tree.
  - by eexists.
  - simpl. lia.
Defined.

(** X12. After distinct keys are added to an empty tree, [DeleteKey] of any
    of them but the first returns [true] without a fault.  The tree then
    holds, in strictly increasing order, the keys added without the deleted
    one, and [Find] of the deleted key returns [nullptr]. *)
Theorem Add_all_then_DeleteKey fuel k0 ks k c s :
  wf s Leaf → is_Some (cells s !! c) → NoDup (k0 :: ks) → k ∈ ks →
  (S (length ks) ≤ fuel)%nat →
  ∃ s1 s2 t2,
    Add_all fuel (k0 :: ks) (Some c) s = Ok tt s1 ∧
    DeleteKey fuel k s1 = Ok true s2 ∧
    wf s2 t2 ∧
    StronglySorted Z.lt (keys t2) ∧
    (∀ y, y ∈ keys t2 ↔ y ∈ k0 :: ks ∧ y ≠ k) ∧
    Find fuel k s2 = Ok None s2.
Proof.
  intros Hwf Hc Hnd Hk Hf.
  destruct (Add_all_exact fuel (k0 :: ks) c s Leaf Hwf I ltac:(simpl; lia) Hc)
    as (s1 & HA & Hwf1 & Hex1).
  destruct (Add_all_wf fuel (k0 :: ks) c s Leaf Hwf I Hnd)
    as (s1' & t' & HA' & Hwf1' & Hbst & Hkeys & _);
    [intros ? _; apply not_elem_of_nil | simpl; lia | done |].
  rewrite HA in HA'. injection HA' as <-.
  set (T := tree_after (Insert <$> k0 :: ks) (brk s) Leaf) in *.
  assert (t' = T) as ->
    by (eapply shape_functional; [apply Hwf1' | apply Hwf1]).
  rewrite app_nil_r in Hkeys.
  assert (Hroot : ¬ splices_root k T).
  { subst T. cbn [fmap list_fmap tree_after ins].
    destruct (ins_all_root ks (Pos.succ (brk s)) Leaf (brk s) k0 Leaf)
      as (l' & r' & ->).
    intros [-> _]. by apply NoDup_cons in Hnd as [? _]. }
  destruct (DeleteKey_runs fuel k s1 T Hwf1 Hex1 Hbst) as
    (s2 & l1 & l2 & HK & Hwf2 & Hbst2 & Hk1 & Hk2 & HF & _);
    [rewrite Hkeys; by right | done | |].
  { pose proof (height_le_length T) as Hh.
    rewrite <- length_keys, Hkeys in Hh. simpl in Hh. lia. }
  exists s1, s2, (del k T). split_and!; try done.
  - by apply bst_sorted.
  - intros y. rewrite Hk2, <- Hkeys, Hk1.
    assert (NoDup (l1 ++ k :: l2)) as Hnd'
      by (by rewrite <- Hk1, Hkeys).
    apply NoDup_app in Hnd' as (_ & H1 & H2).
    apply NoDup_cons in H2 as [H2 _].
    rewrite !elem_of_app, elem_of_cons. split.
    + intros [Hy | Hy]; (split; [tauto |]); intros ->; [| done].
      apply (H1 _ Hy). by left.
    + tauto.
Qed.

Lemma Add_all_then_DeleteKey_witness :
  ∃ s1 s2 t2,
    Add_all 7 (5 :: [3; 8; 1; 4; 7; 9]) (Some 1%positive) empty_tree
    = Ok tt s1 ∧
    DeleteKey 7 4 s1 = Ok true s2 ∧
    wf s2 t2 ∧
    StronglySorted Z.lt (keys t2) ∧
    (∀ y, y ∈ keys t2 ↔ y ∈ 5 :: [3; 8; 1; 4; 7; 9] ∧ y ≠ 4) ∧
    Find 7 4 s2 = Ok None s2.
Proof.
  apply (Add_all_then_DeleteKey 7 5 [3; 8; 1; 4; 7; 9] 4 1%positive empty_tree).
  - apply wf_empty_tree.
  - by eexists.
  - compute_done.
  - compute_done.
  - simpl. lia.
Defined.

(** ** Depths, the destructor with payloads, runs and the empty tree *)

Lemma height_ins_ge k b t : (height t ≤ height (ins k b t))%nat.
Proof.
  induction t as [|l IHl a x r IHr]; simpl; [lia |].
  destruct (k <? x); simpl; lia.
Qed.

Lemma plen_height_ins k b t : (S (plen k t) ≤ height (ins k b t))%nat.
Proof.
  induction t as [|l IHl a x r IHr]; simpl; [lia |].
  destruct (k <? x); simpl; lia.
Qed.

(** X13. [Add] never lowers what [MaxDepth] returns and raises it by at
    most one; the depth [Add] reports, less one, is the number of edges
    from the root to the new node and so is at most [MaxDepth] afterwards. *)
Theorem Add_raises_MaxDepth fuel k c s t :
  wf s t → (height t ≤ fuel)%nat → is_Some (cells s !! c) →
  ∃ s' d m m' o o',
    Add fuel k (Some c) s = Ok (Some (brk s)) s' ∧
    cells s' !! c = Some d ∧
    MaxDepth fuel s = Ok m o ∧ MaxDepth (S fuel) s' = Ok m' o' ∧
    m ≤ m' ≤ m + 1 ∧ 1 ≤ d ∧ d - 1 ≤ m'.
Proof.
  intros Hwf Hf Hc.
  destruct (Add_step fuel k c s t Hwf Hf Hc)
    as (s' & HA & Hwf' & _ & _ & _ & _ & Hcs).
  pose proof (height_ins k (brk s) t) as H1.
  pose proof (height_ins_ge k (brk s) t) as H2.
  pose proof (plen_height_ins k (brk s) t) as H3.
  eexists s', _, _, _, _, _. split; [done |].
  split; [rewrite Hcs; apply lookup_insert_eq |].
  split; [apply MaxDepth_height; [apply Hwf | done] |].
  split; [apply MaxDepth_height; [apply Hwf' | lia] |].
  lia.
Qed.

Lemma Add_raises_MaxDepth_witness :
  ∃ s' d m m' o o',
    Add 3 6 (Some 1%positive) (tree_with scenario)
    = Ok (Some (brk (tree_with scenario))) s' ∧
    cells s' !! 1%positive = Some d ∧
    MaxDepth 3 (tree_with scenario) = Ok m o ∧ MaxDepth 4 s' = Ok m' o' ∧
    m ≤ m' ≤ m + 1 ∧ 1 ≤ d ∧ d - 1 ≤ m'.
Proof.
  apply (Add_raises_MaxDepth 3 6 1%positive (tree_with scenario) scenario_tree).
  - apply (wf_tree_with scenario).
  - simpl. lia.
  - by eexists.
Defined.

(** X14. When every node of the tree has a live payload of its own, the
    destructor releases every node exactly once, children before their
    parent, and every payload; it touches no other node. *)
Theorem dtor_releases_all fuel s t :
  wf s t → owned (heap s) (cells s) t → NoDup (datas (heap s) t) →
  (height t ≤ fuel)%nat →
  ∃ s', BSTree_dtor fuel s = Ok tt s' ∧
        released s' = released s ++ postorder t ∧
        NoDup (postorder t) ∧ postorder t ≡ₚ addrs t ∧
        (∀ a, a ∈ addrs t → heap s' !! a = None) ∧
        (∀ a, a ∉ addrs t → heap s' !! a = heap s !! a) ∧
        (∀ d, d ∈ datas (heap s) t → cells s' !! d = None).
Proof.
  intros Hwf Hown Hnd Hf.
  destruct (DeleteRecursive_postorder fuel (root_ s) t s
              (wf_shape _ _ Hwf) (wf_nodup _ _ Hwf) Hown Hnd Hf)
    as (s' & HD & Hrel & Hgone & Hsame & Hcells & _).
  exists s'. split_and!; try done.
  - rewrite postorder_addrs. apply Hwf.
  - apply postorder_addrs.
Qed.

Lemma wf_payload_store :
  wf payload_store (Br (Br Leaf 2 3 Leaf) 1 5 (Br Leaf 3 8 Leaf)).
Proof.
  constructor.
  - apply (shape_tree_of _ _ _ 2). vm_compute. reflexivity.
  - compute_done.
  - intros a [n Hn].
    assert (map_Forall (λ a _, (a < 4)%positive) (heap payload_store))
      as Hall by compute_done.
    exact (Hall a n Hn).
Qed.

Lemma dtor_releases_all_witness :
  ∃ s', BSTree_dtor 2 payload_store = Ok tt s' ∧
        released s' = released payload_store ++ [2; 3; 1]%positive ∧
        NoDup [2; 3; 1]%positive ∧
        [2; 3; 1]%positive ≡ₚ [2; 1; 3]%positive ∧
        (∀ a, a ∈ [2; 1; 3]%positive → heap s' !! a = None) ∧
        (∀ a, a ∉ [2; 1; 3]%positive →
              heap s' !! a = heap payload_store !! a) ∧
        (∀ d, d ∈ [12; 11; 13]%positive → cells s' !! d = None).
Proof.
  apply (dtor_releases_all 2 payload_store
           (Br (Br Leaf 2 3 Leaf) 1 5 (Br Leaf 3 8 Leaf))).
  - apply wf_payload_store.
  - simpl. repeat split; try done; eexists _, _; repeat split;
      try reflexivity; by eexists.
  - compute_done.
  - simpl. lia.
Defined.






(** X17. On an empty tree [Find] returns [nullptr], [DeleteKey] returns
    [false], [MaxDepth] returns 0, [Print] prints nothing and the destructor
    releases nothing; none of them changes the state or needs any budget. *)
Theorem empty_tree_calls fuel k s :
  root_ s = None →
  Find fuel k s = Ok None s ∧ DeleteKey fuel k s = Ok false s ∧
  MaxDepth fuel s = Ok 0 s ∧ Print fuel None s = Ok tt s ∧
  BSTree_dtor fuel s = Ok tt s.
Proof.
  intros Hr.
  assert (Find fuel k s = Ok None s) as HF.
  { unfold Find, bind, get. rewrite Hr. by destruct fuel. }
  split_and!; try done.
  - unfold DeleteKey. by rewrite (bind_Ok _ _ _ _ _ HF).
  - unfold MaxDepth, bind, get. by rewrite Hr.
  - unfold Print, bind, get. by rewrite Hr.
  - unfold BSTree_dtor, bind, get. rewrite Hr. by destruct fuel.
Qed.

Lemma empty_tree_calls_witness :
  Find 0 7 empty_tree = Ok None empty_tree ∧
  DeleteKey 0 7 empty_tree = Ok false empty_tree ∧
  MaxDepth 0 empty_tree = Ok 0 empty_tree ∧
  Print 0 None empty_tree = Ok tt empty_tree ∧
  BSTree_dtor 0 empty_tree = Ok tt empty_tree.
Proof. apply (empty_tree_calls 0 7 empty_tree). reflexivity. Defined.



(** ** The data set of the test driver: properties *)

Lemma CreateUniqueDataSet_draw_fresh fuel rand size occupancy :
  (∀ n, 0 ≤ rand n) → (0 < size)%nat →
  ∀ calls value calls',
    CreateUniqueDataSet_draw fuel rand calls size occupancy
    = Some (value, calls') →
    occupancy !! value = None ∧ 0 ≤ value < Z.of_nat size ∧
    ∃ n, value = Z.rem (rand n) (Z.of_nat size).
Proof.
  intros Hr Hs. induction fuel as [|fuel IH]; intros calls value calls';
    [done |].
  cbn [CreateUniqueDataSet_draw].
  destruct (decide (is_Some (occupancy !! _))) as [Hin | Hout]; [apply IH |].
  intros [= <- <-]. split_and!.
  - by apply eq_None_not_Some.
  - pose proof (Z.rem_bound_pos (rand calls) (Z.of_nat size) (Hr calls)).
    lia.
  - pose proof (Z.rem_bound_pos (rand calls) (Z.of_nat size) (Hr calls)).
    lia.
  - by exists calls.
Qed.

Lemma CreateUniqueDataSet_loop_spec rand size :
  (∀ n, 0 ≤ rand n) →
  ∀ fuel calls index occupancy array array',
    (index ≤ size)%nat → (index ≤ length array)%nat →
    (∀ v, is_Some (occupancy !! v) ↔ v ∈ take index array) →
    NoDup (take index array) →
    Forall (λ v, 0 ≤ v < Z.of_nat size ∧
                 ∃ n, v = Z.rem (rand n) (Z.of_nat size))
           (take index array) →
    CreateUniqueDataSet_loop fuel rand calls size index occupancy array
    = Done array' →
    (size ≤ length array')%nat ∧ length array' = length array ∧
    NoDup (take size array') ∧
    Forall (λ v, 0 ≤ v < Z.of_nat size ∧
                 ∃ n, v = Z.rem (rand n) (Z.of_nat size))
           (take size array') ∧
    drop size array' = drop size array.
Proof.
  intros Hr. induction fuel as [|fuel IH];
    intros calls index occ array array' Hi Hlen Hocc Hnd Hrange.
  - cbn [CreateUniqueDataSet_loop].
    destruct (index <? size)%nat eqn:E; [done |].
    apply Nat.ltb_ge in E. assert (index = size) as -> by lia.
    intros [= <-]. by split_and!.
  - cbn [CreateUniqueDataSet_loop].
    destruct (index <? size)%nat eqn:E.
    2: { apply Nat.ltb_ge in E. assert (index = size) as -> by lia.
         intros [= <-]. by split_and!. }
    apply Nat.ltb_lt in E.
    destruct (CreateUniqueDataSet_draw (S fuel) rand calls size occ)
      as [[value calls']|] eqn:Hd; [| done].
    destruct (CreateUniqueDataSet_draw_fresh (S fuel) rand size occ Hr
                ltac:(lia) _ _ _ Hd)
      as (Hfresh & Hv & Hn).
    destruct (index <? length array)%nat eqn:E2; [| done].
    apply Nat.ltb_lt in E2.
    assert (take (S index) (<[index := value]> array)
            = take index array ++ [value]) as Htake.
    { rewrite (take_S_r _ _ value) by (by apply list_lookup_insert_eq).
      by rewrite take_insert_ge. }
    intros HL. apply IH in HL.
    + destruct HL as (Hsz & Hl' & Hnd' & Hr' & Hdrop).
      rewrite length_insert in Hl'.
      split_and!; try done.
      rewrite Hdrop. by apply drop_insert_lt.
    + lia.
    + rewrite length_insert. lia.
    + intros v. rewrite Htake, elem_of_app, list_elem_of_singleton, <- Hocc.
      destruct (decide (v = value)) as [-> | Hne].
      * rewrite lookup_insert_eq. split; [by right | by eexists].
      * rewrite lookup_insert_ne by done. split; [by left |].
        by intros [? | ?].
    + rewrite Htake. apply NoDup_app. split_and!; [done | | apply NoDup_singleton].
      intros v Hin ->%list_elem_of_singleton.
      apply Hocc in Hin as [? Hin]. congruence.
    + rewrite Htake. apply Forall_app. split; [done |].
      by apply Forall_singleton.
Qed.

Lemma CreateUniqueDataSet_Done fuel rand array size array' :
  (∀ n, 0 ≤ rand n) →
  CreateUniqueDataSet fuel rand array size = Done array' →
  take size array' ≡ₚ seqZ 0 (Z.of_nat size) ∧
  NoDup (take size array') ∧
  length array' = length array ∧
  drop size array' = drop size array ∧
  Forall (λ v, ∃ n, v = Z.rem (rand n) (Z.of_nat size)) (take size array').
Proof.
  intros Hr HC.
  destruct (CreateUniqueDataSet_loop_spec rand size Hr fuel 0 0 ∅ array array')
    as (Hsz & Hlen & Hnd & Hrange & Hdrop); try done.
  { lia. }
  { lia. }
  { intros v. rewrite lookup_empty. simpl. split; [by intros [? ?] |].
    by intros ?%elem_of_nil. }
  { constructor. }
  split_and!; try done.
  - apply submseteq_length_Permutation.
    + apply NoDup_submseteq; [done |]. intros v Hv.
      rewrite Forall_forall in Hrange. apply elem_of_seqZ.
      destruct (Hrange v Hv) as [? _]. lia.
    + rewrite length_seqZ, length_take. lia.
  - eapply Forall_impl; [exact Hrange |]. by intros v [_ ?].
Qed.

Lemma CreateUniqueDataSet_loop_in_bounds rand size :
  ∀ fuel calls index occupancy array,
    (size ≤ length array)%nat →
    CreateUniqueDataSet_loop fuel rand calls size index occupancy array
    ≠ OutOfBounds.
Proof.
  induction fuel as [|fuel IH]; intros calls index occ array Hlen;
    cbn [CreateUniqueDataSet_loop];
    destruct (index <? size)%nat eqn:E; try done.
  apply Nat.ltb_lt in E.
  destruct (CreateUniqueDataSet_draw (S fuel) rand calls size occ)
    as [[value calls']|]; [| done].
  assert ((index <? length array)%nat = true) as -> by (apply Nat.ltb_lt; lia).
  apply IH. by rewrite length_insert.
Qed.

(** X19. When [CreateUniqueDataSet] returns, the first [size] entries of
    the array are the numbers 0 to [size - 1], each exactly once, in some
    order, and the rest of the array is as it was.  (It is given that
    [rand()] returns no negative number.) *)
Theorem CreateUniqueDataSet_permutation fuel rand array size array' :
  (∀ n, 0 ≤ rand n) →
  CreateUniqueDataSet fuel rand array size = Done array' →
  take size array' ≡ₚ seqZ 0 (Z.of_nat size) ∧
  NoDup (take size array') ∧
  length array' = length array ∧
  drop size array' = drop size array.
Proof.
  intros Hr HC.
  destruct (CreateUniqueDataSet_Done fuel rand array size array' Hr HC)
    as (? & ? & ? & ? & _).
  done.
Qed.

Lemma CreateUniqueDataSet_permutation_witness :
  take 4 [2; 0; 3; 1; 9] ≡ₚ seqZ 0 (Z.of_nat 4) ∧
  NoDup (take 4 [2; 0; 3; 1; 9]) ∧
  length [2; 0; 3; 1; 9] = length [7; 7; 7; 7; 9] ∧
  drop 4 [2; 0; 3; 1; 9] = drop 4 [7; 7; 7; 7; 9].
Proof.
  apply (CreateUniqueDataSet_permutation 7
           (λ n, Z.of_nat (nth n [6; 10; 4; 2; 3; 8; 5]%nat 0%nat))
           [7; 7; 7; 7; 9] 4 [2; 0; 3; 1; 9]).
  - intros n. lia.
  - vm_compute. reflexivity.
Defined.

(** X20. [CreateUniqueDataSet] returns only if every number from 0 to
    [size - 1] comes up as [rand() % size]: if one of them never does, the
    loop that draws again on a used value does not come to an end, whatever
    the budget of steps. *)
Theorem CreateUniqueDataSet_needs_every_value fuel rand array size v :
  (∀ n, 0 ≤ rand n) → 0 ≤ v < Z.of_nat size →
  (∀ n, Z.rem (rand n) (Z.of_nat size) ≠ v) →
  (size ≤ length array)%nat →
  CreateUniqueDataSet fuel rand array size = OutOfFuel.
Proof.
  intros Hr Hv Hmiss Hlen.
  destruct (CreateUniqueDataSet fuel rand array size) as [array'| |] eqn:HC;
    [| | done].
  - exfalso.
    destruct (CreateUniqueDataSet_Done fuel rand array size array' Hr HC)
      as (Hperm & _ & _ & _ & Hfrom).
    assert (v ∈ take size array') as Hin
      by (rewrite Hperm; apply elem_of_seqZ; lia).
    rewrite Forall_forall in Hfrom. destruct (Hfrom v Hin) as [n Hn].
    by apply (Hmiss n).
  - exfalso. by eapply CreateUniqueDataSet_loop_in_bounds.
Qed.

Lemma CreateUniqueDataSet_needs_every_value_witness :
  CreateUniqueDataSet 50 (λ _, 6) [7; 7; 7] 3 = OutOfFuel.
Proof.
  apply (CreateUniqueDataSet_needs_every_value 50 (λ _, 6) [7; 7; 7] 3 1).
  - intros n. lia.
  - simpl. lia.
  - intros n. vm_compute. discriminate.
  - simpl. lia.
Defined.
